(** * Generation job orchestration layer of [services/geminiService.ts]

    A shallow embedding of the service file: the transient-error test and
    the backoff executor ([retryWithBackoff]), the WAV container encoder
    ([combineBase64Chunks]), the image format normaliser
    ([convertImageToCompatibleFormat]), and the request facades
    ([generateImageFromText], [generateVideo], [analyzeVideo],
    [transcribeAudio]); then the other entry points of the file
    ([sendChatMessage], [editImageWithText], [planStoryboard],
    [orchestrateVideoPrompt], [compileMultiFramePrompt], [generateAudio],
    [urlToBase64]) and the thumbnail reordering of the node component
    ([InputThumbnails]).

    Conventions.
    - JavaScript numbers that the code uses as integers are [Z].
    - JavaScript strings are [string] (one [ascii] per code unit; the
      patterns the code searches for are ASCII).
    - A promise that has settled is a [Settled] value; an [async] function
      is an [Async] machine that advances from one [await] to the next
      against the [World] (the external service and the event log).
    - [console.warn] / [console.error] output is not modelled. *)

From Stdlib Require Import ZArith Lia Bool Ascii String Strings.Byte.
From stdpp Require Import base list strings.

Local Open Scope string_scope.
Local Open Scope list_scope.
Local Open Scope Z_scope.

(** ** String helpers (the [String.prototype] methods the file uses) *)

Definition is_upper (c : ascii) : bool :=
  let n := nat_of_ascii c in (65 <=? n)%nat && (n <=? 90)%nat.

Definition lower_ascii (c : ascii) : ascii :=
  if is_upper c then ascii_of_nat (nat_of_ascii c + 32) else c.

Fixpoint toLowerCase (s : string) : string :=
  match s with
  | EmptyString => EmptyString
  | String c s' => String (lower_ascii c) (toLowerCase s')
  end.

(** [s.startsWith(pat)] *)
Fixpoint startsWith (s pat : string) {struct pat} : bool :=
  match pat with
  | EmptyString => true
  | String a pat' =>
      match s with
      | EmptyString => false
      | String b s' => Ascii.eqb a b && startsWith s' pat'
      end
  end.

(** [s.includes(pat)] *)
Fixpoint includes (s pat : string) : bool :=
  startsWith s pat ||
  match s with
  | EmptyString => false
  | String _ s' => includes s' pat
  end.

(** [s.slice(n)] for [0 <= n] *)
Fixpoint slice (n : nat) (s : string) : string :=
  match n, s with
  | O, _ => s
  | S _, EmptyString => EmptyString
  | S n', String _ s' => slice n' s'
  end.

(** A JSON string literal without escapes. *)
Definition quoted (s : string) : string :=
  String (ascii_of_nat 34) s +:+ String (ascii_of_nat 34) "".

(** ** Thrown values *)

(** A truthy [message] as the file uses it: a string, or a value of
    another type that has no string methods (a number, a boolean, a plain
    object), of which the model keeps what [String] makes of it. *)
Inductive Message :=
| Text (s : string)
| Other (shown : string).

(** [String(v)]: what [new Error(v)] and ["..." + v] make of a message. *)
Definition toText (v : Message) : string :=
  match v with
  | Text s => s
  | Other shown => shown
  end.

(** [v] when it is truthy: the empty string is falsy. *)
Definition truthyMessage (o : option Message) : option Message :=
  match o with
  | Some (Text EmptyString) => None
  | _ => o
  end.

(** The properties of a thrown value that the file reads.  [err_status]
    and [err_code] are [None] unless the property is a number (the file
    only compares them with numbers, by [===]).  [err_message] and
    [err_inner] are [None] when the property is absent or falsy.
    [err_json] is what [JSON.stringify] gives for the value: the model
    covers the values for which that is a string, and property reads that
    do not raise. *)
Record ErrorObject := {
  err_status : option Z;          (* error.status *)
  err_code : option Z;            (* error.code *)
  err_message : option Message;   (* error.message *)
  err_inner : option Message;     (* error.error && error.error.message *)
  err_json : string               (* JSON.stringify(error) *)
}.

Inductive Thrown :=
| Undefined
| Null
| Falsy                         (* false, 0, NaN: falsy, not nullish, not a string *)
| Str (s : string)              (* a thrown string *)
| Obj (o : ErrorObject).        (* any other value: an object such as an
                                   Error, or a truthy number or boolean *)

(** [new Error(msg)]: only [message] is set, and it is not enumerable. *)
Definition newError (msg : string) : Thrown :=
  Obj {| err_status := None; err_code := None; err_message := Some (Text msg);
         err_inner := None; err_json := "{}" |}.

Definition nonempty (o : option string) : option string :=
  match o with
  | Some EmptyString => None
  | _ => o
  end.

(** What [getErrorMessage] returns; its declared type is [string], yet a
    truthy [message] is returned whatever its type. *)
Definition getErrorMessage (error : Thrown) : Message :=
  match error with
  | Undefined | Null | Falsy => Text "Unknown error"
  | Str EmptyString => Text "Unknown error"
  | Str s => Text s
  | Obj o =>
      match truthyMessage (err_message o) with
      | Some m => m
      | None =>
          match truthyMessage (err_inner o) with
          | Some m => m
          | None => Text (err_json o)
          end
      end
  end.

Definition is_num (o : option Z) (n : Z) : bool :=
  match o with
  | Some k => k =? n
  | None => false
  end.

(** Why evaluating the test of the [catch] block raises a [TypeError]. *)
Inductive TypeErrorCause :=
| ToLowerCaseOfOther      (* getErrorMessage(error).toLowerCase is not a function *)
| StatusOfUndefined       (* undefined.status *)
| StatusOfNull.           (* null.status *)

Inductive Test :=
| Raises (cause : TypeErrorCause)
| Says (overloaded : bool).

(** The two lines of the [catch] block of [retryWithBackoff] that compute
    [msg] and [isOverloaded], in their order of evaluation. *)
Definition isOverloaded (error : Thrown) : Test :=
  match getErrorMessage error with
  | Other _ => Raises ToLowerCaseOfOther
  | Text m =>
      let msg := toLowerCase m in
      match error with
      | Undefined => Raises StatusOfUndefined
      | Null => Raises StatusOfNull
      | Falsy | Str _ => Says (includes msg "overloaded" || includes msg "503")
      | Obj o =>
          Says (is_num (err_status o) 503 || is_num (err_code o) 503
                || includes msg "overloaded" || includes msg "503"
                || is_num (err_status o) 429 || is_num (err_code o) 429)
      end
  end.

(** The classifier of the specification, read off [isOverloaded]. *)
Inductive ErrorClass := RETRYABLE | FATAL.

Definition classify (error : Thrown) : option ErrorClass :=
  match isOverloaded error with
  | Says true => Some RETRYABLE
  | Says false => Some FATAL
  | Raises _ => None
  end.

(** ** Settled promises and asynchronous functions *)

Inductive Settled (T : Type) :=
| Fulfilled (value : T)
| Rejected (reason : Thrown).
Arguments Fulfilled {T} value.
Arguments Rejected {T} reason.

Definition is_fulfilled {T} (r : Settled T) : bool :=
  match r with
  | Fulfilled _ => true
  | Rejected _ => false
  end.

Inductive Step (F T : Type) :=
| Running (frame : F)
| Finished (result : Settled T).
Arguments Running {F T} frame.
Arguments Finished {F T} result.

(** ** Data exchanged with the external service *)

Record InlineData := { data : string; mimeType : string }.

Inductive Part :=
| InlinePart (inlineData : InlineData)
| TextPart (text : string).

Record ContentRequest := {
  content_model : string;
  content_parts : list Part
}.

(** A part of [response.candidates[0].content.parts]. *)
Record ResponseInline := {
  resp_data : option string;
  resp_mimeType : option string
}.

Record ResponsePart := { resp_inlineData : option ResponseInline }.

Record ContentResponse := {
  candidate_parts : option (list ResponsePart);  (* candidates?.[0]?.content?.parts *)
  response_text : option string                  (* response.text *)
}.

Record Video := {
  uri : option string;
  video_mimeType : option string
}.

Record Operation := {
  op_name : string;
  done : bool;
  generated_video : option Video   (* response?.generatedVideos?.[0]?.video *)
}.

Record ImageInput := { imageBytes : string; image_mimeType : string }.

Record ReferenceImage := { ref_image : ImageInput; referenceType : string }.

Record VideoConfig := {
  numberOfVideos : Z;
  config_aspectRatio : string;
  config_resolution : string;
  referenceImagesConfig : option (list ReferenceImage)
}.

Record VideoRequest := {
  video_model : string;
  video_prompt : string;
  video_image : option ImageInput;
  video_video : option Video;
  video_config : VideoConfig
}.

Inductive Event :=
| EvWait (ms : Z)                               (* await wait(ms) *)
| EvLoadImage (src : string)                    (* img.src = ...; canvas *)
| EvGenerateVideos (req : VideoRequest)         (* ai.models.generateVideos *)
| EvGetVideosOperation (op : Operation)         (* ai.operations.getVideosOperation *)
| EvGenerateContent (req : ContentRequest).     (* ai.models.generateContent *)

(** ** Data-URI envelopes

    The file recognises embedded payloads with regular expressions of
    one shape, [/^data:(KIND\/CLS+);base64,/].  The character after the
    run must be [;], which is in none of the classes used, so the run is
    the longest one. *)

Definition is_digit (c : ascii) : bool :=
  let n := nat_of_ascii c in (48 <=? n)%nat && (n <=? 57)%nat.

Definition is_lower (c : ascii) : bool :=
  let n := nat_of_ascii c in (97 <=? n)%nat && (n <=? 122)%nat.

(** [\w] *)
Definition is_word (c : ascii) : bool :=
  is_upper c || is_lower c || is_digit c || (nat_of_ascii c =? 95)%nat.

(** [[a-zA-Z+]] *)
Definition is_alpha_plus (c : ascii) : bool :=
  is_upper c || is_lower c || (nat_of_ascii c =? 43)%nat.

Fixpoint span (cls : ascii -> bool) (s : string) : string * string :=
  match s with
  | EmptyString => (EmptyString, EmptyString)
  | String c s' =>
      if cls c then let (run, rest) := span cls s' in (String c run, rest)
      else (EmptyString, s)
  end.

Definition strip_prefix (pat s : string) : option string :=
  if startsWith s pat then Some (slice (String.length pat) s) else None.

(** [s.match(/^data:(KIND\/CLS+);base64,/)]: the captured mime type and
    what follows the match. *)
Definition match_data_uri (kind : string) (cls : ascii -> bool) (s : string)
  : option (string * string) :=
  match strip_prefix ("data:" +:+ kind +:+ "/") s with
  | None => None
  | Some r =>
      match span cls r with
      | (EmptyString, _) => None
      | (sub, r') =>
          match strip_prefix ";base64," r' with
          | None => None
          | Some payload => Some (kind +:+ "/" +:+ sub, payload)
          end
      end
  end.

(** [s.match(re)?.[1] || dflt] *)
Definition mime_or (kind : string) (cls : ascii -> bool) (dflt s : string) : string :=
  match match_data_uri kind cls s with
  | Some (m, _) => m
  | None => dflt
  end.

(** [s.replace(re, "")] *)
Definition strip_envelope (kind : string) (cls : ascii -> bool) (s : string) : string :=
  match match_data_uri kind cls s with
  | Some (_, payload) => payload
  | None => s
  end.

(** ** Audio container encoder *)

(** A store into a [Uint8Array] / [DataView.setUint8]: the value modulo 256. *)
Definition byte_of_Z (v : Z) : byte :=
  default x00 (Byte.of_N (Z.to_N (v mod 256))).

Definition Z_of_byte (b : byte) : Z := Z.of_N (Byte.to_N b).

(** A [DataView] over an [ArrayBuffer] is the list of its bytes.  All the
    writes of the encoder are inside the 44-byte buffer. *)
Definition setUint8 (view : list byte) (offset : nat) (v : Z) : list byte :=
  <[offset := byte_of_Z v]> view.

Definition setUint16 (view : list byte) (offset : nat) (v : Z) (littleEndian : bool)
  : list byte :=
  let v := v mod 2 ^ 16 in
  let b0 := v in
  let b1 := Z.shiftr v 8 in
  if littleEndian
  then setUint8 (setUint8 view offset b0) (offset + 1) b1
  else setUint8 (setUint8 view offset b1) (offset + 1) b0.

Definition setUint32 (view : list byte) (offset : nat) (v : Z) (littleEndian : bool)
  : list byte :=
  let v := v mod 2 ^ 32 in
  let b0 := v in
  let b1 := Z.shiftr v 8 in
  let b2 := Z.shiftr v 16 in
  let b3 := Z.shiftr v 24 in
  if littleEndian
  then setUint8 (setUint8 (setUint8 (setUint8 view offset b0)
                  (offset + 1) b1) (offset + 2) b2) (offset + 3) b3
  else setUint8 (setUint8 (setUint8 (setUint8 view offset b3)
                  (offset + 1) b2) (offset + 2) b1) (offset + 3) b0.

Fixpoint writeString (view : list byte) (offset : nat) (s : string) : list byte :=
  match s with
  | EmptyString => view
  | String c s' =>
      writeString (setUint8 view offset (Z.of_nat (nat_of_ascii c))) (S offset) s'
  end.

(** [new Uint8Array(n)] *)
Definition newUint8Array (n : nat) : list byte := replicate n x00.

(** [target.set(source, offset)] with the source inside the target. *)
Definition set_array (target source : list byte) (offset : nat) : list byte :=
  take offset target ++ source ++ drop (offset + length source) target.

Definition wavHeader (totalLength sampleRate : Z) : list byte :=
  let channels := 1 in
  let bitDepth := 16 in
  let headerView := newUint8Array 44 in
  let headerView := writeString headerView 0 "RIFF" in
  let headerView := setUint32 headerView 4 (36 + totalLength) true in
  let headerView := writeString headerView 8 "WAVE" in
  let headerView := writeString headerView 12 "fmt " in
  let headerView := setUint32 headerView 16 16 true in
  let headerView := setUint16 headerView 20 1 true in
  let headerView := setUint16 headerView 22 channels true in
  let headerView := setUint32 headerView 24 sampleRate true in
  let headerView := setUint32 headerView 28 (sampleRate * channels * (bitDepth / 8)) true in
  let headerView := setUint16 headerView 32 (channels * (bitDepth / 8)) true in
  let headerView := setUint16 headerView 34 bitDepth true in
  let headerView := writeString headerView 36 "data" in
  setUint32 headerView 40 totalLength true.

(** The two loops over the decoded chunks: the total length, then the
    copy of every chunk at its offset. *)
Definition totalLength_of (arrays : list (list byte)) : nat :=
  fold_left (fun total arr => (total + length arr)%nat) arrays 0%nat.

Definition merge (arrays : list (list byte)) : list byte :=
  fst (fold_left
         (fun '(merged, offset) arr =>
            (set_array merged arr offset, (offset + length arr)%nat))
         arrays (newUint8Array (totalLength_of arrays), 0%nat)).

Definition wavFile (arrays : list (list byte)) (sampleRate : Z) : list byte :=
  let totalLength := totalLength_of arrays in
  let merged := merge arrays in
  let header := wavHeader (Z.of_nat totalLength) sampleRate in
  let wavFile := newUint8Array (length header + totalLength) in
  let wavFile := set_array wavFile header 0 in
  set_array wavFile merged (length header).

Definition chunk : nat := Z.to_nat 8192.

(** The loop that turns the file into a binary string, [chunk] bytes at a
    time; [fuel] bounds the number of rounds. *)
Fixpoint binaryString (fuel : nat) (wavFile : list byte) : string :=
  match fuel, wavFile with
  | O, _ => EmptyString
  | _, [] => EmptyString
  | S fuel', _ =>
      string_of_list_byte (take chunk wavFile) +:+
      binaryString fuel' (drop chunk wavFile)
  end.

Section Base64.

(** The browser's [atob] (which throws on malformed input) and [btoa]. *)
Variable atob : string -> Settled string.
Variable btoa : string -> string.

Definition base64ToUint8Array (base64 : string) : Settled (list byte) :=
  match atob base64 with
  | Rejected e => Rejected e
  | Fulfilled binaryString => Fulfilled (list_byte_of_string binaryString)
  end.

(** The first loop of [combineBase64Chunks]: decode every chunk, in
    order; the first malformed chunk aborts the call. *)
Fixpoint decodeChunks (chunks : list string) : Settled (list (list byte)) :=
  match chunks with
  | [] => Fulfilled []
  | chunk :: chunks' =>
      match base64ToUint8Array chunk with
      | Rejected e => Rejected e
      | Fulfilled arr =>
          match decodeChunks chunks' with
          | Rejected e => Rejected e
          | Fulfilled arrays => Fulfilled (arr :: arrays)
          end
      end
  end.

Definition combineBase64Chunks (chunks : list string) (sampleRate : Z)
  : Settled string :=
  match decodeChunks chunks with
  | Rejected e => Rejected e
  | Fulfilled arrays =>
      let wav := wavFile arrays sampleRate in
      Fulfilled ("data:audio/wav;base64," +:+ btoa (binaryString (length wav) wav))
  end.

Definition pcmToWav (base64PCM : string) (sampleRate : Z) : Settled string :=
  combineBase64Chunks [base64PCM] sampleRate.

End Base64.

(** Reading a little-endian field back, as a player does. *)
Definition getUint8 (view : list byte) (offset : nat) : Z :=
  match view !! offset with
  | Some b => Z_of_byte b
  | None => 0
  end.

Definition getUint16LE (view : list byte) (offset : nat) : Z :=
  getUint8 view offset + 2 ^ 8 * getUint8 view (offset + 1).

Definition getUint32LE (view : list byte) (offset : nat) : Z :=
  getUint8 view offset + 2 ^ 8 * getUint8 view (offset + 1)
  + 2 ^ 16 * getUint8 view (offset + 2) + 2 ^ 24 * getUint8 view (offset + 3).

(** ** The environment

    The external service and the browser: a state and the calls the file
    makes.  Nothing is assumed about their answers.  [loadImage] stands for
    the [Image] / canvas path of the normaliser: it fails ([onerror], or no
    canvas context) or returns what follows ["data:"] in the result of
    [canvas.toDataURL('image/png')].  [typeErrorMessage] is the text the
    JavaScript engine gives the [TypeError] it raises; the language does
    not fix it. *)
Class Environment (Σ : Type) := {
  API_KEY : option string;                       (* process.env.API_KEY *)
  svc_generateVideos : VideoRequest -> Σ -> Settled Operation * Σ;
  svc_getVideosOperation : Operation -> Σ -> Settled Operation * Σ;
  svc_generateContent : ContentRequest -> Σ -> Settled ContentResponse * Σ;
  loadImage : string -> Σ -> Settled string * Σ;
  typeErrorMessage : TypeErrorCause -> string
}.

Record World (Σ : Type) := { service : Σ; log : list Event }.
Arguments service {Σ} _.
Arguments log {Σ} _.

(** An [async] function: its local state between two [await]s and the
    code that runs from one [await] to the next.  [start] is the state
    before the call; calling the function resumes it from there, which
    runs it up to its first [await]. *)
Record Async (Σ T : Type) := {
  Frame : Type;
  start : Frame;
  resume : Frame -> World Σ -> Step Frame T * World Σ
}.
Arguments Frame {Σ T} _.
Arguments start {Σ T} _.
Arguments resume {Σ T} _ _ _.

Record RetryFrame (F : Type) := {
  attempt : Z;          (* i *)
  lastError : Thrown;
  inner : F             (* the running call of operation() *)
}.
Arguments attempt {F} _.
Arguments lastError {F} _.
Arguments inner {F} _.

Record Compatible := {
  compat_data : string;
  compat_mimeType : string;
  fullDataUri : string
}.

Record ImageOptions := {
  image_aspectRatio : option string;
  image_resolution : option string;
  image_count : option Z
}.

Inductive VideoGenerationMode :=
| DEFAULT | CONTINUE | CUT | FIRST_LAST_FRAME | CHARACTER_REF.

Record VideoOptions := {
  aspectRatio : option string;
  count : option Z;
  generationMode : option VideoGenerationMode;
  resolution : option string
}.

(** What [generateVideo] resolves with. *)
Record VideoResult := {
  result_uri : option string;          (* uri; undefined when missing *)
  isFallbackImage : option bool;
  videoMetadata : option Video;
  uris : option (list string)
}.

(** The state of the fan-out: the promise of every branch, and the
    bookkeeping of [Promise.allSettled] (the result array, filled by index
    as branches settle, and the number of branches still awaited).
    [settle_order] records the order of completion. *)
Record Pool (Σ F T : Type) := {
  pool_world : World Σ;
  promises : list (Step F T);
  values : list (option (Settled T));
  remaining : nat;
  settle_order : list nat
}.
Arguments pool_world {Σ F T} _.
Arguments promises {Σ F T} _.
Arguments values {Σ F T} _.
Arguments remaining {Σ F T} _.
Arguments settle_order {Σ F T} _.

(** Where the closure handed to [retryWithBackoff] stands: before its
    first statement, or at one of its three [await]s.  A call is issued
    when the code reaches it; its answer is held by the promise the code
    awaits until the event loop resumes the code with it. *)
Inductive VideoFrame :=
| Submit                                  (* not started *)
| Submitted (answer : Settled Operation)  (* await ai.models.generateVideos(...) *)
| Polling (op : Operation)                (* await wait(5000) *)
| Polled (answer : Settled Operation).    (* await ai.operations.getVideosOperation(...) *)

(** The local variables of [generateVideo] when it enters the [try]. *)
Record Prepared := {
  enhancedPrompt : string;
  inputs : VideoRequest;
  finalInputImageBase64 : option string;
  branches : nat
}.

(** The outcome of a promise, once it has one. *)
Definition settled_of {F T} (s : Step F T) : option (Settled T) :=
  match s with
  | Running _ => None
  | Finished r => Some r
  end.

Definition is_running {F T} (s : Step F T) : bool :=
  match s with
  | Running _ => true
  | Finished _ => false
  end.

(** The number of branches that have not settled. *)
Fixpoint pending {F T} (ps : list (Step F T)) : nat :=
  match ps with
  | [] => 0
  | s :: ps' => ((if is_running s then 1 else 0) + pending ps')%nat
  end.

(** The indices, from [i] on, of the promises that have settled. *)
Fixpoint settled_indices {F T} (i : nat) (ps : list (Step F T)) : list nat :=
  match ps with
  | [] => []
  | Running _ :: ps' => settled_indices (S i) ps'
  | Finished _ :: ps' => i :: settled_indices (S i) ps'
  end.

Section Orchestration.

Context {Σ : Type} `{Environment Σ}.

Definition record (ev : Event) (w : World Σ) : World Σ :=
  {| service := service w; log := log w ++ [ev] |}.

(** [await wait(ms)] *)
Definition wait (ms : Z) (w : World Σ) : World Σ := record (EvWait ms) w.

(** A remote call: logged, then answered by the environment. *)
Definition call {A R} (ev : A -> Event) (f : A -> Σ -> Settled R * Σ) (a : A)
    (w : World Σ) : Settled R * World Σ :=
  let (r, σ) := f a (service w) in
  (r, {| service := σ; log := log w ++ [ev a] |}).

(** Awaiting an asynchronous function from sequential code: resume it
    until it settles.  [None]: not settled within [fuel] resumptions. *)
Fixpoint await_from {T} (a : Async Σ T) (fuel : nat) (f : Frame a) (w : World Σ)
  : option (Settled T * World Σ) :=
  match fuel with
  | O => None
  | S fuel' =>
      match resume a f w with
      | (Finished r, w') => Some (r, w')
      | (Running f', w') => await_from a fuel' f' w'
      end
  end.

Definition await {T} (a : Async Σ T) (fuel : nat) (w : World Σ) :=
  await_from a fuel (start a) w.

(** ** Backoff executor *)

(** The [TypeError] the engine raises: an [Error] with the engine's
    message. *)
Definition typeError (cause : TypeErrorCause) : Thrown :=
  newError (typeErrorMessage cause).

Definition retry_resume {T} (operation : Async Σ T) (maxRetries baseDelay : Z)
    (f : RetryFrame (Frame operation)) (w : World Σ)
  : Step (RetryFrame (Frame operation)) T * World Σ :=
  let i := attempt f in
  if i <? maxRetries then
    match resume operation (inner f) w with
    | (Running f', w') =>
        (Running {| attempt := i; lastError := lastError f; inner := f' |}, w')
    | (Finished (Fulfilled v), w') => (Finished (Fulfilled v), w')
    | (Finished (Rejected error), w') =>
        match isOverloaded error with
        | Raises cause => (Finished (Rejected (typeError cause)), w')
        | Says overloaded =>
            if overloaded && (i <? maxRetries - 1) then
              let delay := baseDelay * 2 ^ i in
              (Running {| attempt := i + 1; lastError := error;
                          inner := start operation |},
               wait delay w')
            else (Finished (Rejected error), w')
        end
    end
  else (Finished (Rejected (lastError f)), w).

Definition retryWithBackoff {T} (operation : Async Σ T)
    (maxRetries baseDelay : Z) : Async Σ T :=
  {| Frame := RetryFrame (Frame operation);
     start := {| attempt := 0; lastError := Undefined; inner := start operation |};
     resume := retry_resume operation maxRetries baseDelay |}.

(** ** Client *)

Definition getClient : Settled unit :=
  match nonempty API_KEY with
  | Some _ => Fulfilled tt
  | None =>
      Rejected (newError
        "API Key is missing. Please select a paid API key via the Google AI Studio button.")
  end.

(** ** Format normaliser *)

Definition supported_envelope (base64Str : string) : bool :=
  startsWith base64Str "data:image/png;base64,"
  || startsWith base64Str "data:image/jpeg;base64,"
  || startsWith base64Str "data:image/jpg;base64,".

Definition convertImageToCompatibleFormat (base64Str : string) (w : World Σ)
  : Settled Compatible * World Σ :=
  if supported_envelope base64Str then
    let mimeType := mime_or "image" is_alpha_plus "image/png" base64Str in
    let data := strip_envelope "image" is_alpha_plus base64Str in
    (Fulfilled {| compat_data := data; compat_mimeType := mimeType;
                  fullDataUri := base64Str |}, w)
  else
    match call EvLoadImage loadImage base64Str w with
    | (Rejected e, w') => (Rejected e, w')
    | (Fulfilled body, w') =>
        let pngDataUrl := "data:" +:+ body in
        let data :=
          match strip_prefix "data:image/png;base64," pngDataUrl with
          | Some d => d
          | None => pngDataUrl
          end in
        (Fulfilled {| compat_data := data; compat_mimeType := "image/png";
                      fullDataUri := pngDataUrl |}, w')
    end.

(** ** Image generation *)

Definition input_part (base64 : string) : Part :=
  let cleanBase64 := strip_envelope "image" is_word base64 in
  let mimeType := mime_or "image" is_word "image/png" base64 in
  InlinePart {| data := cleanBase64; mimeType := mimeType |}.

(** The loop over [response.candidates[0].content.parts]. *)
Definition parse_images (response : ContentResponse) : list string :=
  match candidate_parts response with
  | None => []
  | Some parts =>
      fold_left
        (fun images part =>
           match resp_inlineData part with
           | Some inline =>
               match nonempty (resp_data inline) with
               | Some d =>
                   let mime := default "image/png" (nonempty (resp_mimeType inline)) in
                   images ++ ["data:" +:+ mime +:+ ";base64," +:+ d]
               | None => images
               end
           | None => images
           end)
        parts []
  end.

Definition generateImageFromText (prompt model : string) (inputImages : list string)
    (options : ImageOptions) (w : World Σ) : Settled (list string) * World Σ :=
  match getClient with
  | Rejected e => (Rejected e, w)
  | Fulfilled _ =>
      let count :=
        match image_count options with
        | Some 0 | None => 1
        | Some n => n
        end in
      let effectiveModel :=
        if includes model "imagen" then "imagen-3.0-generate-002"
        else "gemini-2.5-flash-image" in
      let parts := map input_part inputImages ++ [TextPart prompt] in
      match call EvGenerateContent svc_generateContent
              {| content_model := effectiveModel; content_parts := parts |} w with
      | (Rejected e, w') => (Rejected (newError (toText (getErrorMessage e))), w')
      | (Fulfilled response, w') =>
          let images := parse_images response in
          match images with
          | [] =>
              (Rejected (newError (toText (getErrorMessage (newError
                 "No images generated. Safety filter might have been triggered.")))),
               w')
          | _ => (Fulfilled images, w')
          end
      end
  end.

(** ** Fan-out: one video job *)

(** The closure handed to [retryWithBackoff]: submit the job, then poll
    it every 5 s until it is done.  [after_response] is the code that
    runs when an awaited answer arrives: it returns, throws, or starts the
    5 s timer. *)
Definition after_response (r : Settled Operation) (w : World Σ)
  : Step VideoFrame Operation * World Σ :=
  match r with
  | Rejected e => (Finished (Rejected e), w)
  | Fulfilled op =>
      if done op then (Finished (Fulfilled op), w)
      else (Running (Polling op), wait 5000 w)
  end.

Definition videoOperation (request : VideoRequest) : Async Σ Operation :=
  {| Frame := VideoFrame;
     start := Submit;
     resume f w :=
       match f with
       | Submit =>
           let (r, w') := call EvGenerateVideos svc_generateVideos request w in
           (Running (Submitted r), w')
       | Polling op =>
           let (r, w') := call EvGetVideosOperation svc_getVideosOperation op w in
           (Running (Polled r), w')
       | Submitted r | Polled r => after_response r w
       end |}.

(** ** Fan-out: [Promise.allSettled] *)

(** Calling [n] times the asynchronous function [a], as the [for] loop
    of [generateVideo] does: each call runs the function up to its first
    [await] before the next call is made. *)
Fixpoint spawn_all {T} (a : Async Σ T) (n : nat) (w : World Σ)
  : list (Step (Frame a) T) * World Σ :=
  match n with
  | O => ([], w)
  | S n' =>
      let (s, w1) := resume a (start a) w in
      let (ss, w2) := spawn_all a n' w1 in
      (s :: ss, w2)
  end.

(** The [n] promises and [Promise.allSettled] over them.  A promise that
    is settled already has its outcome stored before anything else
    happens. *)
Definition pool_init {T} (a : Async Σ T) (n : nat) (w : World Σ)
  : Pool Σ (Frame a) T :=
  let (ps, w') := spawn_all a n w in
  {| pool_world := w';
     promises := ps;
     values := map settled_of ps;
     remaining := pending ps;
     settle_order := settled_indices 0 ps |}.

(** The event loop resumes branch [b].  When the branch settles, the
    reaction of [allSettled] stores the outcome at index [b]. *)
Definition pool_step {T} (a : Async Σ T) (b : nat) (p : Pool Σ (Frame a) T)
  : Pool Σ (Frame a) T :=
  match promises p !! b with
  | Some (Running f) =>
      match resume a f (pool_world p) with
      | (Running f', w') =>
          {| pool_world := w';
             promises := <[b := Running f']> (promises p);
             values := values p;
             remaining := remaining p;
             settle_order := settle_order p |}
      | (Finished r, w') =>
          {| pool_world := w';
             promises := <[b := Finished r]> (promises p);
             values := <[b := Some r]> (values p);
             remaining := pred (remaining p);
             settle_order := settle_order p ++ [b] |}
      end
  | _ => p
  end.

Definition pool_run {T} (a : Async Σ T) (schedule : list nat)
    (p : Pool Σ (Frame a) T) : Pool Σ (Frame a) T :=
  fold_left (fun p b => pool_step a b p) schedule p.

Fixpoint filled {A} (slots : list (option A)) : option (list A) :=
  match slots with
  | [] => Some []
  | None :: _ => None
  | Some x :: slots' =>
      match filled slots' with
      | Some xs => Some (x :: xs)
      | None => None
      end
  end.

(** What [await Promise.allSettled(operations)] resumes with, once no
    branch is awaited any more. *)
Definition allSettled {F T} (p : Pool Σ F T) : option (list (Settled T)) :=
  if (remaining p =? 0)%nat then filled (values p) else None.

(** ** Video generation *)

Definition qualitySuffix : string :=
  ", cinematic lighting, highly detailed, photorealistic, 4k, smooth motion, professional color grading".

Fixpoint convertReferences (referenceImages : list string) (w : World Σ)
  : Settled (list ReferenceImage) * World Σ :=
  match referenceImages with
  | [] => (Fulfilled [], w)
  | ref :: rest =>
      match convertImageToCompatibleFormat ref w with
      | (Rejected e, w') => (Rejected e, w')
      | (Fulfilled c, w') =>
          match convertReferences rest w' with
          | (Rejected e, w'') => (Rejected e, w'')
          | (Fulfilled refsPayload, w'') =>
              (Fulfilled
                 ({| ref_image := {| imageBytes := compat_data c;
                                     image_mimeType := compat_mimeType c |};
                     referenceType := "ASSET" |} :: refsPayload), w'')
          end
      end
  end.

(** "1. Handle Input Image": the image of the request and the data URI
    kept for the fallback.  A failed conversion is only logged. *)
Definition prepareImage (inputImageBase64 : option string) (w : World Σ)
  : option ImageInput * option string * World Σ :=
  match nonempty inputImageBase64 with
  | Some src =>
      match convertImageToCompatibleFormat src w with
      | (Fulfilled compat, w') =>
          (Some {| imageBytes := compat_data compat;
                   image_mimeType := compat_mimeType compat |},
           Some (fullDataUri compat), w')
      | (Rejected _, w') => (None, None, w')
      end
  | None => (None, None, w)
  end.

(** "3. Handle Reference Images": [config.referenceImages]; a failed
    conversion here is not caught. *)
Definition prepareReferences (model : string)
    (referenceImages : option (list string)) (w : World Σ)
  : Settled (option (list ReferenceImage)) * World Σ :=
  match referenceImages with
  | Some (ref :: rest) =>
      if String.eqb model "veo-3.1-generate-preview" then
        match convertReferences (ref :: rest) w with
        | (Rejected e, w') => (Rejected e, w')
        | (Fulfilled refsPayload, w') => (Fulfilled (Some refsPayload), w')
        end
      else (Fulfilled None, w)
  | _ => (Fulfilled None, w)
  end.

(** [generateVideo] up to the [try]. *)
Definition prepare (prompt model : string) (options : VideoOptions)
    (inputImageBase64 : option string) (videoInput : option Video)
    (referenceImages : option (list string)) (w : World Σ)
  : Settled Prepared * World Σ :=
  match getClient with
  | Rejected e => (Rejected e, w)
  | Fulfilled _ =>
      let enhancedPrompt := prompt +:+ qualitySuffix in
      let resolution :=
        match nonempty (resolution options) with
        | Some r => r
        | None => if includes model "pro" then "1080p" else "720p"
        end in
      let '(image, finalInputImageBase64, w1) := prepareImage inputImageBase64 w in
      match prepareReferences model referenceImages w1 with
      | (Rejected e, w2) => (Rejected e, w2)
      | (Fulfilled referenceImagesConfig, w2) =>
          let config :=
            {| numberOfVideos := 1;
               config_aspectRatio := default "16:9" (nonempty (aspectRatio options));
               config_resolution := resolution;
               referenceImagesConfig := referenceImagesConfig |} in
          let count :=
            match count options with
            | Some 0 | None => 1
            | Some n => n
            end in
          (Fulfilled
             {| enhancedPrompt := enhancedPrompt;
                inputs := {| video_model := model;
                             video_prompt := enhancedPrompt;
                             video_image := image;
                             video_video := videoInput;
                             video_config := config |};
                finalInputImageBase64 := finalInputImageBase64;
                branches := Z.to_nat count |}, w2)
      end
  end.

(** [`${process.env.API_KEY}`] *)
Definition api_key_text : string := default "undefined" API_KEY.

(** The loop over the settled results. *)
Definition collect (results : list (Settled Operation))
  : list string * option Video :=
  fold_left
    (fun '(validUris, primaryMetadata) res =>
       match res with
       | Fulfilled value =>
           match generated_video value with
           | Some vid =>
               match nonempty (uri vid) with
               | Some u =>
                   let fullUri := u +:+ "&key=" +:+ api_key_text in
                   (validUris ++ [fullUri],
                    match primaryMetadata with
                    | None => Some vid
                    | Some _ => primaryMetadata
                    end)
               | None => (validUris, primaryMetadata)
               end
           | None => (validUris, primaryMetadata)
           end
       | Rejected _ => (validUris, primaryMetadata)
       end)
    results ([], None).

(** [results.find(r => r.status === 'rejected')?.reason] *)
Fixpoint firstError (results : list (Settled Operation)) : option Thrown :=
  match results with
  | [] => None
  | Rejected reason :: _ => Some reason
  | Fulfilled _ :: results' => firstError results'
  end.

Definition truthy (e : Thrown) : bool :=
  match e with
  | Undefined | Null | Falsy => false
  | Str EmptyString => false
  | _ => true
  end.

(** The [try] block after the fan-out has settled. *)
Definition try_block (results : list (Settled Operation)) : Settled VideoResult :=
  let '(validUris, primaryMetadata) := collect results in
  match validUris with
  | [] =>
      match firstError results with
      | Some reason =>
          if truthy reason then Rejected reason
          else Rejected (newError "Video generation failed (No valid URIs).")
      | None => Rejected (newError "Video generation failed (No valid URIs).")
      end
  | _ =>
      Fulfilled {| result_uri := head validUris;
                   uris := Some validUris;
                   videoMetadata := primaryMetadata;
                   isFallbackImage := Some false |}
  end.

Definition fallbackPrompt (p : Prepared) : string :=
  "Cinematic movie still, " +:+ enhancedPrompt p.

Definition fallbackImages (p : Prepared) : list string :=
  match nonempty (finalInputImageBase64 p) with
  | Some image => [image]
  | None => []
  end.

(** The [catch] block: the image fallback. *)
Definition fallback (p : Prepared) (options : VideoOptions) (e : Thrown)
    (w : World Σ) : Settled VideoResult * World Σ :=
  match generateImageFromText (fallbackPrompt p) "gemini-2.5-flash-image"
          (fallbackImages p)
          {| image_aspectRatio := aspectRatio options;
             image_resolution := None; image_count := None |} w with
  | (Fulfilled imgs, w') =>
      (Fulfilled {| result_uri := head imgs; isFallbackImage := Some true;
                    videoMetadata := None; uris := None |}, w')
  | (Rejected imgErr, w') =>
      (Rejected (newError
         ("Video generation failed and Image fallback also failed: "
          +:+ toText (getErrorMessage e))), w')
  end.

Definition videoBranch (request : VideoRequest) : Async Σ Operation :=
  retryWithBackoff (videoOperation request) 3 2000.

Definition fanOut (p : Prepared) (schedule : list nat) (w : World Σ)
  : Pool Σ (RetryFrame VideoFrame) Operation :=
  pool_run (videoBranch (inputs p)) schedule
    (pool_init (videoBranch (inputs p)) (branches p) w).

(** [schedule] is the order in which the event loop resumes the
    branches.  [None]: some branch has not settled at the end of the
    schedule, so the call is still pending. *)
Definition generateVideo (prompt model : string) (options : VideoOptions)
    (inputImageBase64 : option string) (videoInput : option Video)
    (referenceImages : option (list string))
    (schedule : list nat) (w : World Σ)
  : option (Settled VideoResult * World Σ) :=
  match prepare prompt model options inputImageBase64 videoInput
          referenceImages w with
  | (Rejected e, w1) => Some (Rejected e, w1)
  | (Fulfilled p, w1) =>
      let pool := fanOut p schedule w1 in
      match allSettled pool with
      | None => None
      | Some results =>
          match try_block results with
          | Fulfilled result => Some (Fulfilled result, pool_world pool)
          | Rejected e => Some (fallback p options e (pool_world pool))
          end
      end
  end.

(** ** Analysis and transcription *)

Definition analyzeVideo (videoBase64OrUrl prompt model : string) (w : World Σ)
  : Settled string * World Σ :=
  match getClient with
  | Rejected e => (Rejected e, w)
  | Fulfilled _ =>
      if startsWith videoBase64OrUrl "data:" then
        let mime := mime_or "video" is_word "video/mp4" videoBase64OrUrl in
        let data := strip_envelope "video" is_word videoBase64OrUrl in
        match call EvGenerateContent svc_generateContent
                {| content_model := model;
                   content_parts :=
                     [InlinePart {| data := data; mimeType := mime |};
                      TextPart prompt] |} w with
        | (Rejected e, w') => (Rejected e, w')
        | (Fulfilled response, w') =>
            (Fulfilled (default "Analysis failed" (nonempty (response_text response))), w')
        end
      else
        (Rejected (newError
           "Direct URL analysis not implemented in this demo. Please use uploaded videos."),
         w)
  end.

Definition transcribeAudio (audioBase64 : string) (w : World Σ)
  : Settled string * World Σ :=
  match getClient with
  | Rejected e => (Rejected e, w)
  | Fulfilled _ =>
      let mime := mime_or "audio" is_word "audio/wav" audioBase64 in
      let data := strip_envelope "audio" is_word audioBase64 in
      match call EvGenerateContent svc_generateContent
              {| content_model := "gemini-2.5-flash";
                 content_parts :=
                   [InlinePart {| data := data; mimeType := mime |};
                    TextPart "Transcribe this audio strictly verbatim."] |} w with
      | (Rejected e, w') => (Rejected e, w')
      | (Fulfilled response, w') =>
          (Fulfilled (default "" (nonempty (response_text response))), w')
      end
  end.

End Orchestration.

(** ** A scripted environment

    For the examples: every call takes the next scripted answer of its
    kind; when a script is exhausted a call of the service is rejected with
    a 500 and an image fails to load. *)

Record Script := {
  script_videos : list (Settled Operation);
  script_polls : list (Settled Operation);
  script_contents : list (Settled ContentResponse);
  script_images : list (Settled string)
}.

Definition serverError : Thrown :=
  Obj {| err_status := Some 500; err_code := None;
         err_message := Some (Text "Internal error"); err_inner := None;
         err_json := "{}" |}.

(** What [img.onerror] hands to [reject]: an [Event], which has no
    status, code or message. *)
Definition loadFailure : Thrown :=
  Obj {| err_status := None; err_code := None; err_message := None;
         err_inner := None;
         err_json := "{" +:+ quoted "isTrusted" +:+ ":true}" |}.

Definition overloadError : Thrown :=
  Obj {| err_status := Some 503; err_code := None;
         err_message := Some (Text "The model is overloaded."); err_inner := None;
         err_json := "{}" |}.

Definition next {A} (l : list (Settled A)) : Settled A * list (Settled A) :=
  match l with
  | [] => (Rejected serverError, [])
  | r :: l' => (r, l')
  end.

(** The texts of one engine (V8). *)
Definition v8Message (cause : TypeErrorCause) : string :=
  match cause with
  | ToLowerCaseOfOther => "getErrorMessage(...).toLowerCase is not a function"
  | StatusOfUndefined => "Cannot read properties of undefined (reading 'status')"
  | StatusOfNull => "Cannot read properties of null (reading 'status')"
  end.

Definition scripted (key : option string) : Environment Script :=
  {| API_KEY := key;
     typeErrorMessage := v8Message;
     svc_generateVideos _ s :=
       let (r, l) := next (script_videos s) in
       (r, {| script_videos := l; script_polls := script_polls s;
              script_contents := script_contents s;
              script_images := script_images s |});
     svc_getVideosOperation _ s :=
       let (r, l) := next (script_polls s) in
       (r, {| script_videos := script_videos s; script_polls := l;
              script_contents := script_contents s;
              script_images := script_images s |});
     svc_generateContent _ s :=
       let (r, l) := next (script_contents s) in
       (r, {| script_videos := script_videos s; script_polls := script_polls s;
              script_contents := l; script_images := script_images s |});
     loadImage _ s :=
       match script_images s with
       | [] => (Rejected loadFailure, s)
       | r :: l =>
           (r, {| script_videos := script_videos s; script_polls := script_polls s;
                  script_contents := script_contents s; script_images := l |})
       end |}.

Definition world0 (s : Script) : World Script := {| service := s; log := [] |}.

Definition finishedVideo (name u : string) : Operation :=
  {| op_name := name; done := true;
     generated_video := Some {| uri := Some u; video_mimeType := Some "video/mp4" |} |}.

Definition pendingVideo (name : string) : Operation :=
  {| op_name := name; done := false; generated_video := None |}.

Definition imageResponse (payload : string) : ContentResponse :=
  {| candidate_parts :=
       Some [ {| resp_inlineData :=
                   Some {| resp_data := Some payload;
                           resp_mimeType := Some "image/png" |} |} ];
     response_text := None |}.

Definition noOptions : VideoOptions :=
  {| aspectRatio := None; count := None; generationMode := None;
     resolution := None |}.

Definition withCount (k : Z) : VideoOptions :=
  {| aspectRatio := None; count := Some k; generationMode := None;
     resolution := None |}.

(** ** Example runs *)

Definition demoEnv : Environment Script := scripted (Some "KEY").

Definition demoImage : string := "data:image/png;base64,AAAA".

Definition demoVideo (s : Script) (k : Z) (schedule : list nat) :=
  @generateVideo Script demoEnv "a cat" "veo-3" (withCount k)
    (Some demoImage) None None schedule (world0 s).

Definition demoPrepare (s : Script) (k : Z) :=
  @prepare Script demoEnv "a cat" "veo-3" (withCount k)
    (Some demoImage) None None (world0 s).

Definition demoRequest : VideoRequest :=
  {| video_model := "veo-3";
     video_prompt := "a cat" +:+ qualitySuffix;
     video_image := Some {| imageBytes := "AAAA"; image_mimeType := "image/png" |};
     video_video := None;
     video_config :=
       {| numberOfVideos := 1; config_aspectRatio := "16:9";
          config_resolution := "720p"; referenceImagesConfig := None |} |}.

Definition demoPrepared (k : nat) : Prepared :=
  {| enhancedPrompt := "a cat" +:+ qualitySuffix;
     inputs := demoRequest;
     finalInputImageBase64 := Some demoImage;
     branches := k |}.

(** Branch 0 fails with a 500, branch 1 succeeds. *)
Definition twoBranches : Script :=
  {| script_videos := [Rejected serverError;
                       Fulfilled (finishedVideo "op1" "https://v/1?alt=media")];
     script_polls := []; script_contents := []; script_images := [] |}.

(** Every video call is answered 503; the image call succeeds. *)
Definition allOverloaded : Script :=
  {| script_videos := [Rejected overloadError; Rejected overloadError;
                       Rejected overloadError; Rejected overloadError];
     script_polls := [];
     script_contents := [Fulfilled (imageResponse "QUJD")];
     script_images := [] |}.

(** The video call and the image call both fail. *)
Definition allFail : Script :=
  {| script_videos := [Rejected serverError];
     script_polls := []; script_contents := []; script_images := [] |}.

(** Three jobs, answered in the order the calls arrive. *)
Definition threeVideos : Script :=
  {| script_videos := [Fulfilled (finishedVideo "first" "https://v/first?alt=media");
                       Fulfilled (finishedVideo "second" "https://v/second?alt=media");
                       Fulfilled (finishedVideo "third" "https://v/third?alt=media")];
     script_polls := []; script_contents := []; script_images := [] |}.

Definition oneImage : Script :=
  {| script_videos := []; script_polls := [];
     script_contents := [Fulfilled (imageResponse "QUJD")];
     script_images := [] |}.

Definition transcript : Script :=
  {| script_videos := []; script_polls := [];
     script_contents :=
       [Fulfilled {| candidate_parts := None; response_text := Some "hello" |}];
     script_images := [] |}.

Definition twoImagesWanted : ImageOptions :=
  {| image_aspectRatio := None; image_resolution := None; image_count := Some 2 |}.

(** A stand-in for the browser's base64 functions in the examples. *)
Definition plainAtob (s : string) : Settled string := Fulfilled s.
Definition plainBtoa (s : string) : string := s.

(** * Further functions of the service file *)

(** ** The rest of the SDK and of the browser

    [generateContent] with a [config], the chat interface, [fetch] and
    [FileReader], [JSON.parse] and the base64 functions.  The event log
    keeps recording the [generateContent] calls by their request; calls
    of the chat and fetch interfaces only go through the state of the
    environment. *)

(** The prompt constants of the file, by name. *)
Inductive Instruction :=
| SYSTEM_INSTRUCTION
| STORYBOARD_INSTRUCTION
| VIDEO_ORCHESTRATOR_INSTRUCTION
| HELP_ME_WRITE_INSTRUCTION.

Inductive Modality := AUDIO.

Record GenerationConfig := {
  config_systemInstruction : option Instruction;
  responseMimeType : option string;
  responseModalities : list Modality;
  voiceName : option string       (* speechConfig.voiceConfig.prebuiltVoiceConfig *)
}.

Inductive ChatRole := user | model.

Record ChatTurn := { role : ChatRole; turn_parts : list string }.

Record ChatRequest := {
  chat_model : string;
  chat_systemInstruction : Instruction;
  chat_history : list ChatTurn;
  chat_message : string
}.

Record FetchResponse := { response_status : Z }.

Record Blob := { blob_type : string; blob_bytes : list byte }.

Class Studio (Σ : Type) := {
  studio_environment :: Environment Σ;
  svc_generateContentConfig :
    GenerationConfig -> ContentRequest -> Σ -> Settled ContentResponse * Σ;
  svc_sendMessage : ChatRequest -> Σ -> Settled ContentResponse * Σ;
  fetch : string -> Σ -> Settled FetchResponse * Σ;        (* fetch(url) *)
  response_blob : FetchResponse -> Σ -> Settled Blob * Σ;  (* response.blob() *)
  readAsDataURL : Blob -> Σ -> Settled string * Σ;  (* FileReader *)
  JSON_parse : string -> Settled (list string);
  atob : string -> Settled string;
  btoa : string -> string
}.

Record ChatOptions := {
  isThinkingMode : bool;
  isStoryboard : bool;
  isHelpMeWrite : bool
}.

Record AudioOptions := {
  persona_label : option string    (* options?.persona?.label *)
}.

(** An item of a frame sequence; [transition] may be missing. *)
Record Transition := { duration : Z; transition_prompt : string }.
Record SequenceFrame := { transition : option Transition }.

(** [l.join(sep)] *)
Fixpoint join (sep : string) (l : list string) : string :=
  match l with
  | [] => EmptyString
  | [x] => x
  | x :: l' => x +:+ sep +:+ join sep l'
  end.

Definition frameLabel (f : SequenceFrame) : string :=
  match transition f with
  | Some t => default "scene" (nonempty (Some (transition_prompt t)))
  | None => "scene"
  end.

Definition compileMultiFramePrompt (frames : list SequenceFrame) : string :=
  "A sequence showing: " +:+ join " transitioning to " (map frameLabel frames).

(** [.] of a regular expression: any code unit but a line terminator. *)
Definition is_line_terminator (c : ascii) : bool :=
  (nat_of_ascii c =? 10)%nat || (nat_of_ascii c =? 13)%nat.

(** What follows the match of the greedy [.*;base64,] at the start of
    [s]: the text after the last [;base64,] that can be reached without
    crossing a line terminator. *)
Fixpoint after_last_marker (s : string) : option string :=
  match s with
  | EmptyString => None
  | String c s' =>
      match (if is_line_terminator c then None else after_last_marker s') with
      | Some rest => Some rest
      | None => strip_prefix ";base64," s
      end
  end.

(** [img.replace(/^data:.*;base64,/, "")] *)
Definition strip_any_envelope (img : string) : string :=
  match strip_prefix "data:" img with
  | Some r =>
      match after_last_marker r with
      | Some payload => payload
      | None => img
      end
  | None => img
  end.

Definition newline : string := String (ascii_of_nat 10) EmptyString.

Section Studio.

Context {Σ : Type} `{Studio Σ}.

(** A call of an interface that the event log does not record. *)
Definition ask {A R} (f : A -> Σ -> Settled R * Σ) (a : A) (w : World Σ)
  : Settled R * World Σ :=
  let (r, σ) := f a (service w) in
  (r, {| service := σ; log := log w |}).

(** [ai.models.generateContent] with a [config]. *)
Definition generateContentWith (config : GenerationConfig) (request : ContentRequest)
    (w : World Σ) : Settled ContentResponse * World Σ :=
  call EvGenerateContent (svc_generateContentConfig config) request w.

Definition urlToBase64 (url : string) (w : World Σ) : Settled string * World Σ :=
  match ask fetch url w with
  | (Rejected _, w1) => (Fulfilled EmptyString, w1)
  | (Fulfilled response, w1) =>
      match ask response_blob response w1 with
      | (Rejected _, w2) => (Fulfilled EmptyString, w2)
      | (Fulfilled blob, w2) => ask readAsDataURL blob w2
      end
  end.

Definition sendChatMessage (history : list ChatTurn) (newMessage : string)
    (options : option ChatOptions) (w : World Σ) : Settled string * World Σ :=
  match getClient with
  | Rejected e => (Rejected e, w)
  | Fulfilled _ =>
      let modelName := "gemini-2.5-flash" in
      let modelName :=
        if default false (isThinkingMode <$> options) then "gemini-2.5-flash"
        else modelName in
      let systemInstruction :=
        if default false (isStoryboard <$> options) then STORYBOARD_INSTRUCTION
        else if default false (isHelpMeWrite <$> options) then HELP_ME_WRITE_INSTRUCTION
        else SYSTEM_INSTRUCTION in
      match ask svc_sendMessage
              {| chat_model := modelName;
                 chat_systemInstruction := systemInstruction;
                 chat_history := history;
                 chat_message := newMessage |} w with
      | (Rejected e, w') => (Rejected e, w')
      | (Fulfilled result, w') =>
          (Fulfilled (default "No response" (nonempty (response_text result))), w')
      end
  end.

Definition editImageWithText (imageBase64 prompt model : string) (w : World Σ)
  : Settled (option string) * World Σ :=
  match generateImageFromText prompt model [imageBase64]
          {| image_aspectRatio := None; image_resolution := None;
             image_count := Some 1 |} w with
  | (Rejected e, w') => (Rejected e, w')
  | (Fulfilled imgs, w') => (Fulfilled (head imgs), w')
  end.

Definition planStoryboard (prompt context : string) (w : World Σ)
  : Settled (list string) * World Σ :=
  match getClient with
  | Rejected e => (Rejected e, w)
  | Fulfilled _ =>
      match generateContentWith
              {| config_systemInstruction := Some STORYBOARD_INSTRUCTION;
                 responseMimeType := Some "application/json";
                 responseModalities := []; voiceName := None |}
              {| content_model := "gemini-2.5-flash";
                 content_parts :=
                   [TextPart ("Context: " +:+ context +:+ newline +:+ newline
                              +:+ "User Idea: " +:+ prompt)] |} w with
      | (Rejected e, w') => (Rejected e, w')
      | (Fulfilled response, w') =>
          match JSON_parse (default "[]" (nonempty (response_text response))) with
          | Fulfilled shots => (Fulfilled shots, w')
          | Rejected _ => (Fulfilled [], w')
          end
      end
  end.

Definition orchestrateVideoPrompt (images : list string) (userPrompt : string)
    (w : World Σ) : Settled string * World Σ :=
  match getClient with
  | Rejected e => (Rejected e, w)
  | Fulfilled _ =>
      let parts :=
        map (fun img => InlinePart {| data := strip_any_envelope img;
                                      mimeType := "image/png" |}) images in
      let parts :=
        parts ++ [TextPart ("Create a single video prompt that transitions between these images. User Intent: "
                            +:+ userPrompt)] in
      match generateContentWith
              {| config_systemInstruction := Some VIDEO_ORCHESTRATOR_INSTRUCTION;
                 responseMimeType := None;
                 responseModalities := []; voiceName := None |}
              {| content_model := "gemini-2.5-flash"; content_parts := parts |} w with
      | (Rejected e, w') => (Rejected e, w')
      | (Fulfilled response, w') =>
          (Fulfilled (default userPrompt (nonempty (response_text response))), w')
      end
  end.

(** [response.candidates?.[0]?.content?.parts?.[0]?.inlineData?.data] *)
Definition firstInlineData (response : ContentResponse) : option string :=
  match candidate_parts response with
  | Some (part :: _) =>
      match resp_inlineData part with
      | Some inline => resp_data inline
      | None => None
      end
  | _ => None
  end.

Definition generateAudio (prompt : string) (referenceAudio : option string)
    (options : option AudioOptions) (w : World Σ) : Settled string * World Σ :=
  match getClient with
  | Rejected e => (Rejected e, w)
  | Fulfilled _ =>
      let parts :=
        [TextPart prompt] ++
        match nonempty referenceAudio with
        | Some reference =>
            let mime := mime_or "audio" is_word "audio/wav" reference in
            let data := strip_envelope "audio" is_word reference in
            [InlinePart {| data := data; mimeType := mime |}]
        | None => []
        end in
      let voiceName :=
        match options with
        | Some o =>
            match persona_label o with
            | Some label => if String.eqb label "Deep Narrative" then "Kore" else "Puck"
            | None => "Puck"
            end
        | None => "Puck"
        end in
      match generateContentWith
              {| config_systemInstruction := None; responseMimeType := None;
                 responseModalities := [AUDIO]; voiceName := Some voiceName |}
              {| content_model := "gemini-2.5-flash-preview-tts";
                 content_parts := parts |} w with
      | (Rejected e, w') => (Rejected e, w')
      | (Fulfilled response, w') =>
          match nonempty (firstInlineData response) with
          | None => (Rejected (newError "Audio generation failed"), w')
          | Some audioData => (pcmToWav atob btoa audioData 24000, w')
          end
      end
  end.

End Studio.

(** * Thumbnail reordering of the node component

    [InputThumbnails]: the drop handler ([handleGlobalMouseUp]) and the
    shift of the other thumbnails while one is dragged.  Pointer
    coordinates are whole pixels. *)

Record InputAsset := { asset_id : string; asset_src : string }.

Definition THUMB_WIDTH : Z := 48.
Definition GAP : Z := 6.
Definition ITEM_FULL_WIDTH : Z := THUMB_WIDTH + GAP.

(** [Math.round(offset / ITEM_FULL_WIDTH)]: the nearest integer, halves
    upwards. *)
Definition moveSlots_of (offset : Z) : Z :=
  (2 * offset + ITEM_FULL_WIDTH) / (2 * ITEM_FULL_WIDTH).

(** [assets.findIndex(a => a.id === id)] *)
Fixpoint findIndex (id : string) (assets : list InputAsset) : Z :=
  match assets with
  | [] => -1
  | a :: assets' =>
      if String.eqb (asset_id a) id then 0
      else
        let i := findIndex id assets' in
        if i <? 0 then -1 else i + 1
  end.

(** Where [ids.splice(start, ...)] starts. *)
Definition spliceStart {A} (ids : list A) (start : Z) : nat :=
  let len := Z.of_nat (length ids) in
  Z.to_nat (if start <? 0 then Z.max (len + start) 0 else Z.min start len).

(** [ids.splice(start, 1)]: what is left and the removed element. *)
Definition spliceOut {A} (ids : list A) (start : Z) : list A * option A :=
  let s := spliceStart ids start in
  (take s ids ++ drop (S s) ids, ids !! s).

(** [ids.splice(start, 0, x)] *)
Definition spliceIn {A} (ids : list A) (start : Z) (x : A) : list A :=
  let s := spliceStart ids start in
  take s ids ++ x :: drop s ids.

Definition targetIndex (assets : list InputAsset) (currentIndex moveSlots : Z) : Z :=
  Z.max 0 (Z.min (Z.of_nat (length assets) - 1) (currentIndex + moveSlots)).

(** The drop: the new order handed to [onReorder], or [None] when the
    handler does not call it.  An entry is [None] where the code would
    insert [undefined]. *)
Definition dropOrder (originalAssets : list InputAsset) (draggingId : option string)
    (currentOffset : Z) : option (list (option string)) :=
  match nonempty draggingId with
  | None => None
  | Some draggingId =>
      let moveSlots := moveSlots_of currentOffset in
      let currentIndex := findIndex draggingId originalAssets in
      let newIndex := targetIndex originalAssets currentIndex moveSlots in
      if newIndex =? currentIndex then None
      else
        let newOrderIds := map (fun a => Some (asset_id a)) originalAssets in
        let '(newOrderIds, moved) := spliceOut newOrderIds currentIndex in
        Some (spliceIn newOrderIds newIndex (mjoin moved))
  end.

(** The horizontal shift of the thumbnail at [index] while [draggingId]
    is dragged by [dragOffset]. *)
Definition translateX (assets : list InputAsset) (draggingId : option string)
    (dragOffset : Z) (index : Z) (asset : InputAsset) : Z :=
  match draggingId with
  | None => 0
  | Some id =>
      if String.eqb (asset_id asset) id then dragOffset
      else
        match nonempty draggingId with
        | None => 0
        | Some _ =>
            let originalIndex := findIndex id assets in
            let draggingVirtualIndex :=
              targetIndex assets originalIndex (moveSlots_of dragOffset) in
            if (originalIndex <? index) && (index <=? draggingVirtualIndex)
            then - ITEM_FULL_WIDTH
            else if (index <? originalIndex) && (draggingVirtualIndex <=? index)
            then ITEM_FULL_WIDTH
            else 0
        end
  end.

(** ** A scripted studio

    For the examples: [generateContent] with a config and the chat take
    the next scripted content answer; [fetch] answers 200 and the body is
    the next scripted image string; [JSON.parse] knows two texts; the
    base64 functions are the identity. *)
Definition nextContent (s : Script) : Settled ContentResponse * Script :=
  let (r, l) := next (script_contents s) in
  (r, {| script_videos := script_videos s; script_polls := script_polls s;
         script_contents := l; script_images := script_images s |}).

Definition nextImage (s : Script) : Settled string * Script :=
  let (r, l) := next (script_images s) in
  (r, {| script_videos := script_videos s; script_polls := script_polls s;
         script_contents := script_contents s; script_images := l |}).

(** The stand-in for [JSON.parse] knows two texts, the empty array and the
    array of the one string [shot], and refuses every other. *)
Definition scriptedStudio (key : option string) : Studio Script :=
  {| studio_environment := scripted key;
     svc_generateContentConfig _ _ := nextContent;
     svc_sendMessage _ := nextContent;
     fetch _ s := (Fulfilled {| response_status := 200 |}, s);
     response_blob _ s :=
       match nextImage s with
       | (Fulfilled body, s') =>
           (Fulfilled {| blob_type := "image/png";
                         blob_bytes := list_byte_of_string body |}, s')
       | (Rejected e, s') => (Rejected e, s')
       end;
     readAsDataURL blob s :=
       (Fulfilled ("data:" +:+ blob_type blob +:+ ";base64,"
                   +:+ string_of_list_byte (blob_bytes blob)), s);
     JSON_parse text :=
       if String.eqb text "[]" then Fulfilled []
       else if String.eqb text ("[" +:+ quoted "shot" +:+ "]") then Fulfilled ["shot"]
       else Rejected (newError "Unexpected token");
     atob text := Fulfilled text;
     btoa text := text |}.

(** * Vocabulary of the statements *)

Definition supported_formats : list string := ["png"; "jpeg"; "jpg"].

Definition is_content_call (ev : Event) : bool :=
  match ev with
  | EvGenerateContent _ => true
  | _ => false
  end.

(** The number of image-generation ([generateContent]) calls in a log. *)
Definition contentCalls (l : list Event) : nat :=
  length (filter (fun ev => is_content_call ev = true) l).

(** The URI a settled branch contributes.  A branch is successful when
    its job was fulfilled with a non-empty video URI: these are the
    "successful URIs" the code collects, and with none of them it takes
    "ALL failed". *)
Definition branch_uri (res : Settled Operation) : option string :=
  match res with
  | Fulfilled op =>
      match generated_video op with
      | Some vid => nonempty (uri vid)
      | None => None
      end
  | Rejected _ => None
  end.

Definition branch_succeeded (res : Settled Operation) : Prop :=
  is_Some (branch_uri res).

(** The artifacts a result carries. *)
Definition artifacts (r : VideoResult) : list string :=
  match uris r with
  | Some l => l
  | None =>
      match result_uri r with
      | Some u => [u]
      | None => []
      end
  end.

Section Semantics.

Context {Σ : Type} `{Environment Σ}.

(** [Settles a f w r w']: resumed from frame [f] in world [w], the
    asynchronous function [a] settles with [r], leaving world [w']. *)
Inductive Settles {T} (a : Async Σ T)
  : Frame a -> World Σ -> Settled T -> World Σ -> Prop :=
| settles_now f w r w' :
    resume a f w = (Finished r, w') -> Settles a f w r w'
| settles_later f w f' w1 r w' :
    resume a f w = (Running f', w1) ->
    Settles a f' w1 r w' -> Settles a f w r w'.

(** The behaviour the specification asks of the Backoff Executor, in its
    words: attempt the operation; on success return; on failure propagate
    at once when the error is FATAL or the attempt was the last allowed;
    otherwise suspend for [baseDelay * 2 ^ i] and retry.  [delays] lists
    the suspensions, so that [1 + length delays] attempts are made. *)
Inductive Backoff {T} (operation : Async Σ T) (maxAttempts baseDelay : Z)
  : Z -> World Σ -> list Z -> Settled T -> World Σ -> Prop :=
| backoff_success i w v w' :
    Settles operation (start operation) w (Fulfilled v) w' ->
    Backoff operation maxAttempts baseDelay i w [] (Fulfilled v) w'
| backoff_propagate i w e c w' :
    Settles operation (start operation) w (Rejected e) w' ->
    classify e = Some c ->
    c = FATAL \/ i = maxAttempts - 1 ->
    Backoff operation maxAttempts baseDelay i w [] (Rejected e) w'
| backoff_retry i w e w1 delays r w' :
    Settles operation (start operation) w (Rejected e) w1 ->
    classify e = Some RETRYABLE ->
    i < maxAttempts - 1 ->
    Backoff operation maxAttempts baseDelay (i + 1)
      (wait (baseDelay * 2 ^ i) w1) delays r w' ->
    Backoff operation maxAttempts baseDelay i w
      (baseDelay * 2 ^ i :: delays) r w'.

(** [baseDelay * 2 ^ i, baseDelay * 2 ^ (i + 1), ...], [n] of them *)
Fixpoint exponential (baseDelay i : Z) (n : nat) : list Z :=
  match n with
  | O => []
  | S n' => baseDelay * 2 ^ i :: exponential baseDelay (i + 1) n'
  end.

(** What links the bookkeeping of [Promise.allSettled] to the promises
    of the [k] branches. *)
Definition pool_inv {F T} (k : nat) (p : Pool Σ F T) : Prop :=
  length (promises p) = k
  /\ values p = map settled_of (promises p)
  /\ remaining p = pending (promises p).

(** The order of completion lists the settled branches, each once. *)
Definition order_inv {F T} (p : Pool Σ F T) : Prop :=
  settle_order p ≡ₚ settled_indices 0 (promises p).

(** The artifact URI of a settled branch, as [generateVideo] returns it. *)
Definition keyed_uri (res : Settled Operation) : option string :=
  match branch_uri res with
  | Some u => Some (u +:+ "&key=" +:+ api_key_text)
  | None => None
  end.

(** The options of the fallback image request. *)
Definition fallbackOptions (options : VideoOptions) : ImageOptions :=
  {| image_aspectRatio := aspectRatio options;
     image_resolution := None; image_count := None |}.

(** The model [generateImageFromText] sends the request to. *)
Definition effectiveModel (model : string) : string :=
  if includes model "imagen" then "imagen-3.0-generate-002"
  else "gemini-2.5-flash-image".

Definition imageRequest (prompt model : string) (inputImages : list string)
  : ContentRequest :=
  {| content_model := effectiveModel model;
     content_parts := map input_part inputImages ++ [TextPart prompt] |}.


(** The outcome of the fallback image generation in world [w]. *)
Definition fallbackOutcome (p : Prepared) (options : VideoOptions) (w : World Σ)
  : Settled (list string) :=
  fst (generateImageFromText (fallbackPrompt p) "gemini-2.5-flash-image"
         (fallbackImages p) (fallbackOptions options) w).

(** A service-returned URI with the key appended. *)
Definition appendKey (key u : string) : string := u +:+ "&key=" +:+ key.

Definition combinedMessage (e : Thrown) : string :=
  "Video generation failed and Image fallback also failed: "
  +:+ toText (getErrorMessage e).

End Semantics.

(** * Vocabulary of the further statements *)

(** Every character of [s] is in the class [cls]. *)
Fixpoint all_chars (cls : ascii -> bool) (s : string) : bool :=
  match s with
  | EmptyString => true
  | String c s' => cls c && all_chars cls s'
  end.


Definition is_video_call (ev : Event) : bool :=
  match ev with
  | EvGenerateVideos _ => true
  | _ => false
  end.

(** The time a log spent suspended in [wait]. *)
Definition waited (l : list Event) : Z :=
  fold_right (fun ev ms => match ev with EvWait d => d + ms | _ => ms end) 0 l.

(** The number of video jobs submitted ([generateVideos]) in a log. *)
Definition videoCalls (l : list Event) : nat :=
  length (filter (fun ev => is_video_call ev = true) l).

(** The submissions a branch of the fan-out can still make: one per
    attempt left, the running attempt counted until it has submitted. *)
Definition submissions_left (s : Step (RetryFrame VideoFrame) Operation) : nat :=
  match s with
  | Finished _ => 0
  | Running f =>
      match inner f with
      | Submit => Z.to_nat (3 - attempt f)
      | Submitted _ | Polling _ | Polled _ => Z.to_nat (3 - attempt f - 1)
      end
  end.

(** [options.count || 1] *)
Definition requested (options : VideoOptions) : Z :=
  match count options with
  | Some 0 | None => 1
  | Some n => n
  end.

(** The video of the first branch that succeeded. *)
Fixpoint firstSuccess (results : list (Settled Operation)) : option Video :=
  match results with
  | [] => None
  | res :: results' =>
      match branch_uri res, res with
      | Some _, Fulfilled op => generated_video op
      | _, _ => firstSuccess results'
      end
  end.

(** A service whose video jobs never finish. *)
Definition neverDone (key : option string) : Environment unit :=
  {| API_KEY := key;
     svc_generateVideos _ s := (Fulfilled (pendingVideo "job"), s);
     svc_getVideosOperation op s := (Fulfilled (pendingVideo (op_name op)), s);
     svc_generateContent _ s := (Rejected serverError, s);
     loadImage _ s := (Rejected loadFailure, s);
     typeErrorMessage := v8Message |}.

(** The branch is in its first attempt, has submitted its job and has
    not heard that the job is done. *)
Definition awaiting_job (s : Step (RetryFrame VideoFrame) Operation) : Prop :=
  exists f, s = Running f /\ attempt f = 0
    /\ match inner f with
       | Submit => False
       | Polling _ => True
       | Submitted r | Polled r => exists op, r = Fulfilled op /\ done op = false
       end.

(** The images of a response are data URIs with a non-empty mime type
    and a non-empty payload. *)
Definition image_uri (img : string) : Prop :=
  exists mime d,
    img = "data:" +:+ mime +:+ ";base64," +:+ d /\ mime <> "" /\ d <> "".


(** The error of [getClient]. *)
Definition keyError : Thrown :=
  newError "API Key is missing. Please select a paid API key via the Google AI Studio button.".

Definition not_line_terminator (c : ascii) : bool := negb (is_line_terminator c).

Definition not_semicolon (c : ascii) : bool := negb (Ascii.eqb c ";").

(** A data URI, from its mime type and its payload. *)
Definition dataUri (envelope : string * string) : string :=
  "data:" +:+ fst envelope +:+ ";base64," +:+ snd envelope.

(** A mime type without line break and a payload without semicolon. *)
Definition plain_envelope (envelope : string * string) : Prop :=
  all_chars not_line_terminator (fst envelope) = true
  /\ all_chars not_semicolon (snd envelope) = true.

(** The request of [orchestrateVideoPrompt] for images with the given
    payloads. *)
Definition orchestratorRequest (payloads : list string) (userPrompt : string)
  : ContentRequest :=
  {| content_model := "gemini-2.5-flash";
     content_parts :=
       map (fun payload => InlinePart {| data := payload; mimeType := "image/png" |})
         payloads
       ++ [TextPart ("Create a single video prompt that transitions between these images. User Intent: "
                     +:+ userPrompt)] |}.

Definition orchestratorConfig : GenerationConfig :=
  {| config_systemInstruction := Some VIDEO_ORCHESTRATOR_INSTRUCTION;
     responseMimeType := None; responseModalities := []; voiceName := None |}.

(** [options?.persona?.label === 'Deep Narrative' ? 'Kore' : 'Puck'] *)
Definition voiceOf (options : option AudioOptions) : string :=
  match options with
  | Some o =>
      match persona_label o with
      | Some label => if String.eqb label "Deep Narrative" then "Kore" else "Puck"
      | None => "Puck"
      end
  | None => "Puck"
  end.

Definition audioConfig (options : option AudioOptions) : GenerationConfig :=
  {| config_systemInstruction := None; responseMimeType := None;
     responseModalities := [AUDIO]; voiceName := Some (voiceOf options) |}.

Definition audioRequest (prompt : string) (referenceAudio : option string)
  : ContentRequest :=
  {| content_model := "gemini-2.5-flash-preview-tts";
     content_parts :=
       [TextPart prompt] ++
       match nonempty referenceAudio with
       | Some reference =>
           [InlinePart {| data := strip_envelope "audio" is_word reference;
                          mimeType := mime_or "audio" is_word "audio/wav" reference |}]
       | None => []
       end |}.

(** The WAV file of raw PCM bytes, as a data URI. *)
Definition wavUri {Σ : Type} `{Studio Σ} (pcm : list byte) (sampleRate : Z) : string :=
  "data:audio/wav;base64,"
  +:+ btoa (string_of_list_byte (wavHeader (Z.of_nat (length pcm)) sampleRate ++ pcm)).

(** The ids of the thumbnails, as [dropOrder] lists them. *)
Definition assetIds (assets : list InputAsset) : list (option string) :=
  map (fun a => Some (asset_id a)) assets.

(** The order after the drop: the new one, or the old one when the
    handler leaves it alone. *)
Definition orderAfterDrop (assets : list InputAsset) (id : string) (offset : Z)
  : list (option string) :=
  default (assetIds assets) (dropOrder assets (Some id) offset).

(** The slot where the thumbnail at [index] is displayed during the drag. *)
Definition displayedSlot (assets : list InputAsset) (id : string) (offset : Z)
    (index : nat) (asset : InputAsset) : Z :=
  Z.of_nat index
  + translateX assets (Some id) offset (Z.of_nat index) asset / ITEM_FULL_WIDTH.

(** ** Further example fixtures *)

Definition demoStudio : Studio Script := scriptedStudio (Some "KEY").

(** A studio without API key. *)
Definition lockedStudio : Studio Script := scriptedStudio None.

(** A studio whose [FileReader] fails. *)
Definition brokenReader : Studio Script :=
  {| studio_environment := scripted (Some "KEY");
     svc_generateContentConfig _ _ := nextContent;
     svc_sendMessage _ := nextContent;
     fetch _ s := (Fulfilled {| response_status := 200 |}, s);
     response_blob _ s := (Fulfilled {| blob_type := "image/png"; blob_bytes := [] |}, s);
     readAsDataURL _ s := (Rejected (newError "NotReadableError"), s);
     JSON_parse _ := Rejected (newError "Unexpected token");
     atob text := Fulfilled text;
     btoa text := text |}.

(** An [atob] that refuses one text. *)
Definition pickyAtob (s : string) : Settled string :=
  if String.eqb s "!" then Rejected (newError "InvalidCharacterError")
  else Fulfilled s.

(** The first video call is answered 503, the second succeeds. *)
Definition oneRetry : Script :=
  {| script_videos := [Rejected overloadError;
                       Fulfilled (finishedVideo "op" "https://v/1?alt=media")];
     script_polls := []; script_contents := []; script_images := [] |}.

(** The video call is rejected with [null]. *)
Definition nullRejection : Script :=
  {| script_videos := [Rejected Null];
     script_polls := []; script_contents := []; script_images := [] |}.

(** [() => ai.models.generateVideos(request)]: a job submitted and not
    polled, an operation that never waits. *)
Definition submitOnly (request : VideoRequest) : Async Script Operation :=
  {| Frame := option (Settled Operation);
     start := None;
     resume f w :=
       match f with
       | None =>
           let (r, w') :=
             call EvGenerateVideos (svc_generateVideos (Environment := demoEnv))
               request w in
           (Running (Some r), w')
       | Some r => (Finished r, w)
       end |}.

(** A service that finishes the first job it is given at once and never
    finishes another; its state counts the jobs it was given. *)
Definition firstOnly : Environment nat :=
  {| API_KEY := Some "KEY";
     svc_generateVideos _ n :=
       (Fulfilled (if (n =? 0)%nat
                   then finishedVideo "first" "https://v/first?alt=media"
                   else pendingVideo "later"), S n);
     svc_getVideosOperation op n := (Fulfilled (pendingVideo (op_name op)), n);
     svc_generateContent _ n := (Rejected serverError, n);
     loadImage _ n := (Rejected loadFailure, n);
     typeErrorMessage := v8Message |}.

(** Two videos asked of that service, from a prompt alone. *)
Definition firstOnlyVideo (schedule : list nat)
  : option (Settled VideoResult * World nat) :=
  @generateVideo nat firstOnly "a cat" "veo-3" (withCount 2) None None None
    schedule {| service := 0%nat; log := [] |}.

(** What [prepare] makes of that request. *)
Definition plainPrepared : Prepared :=
  {| enhancedPrompt := "a cat" +:+ qualitySuffix;
     inputs := {| video_model := "veo-3";
                  video_prompt := "a cat" +:+ qualitySuffix;
                  video_image := None;
                  video_video := None;
                  video_config := video_config demoRequest |};
     finalInputImageBase64 := None;
     branches := 2 |}.

(** The two branches of that request. *)
Definition firstOnlyPool (schedule : list nat)
  : Pool nat (RetryFrame VideoFrame) Operation :=
  @fanOut nat firstOnly plainPrepared schedule {| service := 0%nat; log := [] |}.

Definition emptyScript : Script :=
  {| script_videos := []; script_polls := []; script_contents := [];
     script_images := [] |}.

Definition threeAssets : list InputAsset :=
  [ {| asset_id := "a"; asset_src := "a.png" |};
    {| asset_id := "b"; asset_src := "b.png" |};
    {| asset_id := "c"; asset_src := "c.png" |} ].

Definition cutFrame : SequenceFrame :=
  {| transition := Some {| duration := 2; transition_prompt := "a slow zoom" |} |}.

Definition stillFrame : SequenceFrame := {| transition := None |}.

(** * The transient-error test *)

(** Overload and rate-limit signals are retryable: a status or code of 503
    or 429, or a message that contains "overloaded" or "503" in any case.
    A message that only mentions 429 is not, nor is any other status.  On
    [null], [undefined] and a value whose message is not a string the test
    itself raises. *)
Example isOverloaded_examples :
  isOverloaded overloadError = Says true
  /\ isOverloaded (Obj {| err_status := None; err_code := Some 429;
                          err_message := None; err_inner := None;
                          err_json := "{}" |}) = Says true
  /\ isOverloaded (Str "Model is OVERLOADED, try later") = Says true
  /\ isOverloaded (newError "upstream returned 503") = Says true
  /\ isOverloaded (newError "429 Too Many Requests") = Says false
  /\ isOverloaded serverError = Says false
  /\ isOverloaded Falsy = Says false
  /\ isOverloaded Null = Raises StatusOfNull
  /\ isOverloaded Undefined = Raises StatusOfUndefined
  /\ isOverloaded (Obj {| err_status := Some 503; err_code := None;
                          err_message := Some (Other "503"); err_inner := None;
                          err_json := "{}" |}) = Raises ToLowerCaseOfOther.
Proof. repeat split; reflexivity. Qed.

(** * The backoff executor *)

Section RetryProperties.
Context {Σ : Type} `{Environment Σ} {T : Type}.
Variable operation : Async Σ T.
Variables maxRetries baseDelay : Z.

Let executor := retryWithBackoff operation maxRetries baseDelay.

Lemma Settles_deterministic {U} (a : Async Σ U) f w r1 w1 r2 w2 :
  Settles a f w r1 w1 -> Settles a f w r2 w2 -> r1 = r2 /\ w1 = w2.
Proof.
  intros H1; revert r2 w2.
  induction H1 as [f w r w' E | f w f' wm r w' E _ IH]; intros r2 w2 H2;
    inversion H2; subst; try congruence.
  - split; congruence.
  - apply IH. congruence.
Qed.

Lemma Settles_await {U} (a : Async Σ U) f w r w' :
  Settles a f w r w' <-> exists fuel, await_from a fuel f w = Some (r, w').
Proof.
  split.
  - induction 1 as [f w r w' E | f w f' wm r w' E _ [n IH]].
    + exists 1%nat. simpl. now rewrite E.
    + exists (S n). simpl. now rewrite E.
  - intros [n Hn]. revert f w Hn.
    induction n as [|n IH]; intros f w Hn; [discriminate|].
    simpl in Hn. destruct (resume a f w) as [[f'|r'] wm] eqn:E.
    + eapply settles_later; eauto.
    + inversion Hn; subst. now apply settles_now.
Qed.

Lemma classify_fatal e : classify e = Some FATAL -> isOverloaded e = Says false.
Proof. unfold classify. destruct (isOverloaded e) as [|[|]]; congruence. Qed.

Lemma classify_retryable e :
  classify e = Some RETRYABLE -> isOverloaded e = Says true.
Proof. unfold classify. destruct (isOverloaded e) as [|[|]]; congruence. Qed.

Lemma classify_some e c : classify e = Some c -> exists b, isOverloaded e = Says b.
Proof. unfold classify. destruct (isOverloaded e) as [|[|]]; eauto; congruence. Qed.

(** One attempt inside the executor: the executor follows the operation
    until it settles, then takes the decision of the [catch] block. *)
Lemma executor_follows_attempt f w r w1 :
  Settles operation f w r w1 ->
  forall i le, i < maxRetries ->
    match r with
    | Fulfilled v =>
        Settles executor {| attempt := i; lastError := le; inner := f |} w
          (Fulfilled v) w1
    | Rejected e =>
        match isOverloaded e with
        | Raises cause =>
            Settles executor {| attempt := i; lastError := le; inner := f |} w
              (Rejected (typeError cause)) w1
        | Says overloaded =>
            if overloaded && (i <? maxRetries - 1) then
              forall r' w',
                Settles executor
                  {| attempt := i + 1; lastError := e; inner := start operation |}
                  (wait (baseDelay * 2 ^ i) w1) r' w' ->
                Settles executor {| attempt := i; lastError := le; inner := f |} w r' w'
            else
              Settles executor {| attempt := i; lastError := le; inner := f |} w
                (Rejected e) w1
        end
    end.
Proof.
  induction 1 as [f w r w1 E | f w f' wm r w1 E _ IH]; intros i le Hi.
  - assert (Hres : resume executor {| attempt := i; lastError := le; inner := f |} w
                   = retry_resume operation maxRetries baseDelay
                       {| attempt := i; lastError := le; inner := f |} w) by reflexivity.
    unfold retry_resume in Hres; simpl in Hres.
    apply Z.ltb_lt in Hi. rewrite Hi, E in Hres.
    destruct r as [v | e].
    + now apply settles_now.
    + destruct (isOverloaded e) as [cause|ov].
      * now apply settles_now.
      * destruct (ov && (i <? maxRetries - 1)).
        -- intros r' w' Hnext. eapply settles_later; eauto.
        -- now apply settles_now.
  - specialize (IH i le Hi).
    assert (Hres : resume executor {| attempt := i; lastError := le; inner := f |} w
                   = (Running {| attempt := i; lastError := le; inner := f' |}, wm)).
    { change (retry_resume operation maxRetries baseDelay
                {| attempt := i; lastError := le; inner := f |} w = 
              (Running {| attempt := i; lastError := le; inner := f' |}, wm)).
      unfold retry_resume; simpl. apply Z.ltb_lt in Hi. now rewrite Hi, E. }
    destruct r as [v | e].
    + eapply settles_later; eauto.
    + destruct (isOverloaded e) as [cause|ov].
      * eapply settles_later; eauto.
      * destruct (ov && (i <? maxRetries - 1)).
        -- intros r' w' Hnext. eapply settles_later; eauto.
        -- eapply settles_later; eauto.
Qed.

Lemma backoff_refines i w delays r w' :
  Backoff operation maxRetries baseDelay i w delays r w' ->
  i < maxRetries ->
  forall le,
    Settles executor {| attempt := i; lastError := le; inner := start operation |}
      w r w'.
Proof.
  induction 1 as [i w v w' Hs | i w e c w' Hs Hc Hor | i w e w1 ds r w' Hs Hc Hlt _ IH];
    intros Hi le.
  - exact (executor_follows_attempt _ _ _ _ Hs i le Hi).
  - pose proof (executor_follows_attempt _ _ _ _ Hs i le Hi) as Hf. simpl in Hf.
    destruct (classify_some _ _ Hc) as [b Hb]. rewrite Hb in Hf.
    destruct Hor as [-> | ->].
    + rewrite (classify_fatal _ Hc) in Hb. inversion Hb; subst. exact Hf.
    + rewrite Z.ltb_irrefl, andb_false_r in Hf. exact Hf.
  - pose proof (executor_follows_attempt _ _ _ _ Hs i le Hi) as Hf. simpl in Hf.
    rewrite (classify_retryable _ Hc) in Hf.
    apply Z.ltb_lt in Hlt as Hlt'. rewrite Hlt' in Hf. simpl in Hf.
    apply Hf, IH. lia.
Qed.

Lemma backoff_delays i w delays r w' :
  Backoff operation maxRetries baseDelay i w delays r w' ->
  i < maxRetries ->
  i + Z.of_nat (length delays) < maxRetries
  /\ delays = exponential baseDelay i (length delays).
Proof.
  induction 1 as [i w v w' Hs | i w e c w' Hs Hc Hor | i w e w1 ds r w' Hs Hc Hlt _ IH];
    intros Hi; simpl.
  - split; [lia | reflexivity].
  - split; [lia | reflexivity].
  - destruct IH as [IH1 IH2]; [lia|]. split; [lia|]. now rewrite <- IH2.
Qed.

End RetryProperties.

(** * The fan-out *)

Section PoolProperties.
Context {Σ : Type} `{Environment Σ} {T : Type}.
Variable a : Async Σ T.

Lemma pending_insert_running (ps : list (Step (Frame a) T)) b f f' :
  ps !! b = Some (Running f) ->
  pending (<[b := Running f']> ps) = pending ps.
Proof.
  revert b. induction ps as [|s ps IH]; intros [|b] Hb; simpl in *; try discriminate.
  - inversion Hb; subst. reflexivity.
  - f_equal. now apply IH.
Qed.

Lemma pending_insert_finished (ps : list (Step (Frame a) T)) b f r :
  ps !! b = Some (Running f) ->
  pending (<[b := Finished r]> ps) = pred (pending ps).
Proof.
  revert b. induction ps as [|s ps IH]; intros [|b] Hb; simpl in *; try discriminate.
  - inversion Hb; subst. reflexivity.
  - rewrite (IH b Hb).
    assert (0 < pending ps)%nat.
    { clear IH. revert b Hb. induction ps as [|s' ps IH]; intros [|b] Hb;
        simpl in *; try discriminate.
      - inversion Hb; subst. simpl. lia.
      - specialize (IH b Hb). lia. }
    destruct (is_running s); lia.
Qed.

Lemma spawn_all_length k w : length (fst (spawn_all a k w)) = k.
Proof.
  revert w. induction k as [|k IH]; intros w; simpl; [reflexivity|].
  destruct (resume a (start a) w) as [s w1]. specialize (IH w1).
  destruct (spawn_all a k w1) as [ss w2]. simpl in *. congruence.
Qed.

Lemma pool_init_promises k w :
  promises (pool_init a k w) = fst (spawn_all a k w)
  /\ pool_world (pool_init a k w) = snd (spawn_all a k w).
Proof. unfold pool_init. now destruct (spawn_all a k w). Qed.

Lemma pool_init_inv k w : pool_inv k (pool_init a k w).
Proof.
  pose proof (spawn_all_length k w) as Hl.
  unfold pool_inv, pool_init. destruct (spawn_all a k w) as [ps w'].
  simpl in *. auto.
Qed.

Lemma pool_step_inv k b p : pool_inv k p -> pool_inv k (pool_step a b p).
Proof.
  intros (Hlen & Hval & Hrem). unfold pool_step.
  destruct (promises p !! b) as [[f|r]|] eqn:Hb; try (repeat split; assumption).
  destruct (resume a f (pool_world p)) as [[f'|r] w'] eqn:E;
    unfold pool_inv; simpl; repeat split.
  - now rewrite length_insert.
  - rewrite Hval. symmetry. rewrite list_fmap_insert. simpl.
    apply list_insert_id. rewrite list_lookup_fmap, Hb. reflexivity.
  - rewrite Hrem. symmetry. eapply pending_insert_running; eauto.
  - now rewrite length_insert.
  - rewrite Hval. now rewrite list_fmap_insert.
  - rewrite Hrem. symmetry. eapply pending_insert_finished; eauto.
Qed.

Lemma pool_run_inv k schedule p : pool_inv k p -> pool_inv k (pool_run a schedule p).
Proof.
  revert p. induction schedule as [|b schedule IH]; intros p Hp; simpl; [assumption|].
  apply IH, pool_step_inv, Hp.
Qed.

Lemma filled_settled (ps : list (Step (Frame a) T)) results :
  filled (map settled_of ps) = Some results <-> ps = map Finished results.
Proof.
  revert results. induction ps as [|s ps IH]; intros results; simpl.
  - split; intros Hr.
    + inversion Hr; reflexivity.
    + destruct results; [reflexivity | discriminate].
  - destruct s as [f|r]; simpl.
    + split; [discriminate|]. destruct results; discriminate.
    + destruct (filled (map settled_of ps)) as [rs|] eqn:E.
      * split; intros Hr.
        -- inversion Hr; subst. simpl. f_equal. now apply IH.
        -- destruct results as [|r0 results]; [discriminate|]. simpl in Hr.
           inversion Hr; subst. f_equal. f_equal.
           assert (Some rs = Some results) as Hrs by (now apply IH).
           now inversion Hrs.
      * split; [discriminate|]. intros Hr.
        destruct results as [|r0 results]; [discriminate|]. simpl in Hr.
        inversion Hr; subst.
        assert (None = Some results) by (now apply IH). discriminate.
Qed.

Lemma pending_finished (results : list (Settled T)) :
  pending (map (@Finished (Frame a) T) results) = 0%nat.
Proof. induction results; simpl; congruence. Qed.

Lemma pending_zero (ps : list (Step (Frame a) T)) :
  pending ps = 0%nat -> exists results, ps = map Finished results.
Proof.
  induction ps as [|s ps IH]; simpl; intros Hp.
  - now exists [].
  - destruct s as [f|r]; simpl in Hp; [discriminate|].
    destruct (IH Hp) as [rs ->]. now exists (r :: rs).
Qed.

(** [allSettled] resumes the caller exactly when every branch has settled,
    with the outcomes by branch index. *)
Lemma allSettled_spec k (p : Pool Σ (Frame a) T) results :
  pool_inv k p ->
  allSettled p = Some results <-> promises p = map Finished results.
Proof.
  intros (Hlen & Hval & Hrem). unfold allSettled. rewrite Hval, Hrem. split.
  - destruct (pending (promises p) =? 0)%nat; [|discriminate].
    apply filled_settled.
  - intros Hp. rewrite Hp at 1. rewrite pending_finished. simpl.
    now apply filled_settled.
Qed.

Lemma pool_step_other b b' p :
  b <> b' -> promises (pool_step a b' p) !! b = promises p !! b.
Proof.
  intros Hne. unfold pool_step.
  destruct (promises p !! b') as [[f|r]|]; try reflexivity.
  destruct (resume a f (pool_world p)) as [[f'|r] w']; simpl;
    now rewrite list_lookup_insert_ne.
Qed.

Lemma pool_step_self b p f :
  promises p !! b = Some (Running f) ->
  promises (pool_step a b p) !! b = Some (fst (resume a f (pool_world p))).
Proof.
  intros Hb. unfold pool_step. rewrite Hb.
  apply lookup_lt_Some in Hb as Hlt.
  destruct (resume a f (pool_world p)) as [[f'|r] w']; simpl;
    now rewrite list_lookup_insert_eq.
Qed.

Lemma pool_step_settled b b' p r :
  promises p !! b = Some (Finished r) ->
  promises (pool_step a b' p) !! b = Some (Finished r).
Proof.
  intros Hb. destruct (decide (b = b')) as [<-|Hne].
  - unfold pool_step. now rewrite Hb.
  - now rewrite pool_step_other.
Qed.

Lemma pool_run_app s1 s2 (p : Pool Σ (Frame a) T) :
  pool_run a (s1 ++ s2) p = pool_run a s2 (pool_run a s1 p).
Proof. unfold pool_run. apply fold_left_app. Qed.

Lemma settled_indices_running i (ps : list (Step (Frame a) T)) b f f' :
  ps !! b = Some (Running f) ->
  settled_indices i (<[b := Running f']> ps) = settled_indices i ps.
Proof.
  revert i b. induction ps as [|s ps IH]; intros i [|b] Hb; simpl in *;
    try discriminate.
  - injection Hb as ->. reflexivity.
  - destruct s; [|f_equal]; now apply IH.
Qed.

Lemma settled_indices_finished i (ps : list (Step (Frame a) T)) b f r :
  ps !! b = Some (Running f) ->
  settled_indices i (<[b := Finished r]> ps) ≡ₚ (i + b)%nat :: settled_indices i ps.
Proof.
  revert i b. induction ps as [|s ps IH]; intros i [|b] Hb; simpl in *;
    try discriminate.
  - injection Hb as ->. now rewrite Nat.add_0_r.
  - specialize (IH (S i) b Hb).
    replace (i + S b)%nat with (S i + b)%nat by lia.
    destruct s; [exact IH|]. rewrite IH. apply Permutation_swap.
Qed.

Lemma settled_indices_all i (results : list (Settled T)) :
  settled_indices i (map (@Finished (Frame a) T) results) = seq i (length results).
Proof.
  revert i. induction results as [|r results IH]; intros i; simpl;
    [reflexivity | now rewrite IH].
Qed.

Lemma pool_init_order k w : order_inv (pool_init a k w).
Proof.
  unfold order_inv, pool_init. now destruct (spawn_all a k w).
Qed.

Lemma pool_step_order b p : order_inv p -> order_inv (pool_step a b p).
Proof.
  unfold order_inv, pool_step. intros Hp.
  destruct (promises p !! b) as [[f|r]|] eqn:Hb; try exact Hp.
  destruct (resume a f (pool_world p)) as [[f'|r] w']; simpl.
  - now rewrite (settled_indices_running _ _ _ _ _ Hb).
  - rewrite (settled_indices_finished _ _ _ _ r Hb). simpl.
    rewrite <- Hp. symmetry. apply Permutation_cons_append.
Qed.

Lemma pool_run_order schedule p : order_inv p -> order_inv (pool_run a schedule p).
Proof.
  revert p. induction schedule as [|b schedule IH]; intros p Hp; simpl;
    [assumption|].
  apply IH, pool_step_order, Hp.
Qed.

End PoolProperties.

(** * Calls to the service *)

Section CallProperties.
Context {Σ : Type} `{Environment Σ}.

Lemma contentCalls_app l1 l2 :
  contentCalls (l1 ++ l2) = (contentCalls l1 + contentCalls l2)%nat.
Proof. unfold contentCalls. now rewrite filter_app, length_app. Qed.

Lemma contentCalls_other l ev :
  is_content_call ev = false -> contentCalls (l ++ [ev]) = contentCalls l.
Proof.
  intros Hev. rewrite contentCalls_app. unfold contentCalls at 2. simpl.
  rewrite filter_cons_False; [simpl; lia | congruence].
Qed.

Lemma call_world {A R} (ev : A -> Event) (f : A -> Σ -> Settled R * Σ) a (w : World Σ) :
  call ev f a w
  = (fst (f a (service w)),
     {| service := snd (f a (service w)); log := log w ++ [ev a] |}).
Proof. unfold call. now destruct (f a (service w)). Qed.

Lemma getClient_key :
  getClient = Fulfilled tt ->
  exists key, API_KEY = Some key /\ key <> "" /\ api_key_text = key.
Proof.
  unfold getClient, api_key_text. destruct API_KEY as [[|c key]|]; simpl; try discriminate.
  intros _. eexists; repeat split. discriminate.
Qed.

Lemma getClient_cases : getClient = Fulfilled tt \/ exists e, getClient = Rejected e.
Proof. unfold getClient. destruct (nonempty API_KEY); eauto. Qed.

(** [generateImageFromText] issues one [generateContent] call, whatever
    [options.count] is, and returns the images of that one response. *)
Lemma generateImageFromText_spec prompt model inputImages options (w : World Σ) :
  getClient = Fulfilled tt ->
  generateImageFromText prompt model inputImages options w
  = (match fst (svc_generateContent (imageRequest prompt model inputImages) (service w)) with
     | Rejected e => Rejected (newError (toText (getErrorMessage e)))
     | Fulfilled response =>
         match parse_images response with
         | [] => Rejected (newError
                   "No images generated. Safety filter might have been triggered.")
         | images => Fulfilled images
         end
     end,
     {| service := snd (svc_generateContent (imageRequest prompt model inputImages) (service w));
        log := log w ++ [EvGenerateContent (imageRequest prompt model inputImages)] |}).
Proof.
  intros Hc. unfold generateImageFromText. rewrite Hc.
  fold (effectiveModel model). fold (imageRequest prompt model inputImages).
  rewrite call_world.
  destruct (fst (svc_generateContent _ _)) as [response|e]; [|reflexivity].
  destruct (parse_images response); reflexivity.
Qed.

Lemma generateImageFromText_nonempty prompt model inputImages options (w : World Σ) imgs w' :
  generateImageFromText prompt model inputImages options w = (Fulfilled imgs, w') ->
  imgs <> [].
Proof.
  destruct getClient_cases as [Hc | [e Hc]].
  - rewrite (generateImageFromText_spec _ _ _ _ _ Hc).
    destruct (fst (svc_generateContent _ _)) as [response|e]; [|discriminate].
    destruct (parse_images response) eqn:E; [discriminate|].
    intros Heq. inversion Heq; subst. discriminate.
  - unfold generateImageFromText. rewrite Hc. discriminate.
Qed.

(** ** The fan-out makes no image-generation call *)

Lemma convert_calls src (w : World Σ) :
  contentCalls (log (snd (convertImageToCompatibleFormat src w))) = contentCalls (log w).
Proof.
  unfold convertImageToCompatibleFormat.
  destruct (supported_envelope src); [reflexivity|].
  rewrite call_world. destruct (fst (loadImage _ _)); simpl;
    now apply contentCalls_other.
Qed.

Lemma convertReferences_calls refs (w : World Σ) :
  contentCalls (log (snd (convertReferences refs w))) = contentCalls (log w).
Proof.
  revert w. induction refs as [|ref refs IH]; intros w; simpl; [reflexivity|].
  pose proof (convert_calls ref w) as Hc.
  destruct (convertImageToCompatibleFormat ref w) as [[c|e] w1]; simpl in *; [|assumption].
  specialize (IH w1).
  destruct (convertReferences refs w1) as [[l|e] w2]; simpl in *; congruence.
Qed.

Lemma prepareImage_calls img (w : World Σ) :
  contentCalls (log (snd (prepareImage img w))) = contentCalls (log w).
Proof.
  unfold prepareImage. destruct (nonempty img) as [src|]; [|reflexivity].
  pose proof (convert_calls src w) as Hc.
  destruct (convertImageToCompatibleFormat src w) as [[c|e] w1]; exact Hc.
Qed.

Lemma prepareReferences_calls model refs (w : World Σ) :
  contentCalls (log (snd (prepareReferences model refs w))) = contentCalls (log w).
Proof.
  unfold prepareReferences. destruct refs as [[|ref rest]|]; try reflexivity.
  destruct (String.eqb model _); [|reflexivity].
  pose proof (convertReferences_calls (ref :: rest) w) as Hr.
  destruct (convertReferences (ref :: rest) w) as [[l|e] w2]; exact Hr.
Qed.

Lemma prepare_calls prompt model options img vid refs (w : World Σ) :
  contentCalls (log (snd (prepare prompt model options img vid refs w)))
  = contentCalls (log w).
Proof.
  unfold prepare. destruct getClient; [|reflexivity].
  pose proof (prepareImage_calls img w) as Hi.
  destruct (prepareImage img w) as [[image final] w1]. simpl in Hi.
  pose proof (prepareReferences_calls model refs w1) as Hr.
  destruct (prepareReferences model refs w1) as [[cfg|e] w2]; simpl in *; congruence.
Qed.







(** ** The jobs are submitted first, in branch order *)

Lemma videoBranch_spawn request (w : World Σ) :
  resume (videoBranch request) (start (videoBranch request)) w
  = (Running {| attempt := 0; lastError := Undefined;
                inner := Submitted (fst (svc_generateVideos request (service w))) |},
     {| service := snd (svc_generateVideos request (service w));
        log := log w ++ [EvGenerateVideos request] |}).
Proof.
  change (resume (videoBranch request) (start (videoBranch request)) w)
    with (retry_resume (videoOperation request) 3 2000
            {| attempt := 0; lastError := Undefined; inner := Submit |} w).
  unfold retry_resume. simpl. now rewrite call_world.
Qed.

Lemma spawn_all_log request n (w : World Σ) :
  log (snd (spawn_all (videoBranch request) n w))
  = log w ++ replicate n (EvGenerateVideos request).
Proof.
  revert w. induction n as [|n IH]; intros w.
  - simpl. now rewrite app_nil_r.
  - change (spawn_all (videoBranch request) (S n) w)
      with (let (s, w1) := resume (videoBranch request)
                             (start (videoBranch request)) w in
            let (ss, w2) := spawn_all (videoBranch request) n w1 in
            (s :: ss, w2)).
    rewrite videoBranch_spawn.
    specialize (IH {| service := snd (svc_generateVideos request (service w));
                      log := log w ++ [EvGenerateVideos request] |}).
    destruct (spawn_all (videoBranch request) n _) as [ss w2]. simpl in *.
    rewrite IH. now rewrite <- app_assoc.
Qed.

Lemma after_response_log r (w : World Σ) :
  exists l, log (snd (after_response r w)) = log w ++ l.
Proof.
  unfold after_response. destruct r as [op|e]; [|exists []; now rewrite app_nil_r].
  destruct (done op); [exists []; now rewrite app_nil_r|].
  now exists [EvWait 5000].
Qed.

Lemma videoBranch_log request (f : RetryFrame VideoFrame) (w : World Σ) :
  exists l, log (snd (resume (videoBranch request) f w)) = log w ++ l.
Proof.
  change (resume (videoBranch request) f w)
    with (retry_resume (videoOperation request) 3 2000 f w).
  unfold retry_resume. destruct f as [i le fr].
  simpl attempt. simpl inner. simpl lastError.
  destruct (i <? 3); [|exists []; simpl; now rewrite app_nil_r].
  assert (Hop : exists l,
             log (snd (resume (videoOperation request) fr w)) = log w ++ l).
  { destruct fr as [|r|op|r]; simpl; rewrite ?call_world;
      try apply after_response_log; simpl; eauto. }
  destruct Hop as [l Hl].
  destruct (resume (videoOperation request) fr w) as [[f'|[v|e]] w1];
    simpl in *; eauto.
  destruct (isOverloaded e) as [cause|ov]; simpl; eauto.
  destruct (ov && _); simpl; eauto.
  rewrite Hl, <- app_assoc. eauto.
Qed.

Lemma pool_run_log {T} (a : Async Σ T) schedule (p : Pool Σ (Frame a) T) :
  (forall f w, exists l, log (snd (resume a f w)) = log w ++ l) ->
  exists l, log (pool_world (pool_run a schedule p)) = log (pool_world p) ++ l.
Proof.
  intros Ha. revert p. induction schedule as [|b schedule IH]; intros p.
  - exists []. simpl. now rewrite app_nil_r.
  - change (pool_run a (b :: schedule) p)
      with (pool_run a schedule (pool_step a b p)).
    destruct (IH (pool_step a b p)) as [l Hl]. rewrite Hl.
    assert (Hs : exists l0, log (pool_world (pool_step a b p))
                            = log (pool_world p) ++ l0).
    { unfold pool_step.
      destruct (promises p !! b) as [[f|r]|];
        try (exists []; now rewrite app_nil_r).
      destruct (Ha f (pool_world p)) as [l0 Hl0].
      destruct (resume a f (pool_world p)) as [[f'|r] w']; simpl in *; eauto. }
    destruct Hs as [l0 ->]. rewrite <- app_assoc. eauto.
Qed.

Lemma fanOut_log p schedule (w : World Σ) :
  exists l,
    log (pool_world (fanOut p schedule w))
    = log w ++ replicate (branches p) (EvGenerateVideos (inputs p)) ++ l.
Proof.
  destruct (pool_run_log (videoBranch (inputs p)) schedule
              (pool_init (videoBranch (inputs p)) (branches p) w)
              (videoBranch_log (inputs p))) as [l Hl].
  pose proof (pool_init_promises (videoBranch (inputs p)) (branches p) w) as [_ Hw].
  pose proof (spawn_all_log (inputs p) (branches p) w) as Hs.
  exists l. unfold fanOut.
  refine (eq_trans Hl _). rewrite app_assoc. f_equal.
  exact (eq_trans (f_equal log Hw) Hs).
Qed.

End CallProperties.

(** * Video generation *)

Section VideoProperties.
Context {Σ : Type} `{Environment Σ}.

Lemma collect_uris (results : list (Settled Operation)) :
  fst (collect results) = omap keyed_uri results.
Proof.
  unfold collect.
  enough (Hgen : forall acc meta,
    fst (fold_left
      (fun '(validUris, primaryMetadata) res =>
       match res with
       | Fulfilled value =>
           match generated_video value with
           | Some vid =>
               match nonempty (uri vid) with
               | Some u =>
                   (validUris ++ [u +:+ "&key=" +:+ api_key_text],
                    match primaryMetadata with
                    | None => Some vid
                    | Some _ => primaryMetadata
                    end)
               | None => (validUris, primaryMetadata)
               end
           | None => (validUris, primaryMetadata)
           end
       | Rejected _ => (validUris, primaryMetadata)
       end) results (acc, meta)) = acc ++ omap keyed_uri results).
  { apply (Hgen [] None). }
  induction results as [|res results IH]; intros acc meta; simpl.
  - now rewrite app_nil_r.
  - unfold keyed_uri at 1, branch_uri.
    destruct res as [op|e]; [|apply IH].
    destruct (generated_video op) as [vid|]; [|apply IH].
    destruct (nonempty (uri vid)) as [u|]; [|apply IH].
    rewrite IH. now rewrite <- app_assoc.
Qed.

Lemma keyed_uri_succeeded res : is_Some (keyed_uri res) <-> branch_succeeded res.
Proof.
  unfold keyed_uri, branch_succeeded. destruct (branch_uri res); split;
    intros [x Hx]; try discriminate; eauto.
Qed.



(** The error with which the primary path fails: the reason of the first
    rejected branch when it is truthy, the generic error otherwise. *)
Lemma try_block_cases results :
  match fst (collect results) with
  | [] => exists e, try_block results = Rejected e
  | u :: l =>
      try_block results
      = Fulfilled {| result_uri := Some u; uris := Some (u :: l);
                     videoMetadata := snd (collect results);
                     isFallbackImage := Some false |}
  end.
Proof.
  unfold try_block. destruct (collect results) as [validUris meta]. simpl.
  destruct validUris as [|u l]; [|reflexivity].
  destruct (firstError results) as [reason|]; [destruct (truthy reason)|]; eauto.
Qed.

Lemma prepare_client prompt model options img vid refs (w : World Σ) p w1 :
  prepare prompt model options img vid refs w = (Fulfilled p, w1) ->
  getClient = Fulfilled tt.
Proof.
  unfold prepare. destruct getClient as [[]|e]; [reflexivity | discriminate].
Qed.

Lemma some_uri_iff results :
  fst (collect results) <> [] <-> Exists branch_succeeded results.
Proof.
  rewrite collect_uris. induction results as [|res results IH]; simpl.
  - split; [congruence | intros He; inversion He].
  - destruct (keyed_uri res) as [u|] eqn:E.
    + split; [|discriminate]. intros _. left.
      apply keyed_uri_succeeded. rewrite E. eauto.
    + rewrite IH. split; [now right|].
      intros He. inversion He as [? ? Hs | ? ? Hs]; subst; [|assumption].
      apply keyed_uri_succeeded in Hs. rewrite E in Hs. destruct Hs; discriminate.
Qed.


Lemma fallback_outcome p options e (w : World Σ) :
  fst (fallback p options e w)
  = match fallbackOutcome p options w with
    | Fulfilled imgs =>
        Fulfilled {| result_uri := head imgs; isFallbackImage := Some true;
                     videoMetadata := None; uris := None |}
    | Rejected _ => Rejected (newError (combinedMessage e))
    end.
Proof.
  unfold fallback, fallbackOutcome, fallbackOptions.
  destruct (generateImageFromText _ _ _ _ w) as [[imgs|ie] w']; reflexivity.
Qed.

Lemma fallbackOutcome_nonempty p options (w : World Σ) imgs :
  fallbackOutcome p options w = Fulfilled imgs -> imgs <> [].
Proof.
  unfold fallbackOutcome.
  destruct (generateImageFromText _ _ _ _ w) as [r w'] eqn:E. simpl.
  intros ->. eapply generateImageFromText_nonempty; eauto.
Qed.

End VideoProperties.

(** * Statements about [generateVideo] *)

Section VideoStatements.
Context {Σ : Type} `{Environment Σ}.

Lemma keyed_uris_map results :
  omap keyed_uri results = map (appendKey api_key_text) (omap branch_uri results).
Proof.
  induction results as [|res results IH]; [reflexivity|].
  change (omap keyed_uri (res :: results))
    with (match keyed_uri res with
          | Some y => y :: omap keyed_uri results
          | None => omap keyed_uri results
          end).
  change (omap branch_uri (res :: results))
    with (match branch_uri res with
          | Some y => y :: omap branch_uri results
          | None => omap branch_uri results
          end).
  unfold keyed_uri at 1. destruct (branch_uri res); simpl; now rewrite IH.
Qed.




Lemma fanOut_inv p schedule (w : World Σ) :
  pool_inv (branches p) (fanOut p schedule w).
Proof. apply (pool_run_inv (videoBranch (inputs p))), pool_init_inv. Qed.

Lemma fanOut_settled p schedule (w : World Σ) results :
  promises (fanOut p schedule w) = map Finished results <->
  allSettled (fanOut p schedule w) = Some results.
Proof.
  symmetry.
  exact (allSettled_spec (videoBranch (inputs p)) _ _ _ (fanOut_inv p schedule w)).
Qed.

(** C1, amended.  A request that cannot be prepared (no API key, a
    reference image that cannot be converted) ends with that one error.
    Otherwise, once every branch of the fan-out has settled, the caller
    does receive an outcome: a result, which then has at least one
    artifact, iff some branch succeeded (contributed a video URI) or the
    image fallback succeeded, and one error otherwise.  So when no branch
    succeeds and the fallback fails the outcome is an error, never an
    empty result. *)
Theorem generateVideo_result_iff
    prompt model options img vid refs schedule (w : World Σ) :
  match prepare prompt model options img vid refs w with
  | (Rejected e, w1) =>
      generateVideo prompt model options img vid refs schedule w
      = Some (Rejected e, w1)
  | (Fulfilled p, w1) =>
      forall results,
        promises (fanOut p schedule w1) = map Finished results ->
        exists out w',
          generateVideo prompt model options img vid refs schedule w
          = Some (out, w')
          /\ (is_fulfilled out = true <->
              Exists branch_succeeded results
              \/ is_fulfilled
                   (fallbackOutcome p options (pool_world (fanOut p schedule w1)))
                 = true)
          /\ (forall r, out = Fulfilled r ->
              artifacts r <> [] /\ is_Some (result_uri r))
          /\ (is_fulfilled out = false -> exists e, out = Rejected e)
  end.
Proof.
  unfold generateVideo.
  destruct (prepare prompt model options img vid refs w) as [[p|e] w1] eqn:Hp;
    [|reflexivity].
  intros results Hr. apply fanOut_settled in Hr. rewrite Hr.
  pose proof (try_block_cases results) as Ht.
  destruct (fst (collect results)) as [|u l] eqn:Hu.
  - destruct Ht as [e Ht]. rewrite Ht.
    pose proof (fallback_outcome p options e (pool_world (fanOut p schedule w1)))
      as Hout.
    destruct (fallback p options e (pool_world (fanOut p schedule w1)))
      as [out w'].
    simpl in Hout. exists out, w'. split; [reflexivity|].
    assert (Hnone : ~ Exists branch_succeeded results).
    { rewrite <- some_uri_iff. intros Hn. now apply Hn. }
    destruct (fallbackOutcome p options (pool_world (fanOut p schedule w1)))
      as [imgs|ie] eqn:Hfo.
    + pose proof (fallbackOutcome_nonempty _ _ _ _ Hfo) as Hne.
      destruct imgs as [|i0 imgs]; [congruence|]. subst out. simpl.
      split; [split; auto|]. split; [|discriminate].
      intros r Hr'. injection Hr' as <-. unfold artifacts; simpl.
      split; [discriminate | eauto].
    + subst out. simpl. split; [|split; [discriminate | eauto]].
      split; [discriminate|]. intros [He | Hf']; [contradiction | discriminate].
  - rewrite Ht. eexists _, _. split; [reflexivity|]. simpl.
    split; [|split; [|discriminate]].
    + split; [|reflexivity]. intros _. left. apply some_uri_iff. rewrite Hu.
      discriminate.
    + intros r Hr'. injection Hr' as <-. unfold artifacts; simpl.
      split; [discriminate | eauto].
Qed.


(** C8.  When the primary path fails with error [e] (the reason of the
    first rejected branch when it is truthy, the "No valid URIs" error
    otherwise) and the image fallback fails too, [generateVideo] rejects
    with an error whose message says that both paths failed and ends with
    the message of [e]; the fallback's own error does not appear in it. *)
Theorem combined_error_carries_primary
    prompt model options img vid refs schedule (w : World Σ) p w1 results e :
  prepare prompt model options img vid refs w = (Fulfilled p, w1) ->
  allSettled (fanOut p schedule w1) = Some results ->
  try_block results = Rejected e ->
  is_fulfilled (fallbackOutcome p options (pool_world (fanOut p schedule w1))) = false ->
  (exists w',
     generateVideo prompt model options img vid refs schedule w
     = Some (Rejected (newError (combinedMessage e)), w'))
  /\ getErrorMessage (newError (combinedMessage e))
     = Text ("Video generation failed and Image fallback also failed: "
             +:+ toText (getErrorMessage e))
  /\ (forall reason, firstError results = Some reason -> truthy reason = true ->
      e = reason)
  /\ (firstError results = None ->
      e = newError "Video generation failed (No valid URIs).").
Proof.
  intros Hp Ha Ht Hf. repeat split.
  - unfold generateVideo. rewrite Hp, Ha, Ht.
    pose proof (fallback_outcome p options e (pool_world (fanOut p schedule w1))) as Ho.
    destruct (fallbackOutcome _ _ _) as [imgs|ie]; [discriminate|].
    destruct (fallback p options e _) as [out w']. simpl in Ho. subst out. eauto.
  - intros reason Hr Htr. unfold try_block in Ht.
    destruct (collect results) as [[|u l] meta]; [|discriminate].
    rewrite Hr, Htr in Ht. congruence.
  - intros Hr. unfold try_block in Ht.
    destruct (collect results) as [[|u l] meta]; [|discriminate].
    rewrite Hr in Ht. congruence.
Qed.

(** C10.  In a result that is not the fallback, [uris] lists the
    service-returned URIs of the successful branches, each followed by
    ["&key="] and the configured API key, and [uri] is the first of them. *)
Theorem video_uris_embed_api_key
    prompt model options img vid refs schedule (w : World Σ) r w' :
  generateVideo prompt model options img vid refs schedule w = Some (Fulfilled r, w') ->
  isFallbackImage r = Some false ->
  exists key p w1 results,
    API_KEY = Some key /\ key <> ""
    /\ prepare prompt model options img vid refs w = (Fulfilled p, w1)
    /\ allSettled (fanOut p schedule w1) = Some results
    /\ uris r = Some (map (appendKey key) (omap branch_uri results))
    /\ result_uri r = head (map (appendKey key) (omap branch_uri results)).
Proof.
  unfold generateVideo.
  destruct (prepare prompt model options img vid refs w) as [[p|e] w1] eqn:Hp;
    [|discriminate].
  destruct (allSettled (fanOut p schedule w1)) as [results|] eqn:Ha; [|discriminate].
  pose proof (prepare_client _ _ _ _ _ _ _ _ _ Hp) as Hc.
  destruct (getClient_key Hc) as (key & Hkey & Hne & Htext).
  pose proof (try_block_cases results) as Ht.
  rewrite collect_uris, keyed_uris_map, Htext in Ht.
  destruct (map (appendKey key) (omap branch_uri results)) as [|u l] eqn:Hu.
  - destruct Ht as [e Ht]. rewrite Ht. intros Hg Hfb. exfalso.
    injection Hg as Hg.
    pose proof (f_equal fst Hg) as Ho. rewrite fallback_outcome in Ho. simpl in Ho.
    destruct (fallbackOutcome _ _ _); [|discriminate].
    injection Ho as <-. discriminate.
  - rewrite Ht. intros Hg _. injection Hg as <- _.
    exists key, p, w1, results. simpl. rewrite Hu. repeat split; auto.
Qed.

Lemma prepare_branches prompt model options img vid refs (w : World Σ) p w1 k :
  prepare prompt model options img vid refs w = (Fulfilled p, w1) ->
  count options = Some k -> 0 < k ->
  branches p = Z.to_nat k.
Proof.
  unfold prepare. destruct getClient; [|discriminate].
  destruct (prepareImage img w) as [[image final] w0].
  destruct (prepareReferences model refs w0) as [[cfg|e] w2]; [|discriminate].
  intros Heq Hk Hpos. injection Heq as <- _. simpl. rewrite Hk.
  destruct k; try lia; reflexivity.
Qed.

(** C2.  For a video request with [count = k], under every schedule of
    the event loop, that is every order in which the branches are resumed
    and complete:
    - the [k] jobs are submitted first, one per branch and in branch order,
      before any answer is handled;
    - there are [k] promises; each resumption of the schedule runs its own
      branch by one step, also when a sibling has failed, and leaves the
      promise of every other branch as it was;
    - the caller is resumed exactly when all [k] promises have settled;
    - then there are [k] outcomes, one per branch at its index, the order
      of completion being some permutation of the indices, and when a
      branch succeeded the returned artifact list is the URIs of exactly
      the successful branches in branch order. *)
Theorem fanOut_outcomes_by_index
    prompt model options img vid refs (w : World Σ) p w1 k schedule :
  prepare prompt model options img vid refs w = (Fulfilled p, w1) ->
  count options = Some k -> 0 < k ->
  let branch := videoBranch (inputs p) in
  let pool := fanOut p schedule w1 in
  (exists rest,
      log (pool_world pool)
      = log w1 ++ replicate (Z.to_nat k) (EvGenerateVideos (inputs p)) ++ rest)
  /\ length (promises pool) = Z.to_nat k
  /\ (forall b, fanOut p (schedule ++ [b]) w1 = pool_step branch b pool)
  /\ (forall b b',
       b <> b' -> promises (pool_step branch b' pool) !! b = promises pool !! b)
  /\ (forall b f,
       promises pool !! b = Some (Running f) ->
       promises (pool_step branch b pool) !! b
       = Some (fst (resume branch f (pool_world pool))))
  /\ (is_Some (generateVideo prompt model options img vid refs schedule w) <->
      exists results, promises pool = map Finished results)
  /\ (forall results,
       promises pool = map Finished results ->
       length results = Z.to_nat k
       /\ settle_order pool ≡ₚ seq 0 (Z.to_nat k)
       /\ (Exists branch_succeeded results ->
           exists r,
             generateVideo prompt model options img vid refs schedule w
             = Some (Fulfilled r, pool_world pool)
             /\ uris r = Some (omap keyed_uri results)
             /\ result_uri r = head (omap keyed_uri results)
             /\ isFallbackImage r = Some false)).
Proof.
  intros Hp Hk Hpos branch pool.
  rewrite <- (prepare_branches _ _ _ _ _ _ _ _ _ _ Hp Hk Hpos).
  pose proof (fanOut_inv p schedule w1) as Hinv.
  split; [apply fanOut_log|]. split; [apply Hinv|].
  split; [|split; [|split; [|split]]].
  - intros b. unfold pool, fanOut.
    exact (pool_run_app branch schedule [b] (pool_init branch (branches p) w1)).
  - intros b b' Hne. now apply (pool_step_other branch).
  - intros b f Hb. now apply (pool_step_self branch).
  - unfold generateVideo. rewrite Hp. fold pool. split.
    + destruct (allSettled pool) as [results|] eqn:Ha.
      * intros _. exists results. now apply fanOut_settled.
      * intros [x Hx]. discriminate.
    + intros [results Hr]. apply fanOut_settled in Hr.
      unfold pool in Hr |- *. rewrite Hr. destruct (try_block results); eauto.
  - intros results Hr.
    assert (Hlen : length results = branches p).
    { pose proof (f_equal length Hr) as Hl. rewrite length_map in Hl.
      destruct Hinv as [Hlen _]. exact (eq_trans (eq_sym Hl) Hlen). }
    split; [exact Hlen|]. split.
    + assert (Ho : order_inv pool).
      { apply (pool_run_order branch), pool_init_order. }
      unfold order_inv in Ho. rewrite Ho.
      assert (Hs : settled_indices 0 (promises pool)
                   = seq 0 (length results)).
      { exact (eq_trans (f_equal (settled_indices 0) Hr)
                 (settled_indices_all branch 0 results)). }
      now rewrite Hs, Hlen.
    + intros Hex. apply some_uri_iff in Hex.
      pose proof (try_block_cases results) as Ht. rewrite collect_uris in Ht, Hex.
      apply fanOut_settled in Hr.
      destruct (omap keyed_uri results) as [|u l] eqn:Hu; [congruence|].
      eexists. unfold generateVideo. rewrite Hp. fold pool.
      unfold pool at 1. rewrite Hr, Ht. split; [reflexivity|]. simpl. auto.
Qed.

End VideoStatements.

(** * Statements about the executor, the normaliser and the facades *)

Section FacadeStatements.
Context {Σ : Type} `{Environment Σ}.

(** C3.  Where the executor departs from the specification: an attempt
    that rejects with a value on which the test of the [catch] block
    itself raises ([null], [undefined], or a value whose message is not a
    string, none of them RETRYABLE or FATAL by that test).  The executor
    then rejects at once, with no retry and no delay, and with the
    engine's [TypeError] in place of the reason. *)
Theorem rejection_replaced_by_type_error {T} (operation : Async Σ T)
    (maxRetries baseDelay : Z) (w w1 : World Σ) (e : Thrown)
    (cause : TypeErrorCause) :
  0 < maxRetries ->
  Settles operation (start operation) w (Rejected e) w1 ->
  isOverloaded e = Raises cause ->
  let executor := retryWithBackoff operation maxRetries baseDelay in
  Settles executor (start executor) w (Rejected (typeError cause)) w1
  /\ typeError cause <> e
  /\ classify e = None
  /\ (e = Null \/ e = Undefined \/ exists shown, getErrorMessage e = Other shown).
Proof.
  intros Hmax Hs Hc executor.
  pose proof (executor_follows_attempt operation maxRetries baseDelay
                (start operation) w (Rejected e) w1 Hs 0 Undefined Hmax) as Hf.
  simpl in Hf. rewrite Hc in Hf. split; [exact Hf|].
  split; [|split; [unfold classify; now rewrite Hc|]].
  - intros Heq. subst e. unfold isOverloaded, typeError, newError in Hc.
    simpl in Hc. destruct (typeErrorMessage cause); discriminate.
  - unfold isOverloaded in Hc.
    destruct (getErrorMessage e) as [m|shown] eqn:Em; [|eauto].
    destruct e as [| | |s|o]; try discriminate; auto.
Qed.

(** For the errors that the test of the [catch] block classifies, the
    executor does what the specification's [Backoff] relation says: it
    returns the first success; it propagates an error at once, without
    delay, when the error is FATAL or the attempt was the last of
    [maxRetries]; and after a RETRYABLE error with attempts remaining it
    suspends for [baseDelay * 2 ^ i] and retries.  So at most [maxRetries]
    attempts are made and the delays are [baseDelay], [2 * baseDelay], ...
    In particular a FATAL first error is propagated after that one
    attempt, and with [maxRetries = 3] three RETRYABLE errors in a row
    cost the delays [baseDelay * 2 ^ 0] and [baseDelay * 2 ^ 1] and end
    with the third error.  The attempt index of the running executor
    never reaches [maxRetries]. *)
Theorem backoff_executor_spec {T} (operation : Async Σ T)
    (maxRetries baseDelay : Z) (w : World Σ) :
  0 < maxRetries ->
  let executor := retryWithBackoff operation maxRetries baseDelay in
  (forall delays r w',
      Backoff operation maxRetries baseDelay 0 w delays r w' ->
      Settles executor (start executor) w r w'
      /\ 1 + Z.of_nat (length delays) <= maxRetries
      /\ delays = exponential baseDelay 0 (length delays))
  /\ (forall e w1,
      Settles operation (start operation) w (Rejected e) w1 ->
      classify e = Some FATAL ->
      Settles executor (start executor) w (Rejected e) w1)
  /\ (maxRetries = 3 ->
      forall e0 w0 e1 w1 e2 w2 c,
        Settles operation (start operation) w (Rejected e0) w0 ->
        classify e0 = Some RETRYABLE ->
        Settles operation (start operation) (wait (baseDelay * 2 ^ 0) w0)
          (Rejected e1) w1 ->
        classify e1 = Some RETRYABLE ->
        Settles operation (start operation) (wait (baseDelay * 2 ^ 1) w1)
          (Rejected e2) w2 ->
        classify e2 = Some c ->
        Settles executor (start executor) w (Rejected e2) w2)
  /\ (forall (f f' : RetryFrame (Frame operation)) w0 w1,
      attempt f < maxRetries ->
      resume executor f w0 = (Running f', w1) ->
      attempt f <= attempt f' < maxRetries).
Proof.
  intros Hmax executor. split; [|split; [|split]].
  - intros delays r w' Hb. split.
    + exact (backoff_refines operation maxRetries baseDelay 0 w delays r w' Hb Hmax Undefined).
    + destruct (backoff_delays operation maxRetries baseDelay 0 w delays r w' Hb Hmax)
        as [Hlen Hexp].
      split; [lia | exact Hexp].
  - intros e w1 Hs Hc.
    apply (backoff_refines operation maxRetries baseDelay 0 w [] (Rejected e) w1);
      [|exact Hmax].
    eapply backoff_propagate; eauto.
  - intros -> e0 w0 e1 w1 e2 w2 c Hs0 Hc0 Hs1 Hc1 Hs2 Hc2.
    apply (backoff_refines operation 3 baseDelay 0 w
             [baseDelay * 2 ^ 0; baseDelay * 2 ^ (0 + 1)] (Rejected e2) w2);
      [|lia].
    apply (backoff_retry operation 3 baseDelay 0 w e0 w0 _ _ _ Hs0 Hc0); [lia|].
    apply (backoff_retry operation 3 baseDelay (0 + 1) _ e1 w1 [] _ _ Hs1 Hc1); [lia|].
    apply (backoff_propagate operation 3 baseDelay (0 + 1 + 1) _ e2 c w2 Hs2 Hc2).
    right. reflexivity.
  - intros f f' w0 w1 Hf. simpl. unfold retry_resume.
    apply Z.ltb_lt in Hf as Hf'. rewrite Hf'.
    destruct (resume operation (inner f) w0) as [[g|[v|e]] w2].
    + intros Heq. injection Heq as <- _. simpl. lia.
    + discriminate.
    + destruct (isOverloaded e) as [cause|ov]; [discriminate|].
      destruct (attempt f <? maxRetries - 1) eqn:Hlt;
        [|rewrite andb_false_r; discriminate].
      destruct ov; [|discriminate]. simpl.
      intros Heq. injection Heq as <- _. simpl. apply Z.ltb_lt in Hlt. lia.
Qed.

(** C7.  An embedded payload whose mime type is image/png, image/jpeg or
    image/jpg comes back from the normaliser as it went in: the payload
    and the mime type of the envelope, the whole input as [fullDataUri],
    and an untouched world (no image is loaded, nothing is re-encoded). *)
Theorem normalizer_supported_payload_unchanged :
  forall (fmt payload : string) (w : World Σ),
    In fmt supported_formats ->
    convertImageToCompatibleFormat
      ("data:image/" +:+ fmt +:+ ";base64," +:+ payload) w
    = (Fulfilled {| compat_data := payload;
                    compat_mimeType := "image/" +:+ fmt;
                    fullDataUri := "data:image/" +:+ fmt +:+ ";base64," +:+ payload |},
       w).
Proof.
  intros fmt payload w Hin.
  unfold supported_formats in Hin. simpl in Hin.
  destruct Hin as [<- | [<- | [<- | []]]]; reflexivity.
Qed.

(** C5, amended.  With an API key configured, [generateImageFromText]
    issues exactly one image-generation call, whatever [options.count]
    is; it returns the images of that one response when there is at least
    one, and fails with an error when the call fails or the response holds
    no image. *)
Theorem image_generation_single_call
    prompt model inputImages options (w : World Σ) key :
  API_KEY = Some key -> key <> "" ->
  let request := imageRequest prompt model inputImages in
  let answer := fst (svc_generateContent request (service w)) in
  let '(r, w') := generateImageFromText prompt model inputImages options w in
  log w' = log w ++ [EvGenerateContent request]
  /\ contentCalls (log w') = S (contentCalls (log w))
  /\ match answer with
     | Fulfilled response =>
         match parse_images response with
         | [] => exists e, r = Rejected e
         | images => r = Fulfilled images
         end
     | Rejected e => r = Rejected (newError (toText (getErrorMessage e)))
     end.
Proof.
  intros Hkey Hne request answer.
  assert (Hc : getClient = Fulfilled tt).
  { unfold getClient. rewrite Hkey. destruct key; [congruence | reflexivity]. }
  rewrite (generateImageFromText_spec _ _ _ _ _ Hc). fold request. fold answer.
  simpl. repeat split.
  - rewrite contentCalls_app.
    change (contentCalls [EvGenerateContent request]) with 1%nat. lia.
  - destruct answer as [response|e]; [|reflexivity].
    destruct (parse_images response); eauto.
Qed.

Lemma startsWith_app s pat rest :
  startsWith s (pat +:+ rest) = true -> startsWith s pat = true.
Proof.
  revert s. induction pat as [|c pat IH]; intros s; [reflexivity|].
  destruct s as [|d s]; simpl; [discriminate|].
  destruct (Ascii.eqb c d); simpl; [apply IH | discriminate].
Qed.

Lemma remote_is_no_envelope kind cls input :
  startsWith input "data:" = false -> match_data_uri kind cls input = None.
Proof.
  intros Hs. unfold match_data_uri, strip_prefix.
  destruct (startsWith input ("data:" +:+ kind +:+ "/")) eqn:E; [|reflexivity].
  apply startsWith_app in E. congruence.
Qed.

(** C9, amended.  [analyzeVideo] rejects every input that does not start
    with ["data:"] without calling the service, with the "Direct URL
    analysis not implemented" error when an API key is configured.
    [transcribeAudio] has no such check: with an API key configured it
    forwards such an input to the service as the data of an audio/wav
    part, in one [generateContent] call, and returns what the service
    answers. *)
Theorem analysis_rejects_remote_transcription_forwards :
  (forall (input prompt model : string) (w : World Σ),
      startsWith input "data:" = false ->
      (exists e, analyzeVideo input prompt model w = (Rejected e, w))
      /\ (getClient = Fulfilled tt ->
          analyzeVideo input prompt model w
          = (Rejected (newError
               "Direct URL analysis not implemented in this demo. Please use uploaded videos."),
             w)))
  /\ (forall (input : string) (w : World Σ),
      getClient = Fulfilled tt ->
      startsWith input "data:" = false ->
      let request :=
        {| content_model := "gemini-2.5-flash";
           content_parts :=
             [InlinePart {| data := input; mimeType := "audio/wav" |};
              TextPart "Transcribe this audio strictly verbatim."] |} in
      log (snd (transcribeAudio input w)) = log w ++ [EvGenerateContent request]
      /\ fst (transcribeAudio input w)
         = match fst (svc_generateContent request (service w)) with
           | Fulfilled response =>
               Fulfilled (default "" (nonempty (response_text response)))
           | Rejected e => Rejected e
           end).
Proof.
  split.
  - intros input prompt model w Hs. unfold analyzeVideo.
    destruct getClient as [[]|e]; [rewrite Hs; split; eauto | split; [eauto | discriminate]].
  - intros input w Hc Hs request. unfold transcribeAudio.
    rewrite Hc. unfold mime_or, strip_envelope.
    rewrite (remote_is_no_envelope _ _ _ Hs). fold request.
    rewrite call_world.
    destruct (fst (svc_generateContent request (service w))); split; reflexivity.
Qed.

End FacadeStatements.

(** * The audio container encoder *)

Lemma Z_of_byte_of_Z v : Z_of_byte (byte_of_Z v) = v mod 256.
Proof.
  unfold Z_of_byte, byte_of_Z.
  assert (Hr : 0 <= v mod 256 < 256) by (apply Z.mod_pos_bound; lia).
  destruct (Byte.of_N (Z.to_N (v mod 256))) as [b|] eqn:E; simpl.
  - apply Byte.to_of_N in E. rewrite E. lia.
  - apply Byte.of_N_None_iff in E. lia.
Qed.

Lemma le16_roundtrip v :
  0 <= v < 2 ^ 16 ->
  v mod 256 + 2 ^ 8 * (Z.shiftr v 8 mod 256) = v.
Proof.
  intros Hv. rewrite Z.shiftr_div_pow2 by lia.
  change (2 ^ 8) with 256. change (2 ^ 16) with 65536 in Hv.
  Z.div_mod_to_equations. lia.
Qed.

Lemma le32_roundtrip v :
  0 <= v < 2 ^ 32 ->
  v mod 256 + 2 ^ 8 * (Z.shiftr v 8 mod 256)
  + 2 ^ 16 * (Z.shiftr v 16 mod 256) + 2 ^ 24 * (Z.shiftr v 24 mod 256) = v.
Proof.
  intros Hv. rewrite !Z.shiftr_div_pow2 by lia.
  change (2 ^ 8) with 256. change (2 ^ 16) with 65536.
  change (2 ^ 24) with 16777216. change (2 ^ 32) with 4294967296 in Hv.
  Z.div_mod_to_equations. lia.
Qed.

Lemma wavHeader_bytes totalLength sampleRate :
  wavHeader totalLength sampleRate =
  let size := (36 + totalLength) mod 2 ^ 32 in
  let rate := sampleRate mod 2 ^ 32 in
  let byteRate := (sampleRate * 1 * (16 / 8)) mod 2 ^ 32 in
  let len := totalLength mod 2 ^ 32 in
  [ "R"; "I"; "F"; "F";
    byte_of_Z size; byte_of_Z (Z.shiftr size 8);
    byte_of_Z (Z.shiftr size 16); byte_of_Z (Z.shiftr size 24);
    "W"; "A"; "V"; "E"; "f"; "m"; "t"; " ";
    x10; x00; x00; x00; x01; x00; x01; x00;
    byte_of_Z rate; byte_of_Z (Z.shiftr rate 8);
    byte_of_Z (Z.shiftr rate 16); byte_of_Z (Z.shiftr rate 24);
    byte_of_Z byteRate; byte_of_Z (Z.shiftr byteRate 8);
    byte_of_Z (Z.shiftr byteRate 16); byte_of_Z (Z.shiftr byteRate 24);
    x02; x00; x10; x00;
    "d"; "a"; "t"; "a";
    byte_of_Z len; byte_of_Z (Z.shiftr len 8);
    byte_of_Z (Z.shiftr len 16); byte_of_Z (Z.shiftr len 24) ]%byte.
Proof. reflexivity. Qed.

Lemma wavHeader_length totalLength sampleRate :
  length (wavHeader totalLength sampleRate) = 44%nat.
Proof. rewrite wavHeader_bytes. reflexivity. Qed.

Lemma totalLength_concat (arrays : list (list byte)) :
  totalLength_of arrays = length (concat arrays).
Proof.
  unfold totalLength_of.
  enough (Hgen : forall n, fold_left (fun total arr => (total + length arr)%nat) arrays n
                           = (n + length (concat arrays))%nat) by apply (Hgen 0%nat).
  induction arrays as [|arr arrays IH]; intros n; simpl; [lia|].
  rewrite IH, length_app. lia.
Qed.

Lemma set_array_fresh (filled source : list byte) n :
  (length source <= n)%nat ->
  set_array (filled ++ newUint8Array n) source (length filled)
  = (filled ++ source) ++ newUint8Array (n - length source).
Proof.
  intros Hn. unfold set_array, newUint8Array.
  rewrite take_app_length. rewrite drop_app_add, drop_replicate. now rewrite <- app_assoc.
Qed.

Lemma merge_concat (arrays : list (list byte)) : merge arrays = concat arrays.
Proof.
  unfold merge. rewrite totalLength_concat.
  enough (Hgen : forall (filled : list byte) n,
    (length (concat arrays) <= n)%nat ->
    fst (fold_left
           (fun '(merged, offset) arr =>
              (set_array merged arr offset, (offset + length arr)%nat))
           arrays (filled ++ newUint8Array n, length filled))
    = filled ++ concat arrays ++ newUint8Array (n - length (concat arrays))).
  { specialize (Hgen [] (length (concat arrays)) (le_n _)). simpl in Hgen.
    rewrite Hgen, Nat.sub_diag. apply app_nil_r. }
  induction arrays as [|arr arrays IH]; intros filled n Hn; simpl in *.
  - now rewrite Nat.sub_0_r.
  - rewrite length_app in Hn.
    assert (Hle : (length arr <= n)%nat) by lia.
    rewrite (set_array_fresh filled arr n Hle). rewrite <- length_app.
    rewrite IH by lia. rewrite length_app, <- !app_assoc.
    do 3 f_equal. unfold newUint8Array. f_equal. lia.
Qed.

Lemma set_array_start (source : list byte) n :
  (length source <= n)%nat ->
  set_array (newUint8Array n) source 0 = source ++ newUint8Array (n - length source).
Proof. intros Hn. exact (set_array_fresh [] source n Hn). Qed.

Lemma wavFile_layout (arrays : list (list byte)) sampleRate :
  wavFile arrays sampleRate
  = wavHeader (Z.of_nat (length (concat arrays))) sampleRate ++ concat arrays.
Proof.
  unfold wavFile. rewrite merge_concat, totalLength_concat.
  generalize (wavHeader (Z.of_nat (length (concat arrays))) sampleRate).
  intros header.
  rewrite set_array_start by lia.
  replace (length header + length (concat arrays) - length header)%nat
    with (length (concat arrays)) by lia.
  rewrite set_array_fresh by lia.
  rewrite Nat.sub_diag. apply app_nil_r.
Qed.

Lemma string_of_list_byte_app (l1 l2 : list byte) :
  string_of_list_byte (l1 ++ l2) = string_of_list_byte l1 +:+ string_of_list_byte l2.
Proof.
  induction l1 as [|b l1 IH]; [reflexivity|].
  change (String (ascii_of_byte b) (string_of_list_byte (l1 ++ l2))
          = String (ascii_of_byte b) (string_of_list_byte l1 +:+ string_of_list_byte l2)).
  now rewrite IH.
Qed.

Lemma chunk_pos : (0 < chunk)%nat.
Proof. unfold chunk. lia. Qed.

Lemma binaryString_all fuel (wavFile : list byte) :
  (length wavFile <= fuel)%nat ->
  binaryString fuel wavFile = string_of_list_byte wavFile.
Proof.
  revert wavFile. induction fuel as [|fuel IH]; intros l Hl.
  - destruct l; [reflexivity | simpl in Hl; lia].
  - destruct l as [|b l]; [reflexivity|].
    change (binaryString (S fuel) (b :: l))
      with (string_of_list_byte (take chunk (b :: l))
            +:+ binaryString fuel (drop chunk (b :: l))).
    rewrite IH.
    + rewrite <- string_of_list_byte_app. now rewrite take_drop.
    + rewrite length_drop. pose proof chunk_pos. simpl in *. lia.
Qed.

Section Base64Properties.
Variable atob : string -> Settled string.
Variable btoa : string -> string.

Lemma decodeChunks_each chunks arrays :
  Forall2 (fun chunk arr => base64ToUint8Array atob chunk = Fulfilled arr) chunks arrays ->
  decodeChunks atob chunks = Fulfilled arrays.
Proof.
  induction 1 as [|chunk arr chunks arrays Hd _ IH]; simpl; [reflexivity|].
  now rewrite Hd, IH.
Qed.

(** C6.  When the chunks decode to the byte arrays [arrays], of total
    length [L], and the sizes fit the 32-bit fields of the header
    ([36 + L < 2 ^ 32], [0 <= sampleRate < 2 ^ 31]), the encoder returns the
    base64 data URI of a file that is a 44-byte header followed by the
    arrays concatenated in input order.  Read as little-endian fields, the
    header says: "RIFF", file size [36 + L], "WAVE", "fmt ", chunk size
    16, format 1 (PCM), 1 channel, the sample rate, byte rate
    [sampleRate * 1 * 2], block align 2, 16 bits per sample, "data", data
    length [L]. *)
Theorem wav_container_layout chunks arrays sampleRate :
  Forall2 (fun chunk arr => base64ToUint8Array atob chunk = Fulfilled arr) chunks arrays ->
  let L := Z.of_nat (length (concat arrays)) in
  36 + L < 2 ^ 32 ->
  0 <= sampleRate < 2 ^ 31 ->
  let file := wavFile arrays sampleRate in
  let header := take 44 file in
  combineBase64Chunks atob btoa chunks sampleRate
  = Fulfilled ("data:audio/wav;base64," +:+ btoa (string_of_list_byte file))
  /\ length file = (44 + length (concat arrays))%nat
  /\ drop 44 file = concat arrays
  /\ length header = 44%nat
  /\ take 4 header = ["R"; "I"; "F"; "F"]%byte
  /\ getUint32LE header 4 = 36 + L
  /\ take 8 (drop 8 header) = ["W"; "A"; "V"; "E"; "f"; "m"; "t"; " "]%byte
  /\ getUint32LE header 16 = 16
  /\ getUint16LE header 20 = 1
  /\ getUint16LE header 22 = 1
  /\ getUint32LE header 24 = sampleRate
  /\ getUint32LE header 28 = sampleRate * 1 * 2
  /\ getUint16LE header 32 = 2
  /\ getUint16LE header 34 = 16
  /\ take 4 (drop 36 header) = ["d"; "a"; "t"; "a"]%byte
  /\ getUint32LE header 40 = L.
Proof.
  intros Hdec L HL Hrate file header.
  assert (Hfile : file = wavHeader L sampleRate ++ concat arrays)
    by apply wavFile_layout.
  assert (Hheader : header = wavHeader L sampleRate).
  { unfold header. rewrite Hfile.
    apply take_app_length'. symmetry. apply wavHeader_length. }
  split.
  { unfold combineBase64Chunks. rewrite (decodeChunks_each _ _ Hdec).
    fold file. now rewrite binaryString_all. }
  split. { rewrite Hfile, length_app, wavHeader_length. reflexivity. }
  split.
  { rewrite Hfile. apply drop_app_length'. symmetry. apply wavHeader_length. }
  rewrite Hheader. split. { apply wavHeader_length. }
  rewrite wavHeader_bytes.
  assert (HL0 : 0 <= L) by (unfold L; lia).
  change (2 ^ 32) with 4294967296 in *. change (2 ^ 31) with 2147483648 in *.
  cbv zeta.
  rewrite (Z.mod_small (36 + L)) by lia.
  rewrite (Z.mod_small sampleRate) by lia.
  change (16 / 8) with 2.
  rewrite (Z.mod_small (sampleRate * 1 * 2)) by lia.
  rewrite (Z.mod_small L) by lia.
  unfold getUint32LE, getUint16LE, getUint8. simpl lookup. cbv iota.
  rewrite !Z_of_byte_of_Z.
  repeat split; try reflexivity.
  - apply le32_roundtrip. change (2 ^ 32) with 4294967296. lia.
  - apply le32_roundtrip. change (2 ^ 32) with 4294967296. lia.
  - apply le32_roundtrip. change (2 ^ 32) with 4294967296. lia.
  - apply le32_roundtrip. change (2 ^ 32) with 4294967296. lia.
Qed.

End Base64Properties.


(** * Example runs of the statements *)

(** [generateVideo] returns exactly when every branch has settled. *)
Lemma generateVideo_returns_iff {Σ : Type} `{Environment Σ}
    prompt model options img vid refs schedule (w : World Σ) p w1 :
  prepare prompt model options img vid refs w = (Fulfilled p, w1) ->
  is_Some (generateVideo prompt model options img vid refs schedule w)
  <-> exists results, promises (fanOut p schedule w1) = map Finished results.
Proof.
  intros Hp. unfold generateVideo. rewrite Hp.
  assert (Hinv : pool_inv (branches p) (fanOut p schedule w1)).
  { apply (pool_run_inv (videoBranch (inputs p))), pool_init_inv. }
  split.
  - destruct (allSettled (fanOut p schedule w1)) as [results|] eqn:Ha.
    + intros _. exists results. now apply (allSettled_spec (videoBranch (inputs p)) _ _ _ Hinv).
    + intros [x Hx]. discriminate.
  - intros [results Hr].
    apply (allSettled_spec (videoBranch (inputs p)) _ _ _ Hinv) in Hr.
    destruct (allSettled (fanOut p schedule w1)) as [rs|] eqn:Ha.
    + destruct (try_block rs); eauto.
    + exfalso. assert (Hn : None = Some results) by (rewrite <- Ha; exact Hr).
      discriminate.
Qed.

Lemma generateVideo_returns_iff_witness :
  is_Some (demoVideo twoBranches 2 [0; 1]%nat).
Proof.
  apply (proj2 (@generateVideo_returns_iff Script demoEnv "a cat" "veo-3"
                  (withCount 2) (Some demoImage) None None [0; 1]%nat
                  (world0 twoBranches) (demoPrepared 2) (world0 twoBranches)
                  eq_refl)).
  exists [Rejected serverError;
          Fulfilled (finishedVideo "op1" "https://v/1?alt=media")].
  reflexivity.
Defined.

(** Three videos asked for; branch 2 settles first, then 0, then 1.  The
    jobs were submitted in branch order and the artifacts come back in
    branch order all the same. *)
Lemma fanOut_outcomes_by_index_witness :
  settle_order (@fanOut Script demoEnv (demoPrepared 3) [2; 0; 1]%nat
                  (world0 threeVideos))
  = [2; 0; 1]%nat
  /\ exists r w',
       demoVideo threeVideos 3 [2; 0; 1]%nat = Some (Fulfilled r, w')
       /\ uris r = Some ["https://v/first?alt=media&key=KEY";
                         "https://v/second?alt=media&key=KEY";
                         "https://v/third?alt=media&key=KEY"]
       /\ isFallbackImage r = Some false.
Proof.
  split; [vm_compute; reflexivity|].
  pose proof (@fanOut_outcomes_by_index Script demoEnv "a cat" "veo-3"
                (withCount 3) (Some demoImage) None None (world0 threeVideos)
                (demoPrepared 3) (world0 threeVideos) 3 [2; 0; 1]%nat
                eq_refl eq_refl ltac:(lia)) as Hw.
  cbv zeta in Hw. destruct Hw as (_ & _ & _ & _ & _ & _ & Hres).
  destruct (Hres [Fulfilled (finishedVideo "first" "https://v/first?alt=media");
                  Fulfilled (finishedVideo "second" "https://v/second?alt=media");
                  Fulfilled (finishedVideo "third" "https://v/third?alt=media")]
              eq_refl) as (_ & _ & Hout).
  destruct Hout as (r & Hg & Hu & _ & Hf).
  - left. eexists. reflexivity.
  - exists r. eexists. split; [exact Hg|]. split; [|exact Hf].
    rewrite Hu. reflexivity.
Defined.

(** A request for two videos of which one fails: a result with one
    artifact. *)
Lemma generateVideo_result_iff_witness :
  exists out w',
    demoVideo twoBranches 2 [0; 1]%nat = Some (out, w')
    /\ is_fulfilled out = true
    /\ (forall r, out = Fulfilled r -> artifacts r <> [] /\ is_Some (result_uri r)).
Proof.
  pose proof (@generateVideo_result_iff Script demoEnv "a cat" "veo-3"
                (withCount 2) (Some demoImage) None None [0; 1]%nat
                (world0 twoBranches)) as Hw.
  change (@prepare Script demoEnv "a cat" "veo-3" (withCount 2) (Some demoImage)
            None None (world0 twoBranches))
    with (@Fulfilled Prepared (demoPrepared 2), world0 twoBranches) in Hw.
  destruct (Hw [Rejected serverError;
                Fulfilled (finishedVideo "op1" "https://v/1?alt=media")] eq_refl)
    as (out & w' & Hg & Hiff & Hart & _).
  exists out, w'. split; [exact Hg|]. split; [|exact Hart].
  apply Hiff. left. right. left. eexists. reflexivity.
Defined.

(** Three 503 answers in a row: three attempts, delays of 2000 and 4000 ms,
    and the last error. *)
Lemma backoff_executor_spec_witness :
  0 < 3
  /\ exists w',
       Settles (retryWithBackoff (H := demoEnv) (@videoOperation Script demoEnv demoRequest) 3 2000)
         (start (retryWithBackoff (H := demoEnv) (@videoOperation Script demoEnv demoRequest) 3 2000))
         (world0 allOverloaded) (Rejected overloadError) w'
       /\ log w' = [EvGenerateVideos demoRequest; EvWait 2000;
                    EvGenerateVideos demoRequest; EvWait 4000;
                    EvGenerateVideos demoRequest].
Proof.
  split; [lia|]. eexists. split.
  - eapply (proj1 (proj2 (proj2 (backoff_executor_spec
                            (@videoOperation Script demoEnv demoRequest) 3 2000
                            (world0 allOverloaded) ltac:(lia))))).
    + reflexivity.
    + eapply settles_later; [reflexivity|]. apply settles_now. reflexivity.
    + reflexivity.
    + eapply settles_later; [reflexivity|]. apply settles_now. reflexivity.
    + reflexivity.
    + eapply settles_later; [reflexivity|]. apply settles_now. reflexivity.
    + reflexivity.
  - reflexivity.
Defined.

(** The video call is rejected with [null]: the executor rejects with the
    TypeError of reading [null.status], after that one call. *)
Lemma rejection_replaced_by_type_error_witness :
  exists w',
    Settles (retryWithBackoff (H := demoEnv) (@videoOperation Script demoEnv demoRequest) 3 2000)
      (start (retryWithBackoff (H := demoEnv) (@videoOperation Script demoEnv demoRequest) 3 2000))
      (world0 nullRejection)
      (Rejected (newError "Cannot read properties of null (reading 'status')")) w'
    /\ log w' = [EvGenerateVideos demoRequest].
Proof.
  eexists. split.
  - refine (proj1 (@rejection_replaced_by_type_error Script demoEnv Operation
                     (@videoOperation Script demoEnv demoRequest) 3 2000
                     (world0 nullRejection) _ Null StatusOfNull ltac:(lia) _ eq_refl)).
    eapply settles_later; [reflexivity|]. apply settles_now. reflexivity.
  - reflexivity.
Defined.


(** Two images wanted, one call made. *)
Lemma image_generation_single_call_witness :
  contentCalls
    (log (snd (@generateImageFromText Script demoEnv "a cat" "gemini-2.5-flash-image"
                 [] twoImagesWanted (world0 oneImage)))) = 1%nat.
Proof.
  pose proof (@image_generation_single_call Script demoEnv "a cat"
                "gemini-2.5-flash-image" [] twoImagesWanted (world0 oneImage) "KEY"
                eq_refl ltac:(discriminate)) as Hw.
  cbv zeta in Hw.
  destruct (@generateImageFromText Script demoEnv "a cat" "gemini-2.5-flash-image"
              [] twoImagesWanted (world0 oneImage)) as [r w'].
  destruct Hw as (_ & Hcalls & _). exact Hcalls.
Defined.

(** The image facade does not make [count] calls. *)
Lemma image_fan_out_counterexample :
  ~ (forall (Σ : Type) (E : Environment Σ) prompt model inputImages options k
            (w : World Σ),
        image_count options = Some k -> 1 <= k <= 4 ->
        contentCalls
          (log (snd (generateImageFromText prompt model inputImages options w)))
        = (contentCalls (log w) + Z.to_nat k)%nat).
Proof.
  intros Hall.
  specialize (Hall Script demoEnv "a cat" "gemini-2.5-flash-image" []
                twoImagesWanted 2 (world0 oneImage) eq_refl ltac:(lia)).
  vm_compute in Hall. discriminate.
Qed.

(** Two chunks of 2 and 1 bytes at 24 kHz: a 47-byte file that declares
    the size 39. *)
Lemma wav_container_layout_witness :
  length (wavFile [["a"; "b"]; ["c"]]%byte 24000) = 47%nat
  /\ getUint32LE (take 44 (wavFile [["a"; "b"]; ["c"]]%byte 24000)) 4 = 39.
Proof.
  pose proof (wav_container_layout plainAtob plainBtoa ["ab"; "c"]
                [["a"; "b"]; ["c"]]%byte 24000) as Hw.
  cbv zeta in Hw.
  destruct Hw as (_ & Hlen & _ & _ & _ & Hsize & _).
  - repeat constructor.
  - vm_compute. reflexivity.
  - lia.
  - split; [exact Hlen | exact Hsize].
Defined.

(** A PNG data URI goes through unchanged. *)
Lemma normalizer_supported_payload_unchanged_witness :
  @convertImageToCompatibleFormat Script demoEnv demoImage (world0 oneImage)
  = (Fulfilled {| compat_data := "AAAA"; compat_mimeType := "image/png";
                  fullDataUri := demoImage |}, world0 oneImage).
Proof.
  apply (@normalizer_supported_payload_unchanged Script demoEnv "png" "AAAA"
           (world0 oneImage)).
  simpl. auto.
Defined.

(** The video call fails with "Internal error" and so does the image
    call: the combined error names the video error. *)
Lemma combined_error_carries_primary_witness :
  exists w',
    demoVideo allFail 1 [0]%nat
    = Some (Rejected (newError
              "Video generation failed and Image fallback also failed: Internal error"),
            w').
Proof.
  refine (proj1 (@combined_error_carries_primary Script demoEnv "a cat" "veo-3"
                   (withCount 1) (Some demoImage) None None [0]%nat
                   (world0 allFail) (demoPrepared 1) (world0 allFail)
                   [Rejected serverError] serverError _ _ _ _)).
  - reflexivity.
  - vm_compute. reflexivity.
  - reflexivity.
  - vm_compute. reflexivity.
Defined.

(** Transcription forwards a URL to the service. *)
Lemma transcription_url_counterexample :
  ~ (forall (Σ : Type) (E : Environment Σ) (input : string) (w : World Σ),
        startsWith input "data:" = false ->
        exists e, transcribeAudio input w = (Rejected e, w)).
Proof.
  intros Hall.
  destruct (Hall Script demoEnv "https://example.com/speech.wav"
              (world0 transcript) eq_refl) as [e He].
  vm_compute in He. discriminate.
Qed.

(** The URI of the successful branch ends in the key. *)
Lemma video_uris_embed_api_key_witness :
  exists r w',
    demoVideo twoBranches 2 [0; 1]%nat = Some (Fulfilled r, w')
    /\ exists key p w1 results,
         @API_KEY Script demoEnv = Some key /\ key <> ""
         /\ demoPrepare twoBranches 2 = (Fulfilled p, w1)
         /\ allSettled (@fanOut Script demoEnv p [0; 1]%nat w1) = Some results
         /\ uris r = Some (map (appendKey key) (omap branch_uri results))
         /\ result_uri r = head (map (appendKey key) (omap branch_uri results)).
Proof.
  eexists _, _. split; [vm_compute; reflexivity|].
  eapply (@video_uris_embed_api_key Script demoEnv "a cat" "veo-3" (withCount 2)
            (Some demoImage) None None [0; 1]%nat (world0 twoBranches)).
  - vm_compute. reflexivity.
  - reflexivity.
Defined.


(** * Strings and envelopes *)

Lemma append_cons c (a b : string) : String c a +:+ b = String c (a +:+ b).
Proof. reflexivity. Qed.

Lemma append_empty (b : string) : "" +:+ b = b.
Proof. reflexivity. Qed.

Lemma append_assoc3 (a b c : string) : (a +:+ b) +:+ c = a +:+ b +:+ c.
Proof.
  induction a as [|x a IH]; [reflexivity|].
  rewrite !append_cons. now rewrite IH.
Qed.

Lemma startsWith_append pat rest : startsWith (pat +:+ rest) pat = true.
Proof.
  induction pat as [|c pat IH]; [reflexivity|].
  rewrite append_cons. simpl. now rewrite Ascii.eqb_refl, IH.
Qed.

Lemma slice_append pat rest : slice (String.length pat) (pat +:+ rest) = rest.
Proof.
  induction pat as [|c pat IH]; [reflexivity|].
  rewrite append_cons. simpl. exact IH.
Qed.

Lemma startsWith_split s pat :
  startsWith s pat = true -> s = pat +:+ slice (String.length pat) s.
Proof.
  revert s. induction pat as [|c pat IH]; intros s; simpl; [reflexivity|].
  destruct s as [|d s]; [discriminate|].
  destruct (Ascii.eqb c d) eqn:E; [|discriminate]. simpl.
  apply Ascii.eqb_eq in E. subst d. intros Hs. rewrite append_cons.
  f_equal. now apply IH.
Qed.

Lemma strip_prefix_append pat rest : strip_prefix pat (pat +:+ rest) = Some rest.
Proof. unfold strip_prefix. now rewrite startsWith_append, slice_append. Qed.

Lemma strip_prefix_split pat s rest :
  strip_prefix pat s = Some rest -> s = pat +:+ rest.
Proof.
  unfold strip_prefix. destruct (startsWith s pat) eqn:E; [|discriminate].
  intros Heq. injection Heq as <-. now apply startsWith_split.
Qed.

Lemma span_split cls s run rest : span cls s = (run, rest) -> s = run +:+ rest.
Proof.
  revert run rest. induction s as [|c s IH]; intros run rest; simpl.
  - intros Heq. now injection Heq as <- <-.
  - destruct (cls c).
    + destruct (span cls s) as [run' rest'].
      intros Heq. injection Heq as <- <-. rewrite append_cons. f_equal.
      now apply IH.
    + intros Heq. now injection Heq as <- <-.
Qed.

Lemma span_run cls sub c rest :
  all_chars cls sub = true -> cls c = false ->
  span cls (sub +:+ String c rest) = (sub, String c rest).
Proof.
  intros Hall Hc. induction sub as [|d sub IH].
  - rewrite append_empty. simpl. now rewrite Hc.
  - simpl in Hall. apply andb_prop in Hall as [Hd Hall].
    rewrite append_cons. simpl. rewrite Hd, (IH Hall). reflexivity.
Qed.

(** A well-formed envelope is split into its mime type and its payload. *)
Lemma match_data_uri_envelope kind cls sub payload :
  sub <> "" -> all_chars cls sub = true -> cls ";"%char = false ->
  match_data_uri kind cls
    ("data:" +:+ kind +:+ "/" +:+ sub +:+ ";base64," +:+ payload)
  = Some (kind +:+ "/" +:+ sub, payload).
Proof.
  intros Hne Hall Hsemi. unfold match_data_uri.
  replace ("data:" +:+ kind +:+ "/" +:+ sub +:+ ";base64," +:+ payload)
    with (("data:" +:+ kind +:+ "/") +:+ sub +:+ ";base64," +:+ payload)
    by (now rewrite !append_assoc3).
  rewrite strip_prefix_append.
  change (";base64," +:+ payload) with (String ";" ("base64," +:+ payload)).
  rewrite (span_run _ _ _ _ Hall Hsemi).
  destruct sub as [|c sub]; [congruence|].
  change (String ";" ("base64," +:+ payload)) with (";base64," +:+ payload).
  now rewrite strip_prefix_append.
Qed.

(** Whatever is recognised as an envelope is the concatenation of its
    parts: nothing is lost or altered by the split. *)
Lemma match_data_uri_split kind cls s mime payload :
  match_data_uri kind cls s = Some (mime, payload) ->
  s = "data:" +:+ mime +:+ ";base64," +:+ payload.
Proof.
  unfold match_data_uri.
  destruct (strip_prefix ("data:" +:+ kind +:+ "/") s) as [r|] eqn:Hp; [|discriminate].
  destruct (span cls r) as [run r'] eqn:Hs.
  destruct run as [|c run]; [discriminate|].
  destruct (strip_prefix ";base64," r') as [p|] eqn:Hm; [|discriminate].
  intros Heq. injection Heq as <- <-.
  apply strip_prefix_split in Hp, Hm. apply span_split in Hs.
  rewrite Hp, Hs, Hm. now rewrite !append_assoc3.
Qed.

Section EnvelopeStatements.
Context {Σ : Type} `{Environment Σ}.

(** Each input image of [generateImageFromText] is sent either split
    exactly at its envelope, or whole and labelled image/png. *)
Theorem input_part_lossless (base64 : string) :
  exists d,
    input_part base64 = InlinePart d
    /\ (base64 = "data:" +:+ mimeType d +:+ ";base64," +:+ data d
        \/ (data d = base64 /\ mimeType d = "image/png")).
Proof.
  unfold input_part, strip_envelope, mime_or.
  destruct (match_data_uri "image" is_word base64) as [[mime payload]|] eqn:E.
  - eexists. split; [reflexivity|]. left. simpl.
    now apply match_data_uri_split in E.
  - eexists. split; [reflexivity|]. right. auto.
Qed.

(** Any image subtype made of word characters is accepted as it is. *)
Theorem input_part_envelope (sub payload : string) :
  sub <> "" -> all_chars is_word sub = true ->
  input_part ("data:image/" +:+ sub +:+ ";base64," +:+ payload)
  = InlinePart {| data := payload; mimeType := "image/" +:+ sub |}.
Proof.
  intros Hne Hall. unfold input_part, strip_envelope, mime_or.
  change ("data:image/" +:+ sub +:+ ";base64," +:+ payload)
    with ("data:" +:+ "image" +:+ "/" +:+ sub +:+ ";base64," +:+ payload).
  rewrite (match_data_uri_envelope "image" is_word sub payload Hne Hall eq_refl).
  reflexivity.
Qed.

Lemma not_kind_no_envelope kind cls rest :
  startsWith rest (kind +:+ "/") = false ->
  match_data_uri kind cls ("data:" +:+ rest) = None.
Proof.
  intros Hs. unfold match_data_uri, strip_prefix.
  change (startsWith ("data:" +:+ rest) ("data:" +:+ kind +:+ "/"))
    with (startsWith rest (kind +:+ "/")).
  now rewrite Hs.
Qed.

(** An embedded video is sent as its payload and mime type in one call;
    the service's error is passed on unchanged and an empty answer
    becomes "Analysis failed". *)
Theorem analyzeVideo_embedded (sub payload prompt model : string) (w : World Σ) :
  getClient = Fulfilled tt ->
  sub <> "" -> all_chars is_word sub = true ->
  let request :=
    {| content_model := model;
       content_parts :=
         [InlinePart {| data := payload; mimeType := "video/" +:+ sub |};
          TextPart prompt] |} in
  analyzeVideo ("data:video/" +:+ sub +:+ ";base64," +:+ payload) prompt model w
  = (match fst (svc_generateContent request (service w)) with
     | Fulfilled response =>
         Fulfilled (default "Analysis failed" (nonempty (response_text response)))
     | Rejected e => Rejected e
     end,
     {| service := snd (svc_generateContent request (service w));
        log := log w ++ [EvGenerateContent request] |}).
Proof.
  intros Hc Hne Hall request. unfold analyzeVideo. rewrite Hc.
  change ("data:video/" +:+ sub +:+ ";base64," +:+ payload)
    with ("data:" +:+ "video" +:+ "/" +:+ sub +:+ ";base64," +:+ payload).
  rewrite startsWith_append. unfold mime_or, strip_envelope.
  rewrite (match_data_uri_envelope "video" is_word sub payload Hne Hall eq_refl).
  change ("video" +:+ "/" +:+ sub) with ("video/" +:+ sub).
  fold request. rewrite call_world.
  destruct (fst (svc_generateContent request (service w))); reflexivity.
Qed.

(** A data URI that is not a video is neither rejected nor stripped: it is
    sent whole, labelled video/mp4. *)
Theorem analyzeVideo_other_data_uri (rest prompt model : string) (w : World Σ) :
  getClient = Fulfilled tt ->
  startsWith rest "video/" = false ->
  log (snd (analyzeVideo ("data:" +:+ rest) prompt model w))
  = log w ++ [EvGenerateContent
                {| content_model := model;
                   content_parts :=
                     [InlinePart {| data := "data:" +:+ rest;
                                    mimeType := "video/mp4" |};
                      TextPart prompt] |}].
Proof.
  intros Hc Hs. unfold analyzeVideo. rewrite Hc, startsWith_append.
  unfold mime_or, strip_envelope.
  rewrite (not_kind_no_envelope "video" is_word rest Hs).
  rewrite call_world.
  destruct (fst (svc_generateContent _ _)); reflexivity.
Qed.

(** An embedded audio clip is sent as its payload and mime type; the
    transcript is returned as the service gives it, also when empty. *)
Theorem transcribeAudio_embedded (sub payload : string) (w : World Σ) :
  getClient = Fulfilled tt ->
  sub <> "" -> all_chars is_word sub = true ->
  let request :=
    {| content_model := "gemini-2.5-flash";
       content_parts :=
         [InlinePart {| data := payload; mimeType := "audio/" +:+ sub |};
          TextPart "Transcribe this audio strictly verbatim."] |} in
  transcribeAudio ("data:audio/" +:+ sub +:+ ";base64," +:+ payload) w
  = (match fst (svc_generateContent request (service w)) with
     | Fulfilled response =>
         Fulfilled (default "" (nonempty (response_text response)))
     | Rejected e => Rejected e
     end,
     {| service := snd (svc_generateContent request (service w));
        log := log w ++ [EvGenerateContent request] |}).
Proof.
  intros Hc Hne Hall request. unfold transcribeAudio. rewrite Hc.
  change ("data:audio/" +:+ sub +:+ ";base64," +:+ payload)
    with ("data:" +:+ "audio" +:+ "/" +:+ sub +:+ ";base64," +:+ payload).
  unfold mime_or, strip_envelope.
  rewrite (match_data_uri_envelope "audio" is_word sub payload Hne Hall eq_refl).
  change ("audio" +:+ "/" +:+ sub) with ("audio/" +:+ sub).
  fold request. rewrite call_world.
  destruct (fst (svc_generateContent request (service w))); reflexivity.
Qed.

End EnvelopeStatements.

(** * Edge cases of the backoff executor *)

Lemma toLowerCase_append (a b : string) :
  toLowerCase (a +:+ b) = toLowerCase a +:+ toLowerCase b.
Proof.
  induction a as [|c a IH]; [reflexivity|].
  rewrite append_cons. simpl. now rewrite IH, append_cons.
Qed.

Lemma includes_here pat rest : includes (pat +:+ rest) pat = true.
Proof.
  destruct (pat +:+ rest) eqn:E; simpl; rewrite <- ?E, startsWith_append;
    reflexivity.
Qed.

Lemma includes_append_r a s pat :
  includes s pat = true -> includes (a +:+ s) pat = true.
Proof.
  intros Hs. induction a as [|c a IH]; [exact Hs|].
  rewrite append_cons. simpl. rewrite IH. apply orb_true_r.
Qed.

Lemma includes_middle a word b : includes (a +:+ word +:+ b) word = true.
Proof. apply includes_append_r, includes_here. Qed.

Section RetryEdges.
Context {Σ : Type} `{Environment Σ} {T : Type}.
Variable operation : Async Σ T.
Variables maxRetries baseDelay : Z.

Let executor := retryWithBackoff operation maxRetries baseDelay.

(** With no attempt allowed the operation is never started: the executor
    rejects with [undefined], the initial [lastError], and nothing has
    happened. *)
Theorem retry_without_attempts (w : World Σ) :
  maxRetries <= 0 ->
  Settles executor (start executor) w (Rejected Undefined) w.
Proof.
  intros Hm. apply settles_now.
  change (retry_resume operation maxRetries baseDelay (start executor) w
          = (Finished (Rejected Undefined), w)).
  unfold retry_resume. simpl.
  destruct (0 <? maxRetries) eqn:E; [apply Z.ltb_lt in E; lia | reflexivity].
Qed.

End RetryEdges.

(** A thrown string or error whose message is a text that mentions
    "overloaded" in any letter case, or "503", anywhere is RETRYABLE,
    whatever its status and code. *)
Theorem overloaded_text_retryable (error : Thrown) (a word b : string) :
  error <> Null -> error <> Undefined ->
  toLowerCase word = "overloaded" \/ word = "503" ->
  getErrorMessage error = Text (a +:+ word +:+ b) ->
  classify error = Some RETRYABLE.
Proof.
  intros Hn Hu Hw Hm. unfold classify, isOverloaded. rewrite Hm.
  rewrite !toLowerCase_append.
  assert (Hin : includes (toLowerCase a +:+ toLowerCase word +:+ toLowerCase b)
                  "overloaded"
                || includes (toLowerCase a +:+ toLowerCase word +:+ toLowerCase b)
                     "503" = true).
  { destruct Hw as [Hw | ->].
    - rewrite Hw, includes_middle. reflexivity.
    - change (toLowerCase "503") with "503". rewrite includes_middle.
      apply orb_true_r. }
  destruct error as [| | |s|o]; [congruence|congruence| | |].
  - now rewrite Hin.
  - now rewrite Hin.
  - apply orb_true_iff in Hin.
    destruct Hin as [-> | ->]; now rewrite ?orb_true_r.
Qed.

(** The suspensions of a run add up to [baseDelay * (2 ^ n - 1)] for [n]
    retries. *)
Lemma exponential_sum baseDelay i n :
  0 <= i ->
  fold_right Z.add 0 (exponential baseDelay i n)
  = baseDelay * 2 ^ i * (2 ^ Z.of_nat n - 1).
Proof.
  revert i. induction n as [|n IH]; intros i Hi.
  - simpl. lia.
  - change (exponential baseDelay i (S n))
      with (baseDelay * 2 ^ i :: exponential baseDelay (i + 1) n).
    simpl fold_right. rewrite IH by lia.
    rewrite Nat2Z.inj_succ, Z.pow_succ_r by lia.
    rewrite Z.pow_add_r by lia. change (2 ^ 1) with 2. ring.
Qed.

Lemma waited_app l1 l2 : waited (l1 ++ l2) = waited l1 + waited l2.
Proof.
  unfold waited. induction l1 as [|ev l1 IH]; simpl; [lia|].
  destruct ev; lia.
Qed.

Section RetryBudget.
Context {Σ : Type} `{Environment Σ} {T : Type}.
Variable operation : Async Σ T.
Variables maxRetries baseDelay : Z.
Hypothesis baseDelay_nonneg : 0 <= baseDelay.
Hypothesis operation_never_waits :
  forall f v, waited (log (snd (resume operation f v))) = waited (log v).

Let executor := retryWithBackoff operation maxRetries baseDelay.

(** From attempt [i] on, the executor still waits at most the delays of
    the attempts [i], ..., [maxRetries - 2]. *)
Lemma executor_waits f w r w' :
  Settles executor f w r w' ->
  0 <= attempt f ->
  waited (log w') - waited (log w)
  <= baseDelay * (2 ^ Z.max (attempt f) (maxRetries - 1) - 2 ^ attempt f).
Proof.
  assert (Hzero : forall i, 0 <= i ->
            0 <= baseDelay * (2 ^ Z.max i (maxRetries - 1) - 2 ^ i)).
  { intros i Hi. apply Z.mul_nonneg_nonneg; [exact baseDelay_nonneg|].
    assert (2 ^ i <= 2 ^ Z.max i (maxRetries - 1))
      by (apply Z.pow_le_mono_r; lia).
    lia. }
  induction 1 as [f w r w' E | f w f' w1 r w' E _ IH]; intros Hi.
  - change (retry_resume operation maxRetries baseDelay f w = (Finished r, w')) in E.
    unfold retry_resume in E. specialize (Hzero _ Hi).
    pose proof (operation_never_waits (inner f) w) as Hop.
    destruct (attempt f <? maxRetries).
    + destruct (resume operation (inner f) w) as [[fr|[v|e]] wm]; simpl in Hop.
      * discriminate.
      * injection E as _ <-. lia.
      * destruct (isOverloaded e) as [cause|ov].
        -- injection E as _ <-. lia.
        -- destruct (ov && (attempt f <? maxRetries - 1)); [discriminate|].
           injection E as _ <-. lia.
    + injection E as _ <-. lia.
  - change (retry_resume operation maxRetries baseDelay f w = (Running f', w1)) in E.
    unfold retry_resume in E.
    pose proof (operation_never_waits (inner f) w) as Hop.
    destruct (attempt f <? maxRetries); [|discriminate].
    destruct (resume operation (inner f) w) as [[fr|[v|e]] wm]; simpl in Hop.
    + injection E as <- <-. simpl in IH. specialize (IH Hi). lia.
    + discriminate.
    + destruct (isOverloaded e) as [cause|ov]; [discriminate|].
      destruct (ov && (attempt f <? maxRetries - 1)) eqn:Hgo; [|discriminate].
      apply andb_true_iff in Hgo. destruct Hgo as [_ Hlt]. apply Z.ltb_lt in Hlt.
      injection E as <- <-. simpl in IH. specialize (IH ltac:(lia)).
      unfold wait, record in IH. simpl in IH. rewrite waited_app in IH.
      change (waited [EvWait (baseDelay * 2 ^ attempt f)])
        with (baseDelay * 2 ^ attempt f + 0) in IH.
      rewrite Z.max_r in IH |- * by lia.
      rewrite Z.pow_add_r in IH by lia. change (2 ^ 1) with 2 in IH. lia.
Qed.

End RetryBudget.

(** Around an operation that does not itself wait, a run of the executor
    spends at most [baseDelay * (2 ^ (maxRetries - 1) - 1)] suspended,
    however the operation fails. *)
Theorem retry_total_delay {Σ : Type} `{Environment Σ} {T : Type}
    (operation : Async Σ T) (maxRetries baseDelay : Z) (w w' : World Σ)
    (r : Settled T) :
  0 < maxRetries -> 0 <= baseDelay ->
  (forall f v, waited (log (snd (resume operation f v))) = waited (log v)) ->
  let executor := retryWithBackoff operation maxRetries baseDelay in
  Settles executor (start executor) w r w' ->
  waited (log w') - waited (log w) <= baseDelay * (2 ^ (maxRetries - 1) - 1).
Proof.
  intros Hm Hb Hop executor Hs.
  pose proof (executor_waits operation maxRetries baseDelay Hb Hop _ _ _ _ Hs
                ltac:(simpl; lia)) as Hw.
  change (attempt (start executor)) with 0 in Hw.
  rewrite Z.max_r in Hw by lia. exact Hw.
Qed.

(** * Video jobs submitted by the fan-out *)

Section SubmissionProperties.
Context {Σ : Type} `{Environment Σ}.

Lemma videoCalls_app l1 l2 :
  videoCalls (l1 ++ l2) = (videoCalls l1 + videoCalls l2)%nat.
Proof. unfold videoCalls. now rewrite filter_app, length_app. Qed.

Lemma videoCalls_other l ev :
  is_video_call ev = false -> videoCalls (l ++ [ev]) = videoCalls l.
Proof.
  intros Hev. rewrite videoCalls_app. unfold videoCalls at 2. simpl.
  rewrite filter_cons_False; [simpl; lia | congruence].
Qed.

Lemma videoCalls_submit l request :
  videoCalls (l ++ [EvGenerateVideos request]) = S (videoCalls l).
Proof.
  rewrite videoCalls_app.
  change (videoCalls [EvGenerateVideos request]) with 1%nat. lia.
Qed.

Lemma after_response_videoCalls r (w : World Σ) :
  videoCalls (log (snd (after_response r w))) = videoCalls (log w).
Proof.
  unfold after_response. destruct r as [op|e]; [|reflexivity].
  destruct (done op); [reflexivity|]. simpl. now apply videoCalls_other.
Qed.

(** One resumption of a branch does not submit more than the branch had
    left. *)
Lemma videoBranch_step request (f : RetryFrame VideoFrame) (w : World Σ) :
  (videoCalls (log (snd (resume (videoBranch request) f w)))
   + submissions_left (fst (resume (videoBranch request) f w))
   <= videoCalls (log w) + submissions_left (Running f))%nat.
Proof.
  change (resume (videoBranch request) f w)
    with (retry_resume (videoOperation request) 3 2000 f w).
  unfold retry_resume. destruct f as [i le fr]. simpl attempt. simpl inner. simpl lastError.
  destruct (i <? 3) eqn:Hi; [|simpl; lia].
  apply Z.ltb_lt in Hi.
  destruct fr as [|r|op|r]; simpl resume.
  - rewrite call_world. simpl. rewrite videoCalls_submit.
    replace (3 - i) with (Z.succ (3 - i - 1)) by lia.
    rewrite Z2Nat.inj_succ by lia. lia.
  - pose proof (after_response_videoCalls r w) as Hc.
    destruct (after_response r w) as [[fr'|[v|e]] w'] eqn:E; simpl in Hc |- *.
    + unfold after_response in E. destruct r as [op|e]; [|discriminate].
      destruct (done op); [discriminate|]. injection E as <- <-.
      unfold wait, record in Hc. simpl in Hc |- *. lia.
    + lia.
    + destruct (isOverloaded e) as [cause|ov]; [simpl; lia|].
      destruct (ov && (i <? 3 - 1)) eqn:Hov; [|simpl; lia].
      simpl. unfold wait, record. simpl. rewrite videoCalls_other by reflexivity.
      lia.
  - rewrite call_world. simpl. rewrite videoCalls_other by reflexivity. lia.
  - pose proof (after_response_videoCalls r w) as Hc.
    destruct (after_response r w) as [[fr'|[v|e]] w'] eqn:E; simpl in Hc |- *.
    + unfold after_response in E. destruct r as [op|e]; [|discriminate].
      destruct (done op); [discriminate|]. injection E as <- <-.
      unfold wait, record in Hc. simpl in Hc |- *. lia.
    + lia.
    + destruct (isOverloaded e) as [cause|ov]; [simpl; lia|].
      destruct (ov && (i <? 3 - 1)) eqn:Hov; [|simpl; lia].
      simpl. unfold wait, record. simpl. rewrite videoCalls_other by reflexivity.
      lia.
Qed.

Lemma sum_insert {A} (g : A -> nat) (l : list A) b x y :
  l !! b = Some x ->
  (sum_list (map g (<[b := y]> l)) + g x = sum_list (map g l) + g y)%nat.
Proof.
  revert b. induction l as [|z l IH]; intros b Hb; [discriminate|].
  destruct b as [|b]; simpl in *.
  - injection Hb as ->. lia.
  - specialize (IH b Hb). lia.
Qed.

Lemma pool_step_measure {T} (a : Async Σ T) (g : Step (Frame a) T -> nat) :
  (forall f w,
      (videoCalls (log (snd (resume a f w))) + g (fst (resume a f w))
       <= videoCalls (log w) + g (Running f))%nat) ->
  forall b (p : Pool Σ (Frame a) T),
    (videoCalls (log (pool_world (pool_step a b p)))
     + sum_list (map g (promises (pool_step a b p)))
     <= videoCalls (log (pool_world p)) + sum_list (map g (promises p)))%nat.
Proof.
  intros Ha b p. unfold pool_step.
  destruct (promises p !! b) as [[f|r]|] eqn:Hb; try lia.
  pose proof (Ha f (pool_world p)) as Hs.
  destruct (resume a f (pool_world p)) as [[f'|r] w'] eqn:E; simpl in Hs |- *.
  - pose proof (sum_insert g (promises p) b (Running f) (Running f') Hb) as Hi.
    lia.
  - pose proof (sum_insert g (promises p) b (Running f) (Finished r) Hb) as Hi.
    lia.
Qed.

Lemma pool_run_measure {T} (a : Async Σ T) (g : Step (Frame a) T -> nat) :
  (forall f w,
      (videoCalls (log (snd (resume a f w))) + g (fst (resume a f w))
       <= videoCalls (log w) + g (Running f))%nat) ->
  forall schedule (p : Pool Σ (Frame a) T),
    (videoCalls (log (pool_world (pool_run a schedule p)))
     + sum_list (map g (promises (pool_run a schedule p)))
     <= videoCalls (log (pool_world p)) + sum_list (map g (promises p)))%nat.
Proof.
  intros Ha schedule. induction schedule as [|b schedule IH]; intros p; [simpl; lia|].
  change (pool_run a (b :: schedule) p)
    with (pool_run a schedule (pool_step a b p)).
  specialize (IH (pool_step a b p)).
  pose proof (pool_step_measure a g Ha b p). lia.
Qed.

Lemma spawn_all_measure {T} (a : Async Σ T) (g : Step (Frame a) T -> nat) :
  (forall f w,
      (videoCalls (log (snd (resume a f w))) + g (fst (resume a f w))
       <= videoCalls (log w) + g (Running f))%nat) ->
  forall n (w : World Σ),
    (videoCalls (log (snd (spawn_all a n w)))
     + sum_list (map g (fst (spawn_all a n w)))
     <= videoCalls (log w) + n * g (Running (start a)))%nat.
Proof.
  intros Ha n. induction n as [|n IH]; intros w; [simpl; lia|].
  simpl spawn_all. pose proof (Ha (start a) w) as Hs.
  destruct (resume a (start a) w) as [s w1]. simpl in Hs.
  specialize (IH w1). destruct (spawn_all a n w1) as [ss w2].
  simpl in IH |- *. lia.
Qed.

Lemma fanOut_submissions p schedule (w : World Σ) :
  (videoCalls (log (pool_world (fanOut p schedule w)))
   <= videoCalls (log w) + 3 * branches p)%nat.
Proof.
  pose proof (pool_run_measure (videoBranch (inputs p)) submissions_left
                (videoBranch_step (inputs p)) schedule
                (pool_init (videoBranch (inputs p)) (branches p) w)) as Hr.
  pose proof (spawn_all_measure (videoBranch (inputs p)) submissions_left
                (videoBranch_step (inputs p)) (branches p) w) as Hs.
  destruct (pool_init_promises (videoBranch (inputs p)) (branches p) w)
    as [Hp Hw].
  rewrite Hp, Hw in Hr.
  change (submissions_left _) with 3%nat in Hs.
  unfold fanOut. rewrite (Nat.mul_comm 3).
  eapply Nat.le_trans; [|exact Hs]. eapply Nat.le_trans; [|exact Hr].
  apply Nat.le_add_r.
Qed.

End SubmissionProperties.

(** * Further properties of video generation *)

Section VideoEdges.
Context {Σ : Type} `{Environment Σ}.

Lemma convert_videoCalls src (w : World Σ) :
  videoCalls (log (snd (convertImageToCompatibleFormat src w))) = videoCalls (log w).
Proof.
  unfold convertImageToCompatibleFormat.
  destruct (supported_envelope src); [reflexivity|].
  rewrite call_world. destruct (fst (loadImage _ _)); simpl;
    now apply videoCalls_other.
Qed.

Lemma convertReferences_videoCalls refs (w : World Σ) :
  videoCalls (log (snd (convertReferences refs w))) = videoCalls (log w).
Proof.
  revert w. induction refs as [|ref refs IH]; intros w; simpl; [reflexivity|].
  pose proof (convert_videoCalls ref w) as Hc.
  destruct (convertImageToCompatibleFormat ref w) as [[c|e] w1]; simpl in *; [|assumption].
  specialize (IH w1).
  destruct (convertReferences refs w1) as [[l|e] w2]; simpl in *; congruence.
Qed.

Lemma prepare_videoCalls prompt model options img vid refs (w : World Σ) :
  videoCalls (log (snd (prepare prompt model options img vid refs w)))
  = videoCalls (log w).
Proof.
  unfold prepare. destruct getClient; [|reflexivity].
  assert (Hi : videoCalls (log (snd (prepareImage img w))) = videoCalls (log w)).
  { unfold prepareImage. destruct (nonempty img) as [src|]; [|reflexivity].
    pose proof (convert_videoCalls src w) as Hc.
    destruct (convertImageToCompatibleFormat src w) as [[c|e] w1]; exact Hc. }
  destruct (prepareImage img w) as [[image final] w1]. simpl in Hi.
  assert (Hr : videoCalls (log (snd (prepareReferences model refs w1)))
               = videoCalls (log w1)).
  { unfold prepareReferences. destruct refs as [[|ref rest]|]; try reflexivity.
    destruct (String.eqb model _); [|reflexivity].
    pose proof (convertReferences_videoCalls (ref :: rest) w1) as Hr.
    destruct (convertReferences (ref :: rest) w1) as [[l|e] w2]; exact Hr. }
  destruct (prepareReferences model refs w1) as [[cfg|e] w2]; simpl in *; congruence.
Qed.

Lemma generateImageFromText_videoCalls prompt model inputImages options (w : World Σ) :
  videoCalls (log (snd (generateImageFromText prompt model inputImages options w)))
  = videoCalls (log w).
Proof.
  unfold generateImageFromText. destruct getClient; [|reflexivity].
  rewrite call_world.
  destruct (fst (svc_generateContent _ _)) as [response|e]; simpl.
  - destruct (parse_images response); simpl; now apply videoCalls_other.
  - now apply videoCalls_other.
Qed.

Lemma fallback_videoCalls p options e (w : World Σ) :
  videoCalls (log (snd (fallback p options e w))) = videoCalls (log w).
Proof.
  unfold fallback.
  pose proof (generateImageFromText_videoCalls (fallbackPrompt p)
                "gemini-2.5-flash-image" (fallbackImages p)
                {| image_aspectRatio := aspectRatio options;
                   image_resolution := None; image_count := None |} w) as Hg.
  destruct (generateImageFromText _ _ _ _ w) as [[imgs|ie] w']; exact Hg.
Qed.

Lemma prepare_requested prompt model options img vid refs (w : World Σ) p w1 :
  prepare prompt model options img vid refs w = (Fulfilled p, w1) ->
  branches p = Z.to_nat (requested options).
Proof.
  unfold prepare. destruct getClient; [|discriminate].
  destruct (prepareImage img w) as [[image final] w0].
  destruct (prepareReferences model refs w0) as [[cfg|e] w2]; [|discriminate].
  intros Heq. injection Heq as <- _. reflexivity.
Qed.

(** However the branches interleave and whatever the service answers, a
    call that returns has submitted at most three video jobs per requested
    video. *)
Theorem generateVideo_submissions_bounded prompt model options img vid refs
    schedule (w : World Σ) r w' :
  generateVideo prompt model options img vid refs schedule w = Some (r, w') ->
  (videoCalls (log w') <= videoCalls (log w) + 3 * Z.to_nat (requested options))%nat.
Proof.
  unfold generateVideo.
  pose proof (prepare_videoCalls prompt model options img vid refs w) as Hp.
  destruct (prepare prompt model options img vid refs w) as [[p|e] w1] eqn:Ep;
    simpl in Hp.
  - pose proof (fanOut_submissions p schedule w1) as Hf.
    rewrite (prepare_requested _ _ _ _ _ _ _ _ _ Ep) in Hf.
    destruct (allSettled (fanOut p schedule w1)) as [results|]; [|discriminate].
    destruct (try_block results) as [result|e].
    + intros Heq. injection Heq as _ <-. lia.
    + pose proof (fallback_videoCalls p options e (pool_world (fanOut p schedule w1)))
        as Hb.
      intros Heq. injection Heq as Heq. rewrite Heq in Hb. simpl in Hb. lia.
  - intros Heq. injection Heq as _ <-. lia.
Qed.

Lemma pool_run_empty {T} (a : Async Σ T) schedule (p : Pool Σ (Frame a) T) :
  promises p = [] -> pool_run a schedule p = p.
Proof.
  intros Hp. revert p Hp. induction schedule as [|b schedule IH]; intros p Hp;
    [reflexivity|].
  change (pool_run a (b :: schedule) p) with (pool_run a schedule (pool_step a b p)).
  assert (Hs : pool_step a b p = p).
  { unfold pool_step. now rewrite Hp. }
  rewrite Hs. now apply IH.
Qed.

(** A negative [count] starts no branch: no video job is submitted and the
    call goes straight to the image fallback, with the generic error. *)
Theorem generateVideo_negative_count prompt model options img vid refs
    schedule (w : World Σ) k p w1 :
  count options = Some k -> k < 0 ->
  prepare prompt model options img vid refs w = (Fulfilled p, w1) ->
  generateVideo prompt model options img vid refs schedule w
  = Some (fallback p options
            (newError "Video generation failed (No valid URIs).") w1).
Proof.
  intros Hk Hneg Hp. unfold generateVideo. rewrite Hp.
  assert (Hb : branches p = 0%nat).
  { rewrite (prepare_requested _ _ _ _ _ _ _ _ _ Hp). unfold requested.
    rewrite Hk. destruct k; first [lia | reflexivity]. }
  assert (Hpool : fanOut p schedule w1
                  = pool_init (videoBranch (inputs p)) 0 w1).
  { unfold fanOut. rewrite Hb.
    exact (pool_run_empty (videoBranch (inputs p)) schedule
             (pool_init (videoBranch (inputs p)) 0 w1) eq_refl). }
  rewrite Hpool. reflexivity.
Qed.

(** The conversion of a reference image is not guarded: when it fails the
    call rejects with that error, and neither a video job nor the image
    fallback is tried. *)
Theorem reference_failure_aborts prompt model options img vid refs
    schedule (w : World Σ) e w2 :
  getClient = Fulfilled tt ->
  prepareReferences model refs (snd (prepareImage img w)) = (Rejected e, w2) ->
  generateVideo prompt model options img vid refs schedule w = Some (Rejected e, w2)
  /\ videoCalls (log w2) = videoCalls (log w)
  /\ contentCalls (log w2) = contentCalls (log w).
Proof.
  intros Hc Hr.
  assert (Hp : prepare prompt model options img vid refs w = (Rejected e, w2)).
  { unfold prepare. rewrite Hc.
    destruct (prepareImage img w) as [[image final] w1]. simpl in Hr.
    now rewrite Hr. }
  split; [|split].
  - unfold generateVideo. now rewrite Hp.
  - pose proof (prepare_videoCalls prompt model options img vid refs w) as Hv.
    now rewrite Hp in Hv.
  - pose proof (prepare_calls prompt model options img vid refs w) as Hv.
    now rewrite Hp in Hv.
Qed.

(** The conversion of the input image is guarded: when it fails the call
    goes on exactly as a call without input image would from there. *)
Theorem input_image_failure_ignored prompt model options src vid refs
    schedule (w : World Σ) e w1 :
  getClient = Fulfilled tt ->
  src <> "" ->
  convertImageToCompatibleFormat src w = (Rejected e, w1) ->
  generateVideo prompt model options (Some src) vid refs schedule w
  = generateVideo prompt model options None vid refs schedule w1.
Proof.
  intros Hk Hne Hc.
  assert (Hp : prepare prompt model options (Some src) vid refs w
               = prepare prompt model options None vid refs w1).
  { unfold prepare. rewrite Hk. unfold prepareImage.
    assert (Hs : nonempty (Some src) = Some src) by (destruct src; [congruence | reflexivity]).
    rewrite Hs, Hc. reflexivity. }
  unfold generateVideo. now rewrite Hp.
Qed.

End VideoEdges.

Section StalledService.
Context {Σ : Type} `{Environment Σ}.

Lemma pool_run_forall {T} (a : Async Σ T) (P : Step (Frame a) T -> Prop) :
  (forall f w, P (Running f) -> P (fst (resume a f w))) ->
  forall schedule (p : Pool Σ (Frame a) T),
    Forall P (promises p) -> Forall P (promises (pool_run a schedule p)).
Proof.
  intros Ha schedule. induction schedule as [|b schedule IH]; intros p Hp;
    [exact Hp|].
  change (pool_run a (b :: schedule) p) with (pool_run a schedule (pool_step a b p)).
  apply IH. unfold pool_step.
  destruct (promises p !! b) as [[f|r]|] eqn:Hb; try exact Hp.
  assert (Hf : P (Running f)).
  { rewrite Forall_lookup in Hp. exact (Hp b _ Hb). }
  specialize (Ha f (pool_world p) Hf).
  destruct (resume a f (pool_world p)) as [[f'|r] w']; simpl in Ha |- *;
    now apply Forall_insert.
Qed.

Lemma pool_run_at {T} (a : Async Σ T) (P : Step (Frame a) T -> Prop) :
  (forall f w, P (Running f) -> P (fst (resume a f w))) ->
  forall schedule (p : Pool Σ (Frame a) T) i s,
    promises p !! i = Some s -> P s ->
    exists s', promises (pool_run a schedule p) !! i = Some s' /\ P s'.
Proof.
  intros Ha schedule. induction schedule as [|b schedule IH]; intros p i s Hi Hs;
    [now exists s|].
  change (pool_run a (b :: schedule) p) with (pool_run a schedule (pool_step a b p)).
  destruct (decide (b = i)) as [->|Hne].
  - unfold pool_step. rewrite Hi. destruct s as [f|r].
    + specialize (Ha f (pool_world p) Hs).
      destruct (resume a f (pool_world p)) as [[f'|r] w'] eqn:E; simpl in Ha.
      * eapply IH; [|exact Ha]. simpl.
        apply list_lookup_insert_eq. now apply lookup_lt_Some in Hi.
      * eapply IH; [|exact Ha]. simpl.
        apply list_lookup_insert_eq. now apply lookup_lt_Some in Hi.
    + eapply IH; eauto.
  - eapply IH; [|exact Hs]. rewrite <- Hi. unfold pool_step.
    destruct (promises p !! b) as [[f|r]|]; try reflexivity.
    destruct (resume a f (pool_world p)) as [[f'|r] w']; simpl;
      now apply list_lookup_insert_ne.
Qed.

Lemma spawn_all_forall {T} (a : Async Σ T) (P : Step (Frame a) T -> Prop) :
  (forall w, P (fst (resume a (start a) w))) ->
  forall n (w : World Σ), Forall P (fst (spawn_all a n w)).
Proof.
  intros Ha n. induction n as [|n IH]; intros w; [constructor|].
  simpl spawn_all. specialize (Ha w).
  destruct (resume a (start a) w) as [s w1]. specialize (IH w1).
  destruct (spawn_all a n w1) as [ss w2]. simpl in *. now constructor.
Qed.

(** While the service answers every poll with a job that is not done, a
    branch that awaits its job keeps awaiting it. *)
Lemma stalled_branch request :
  (forall op σ, exists op',
      fst (svc_getVideosOperation op σ) = Fulfilled op' /\ done op' = false) ->
  forall (f : RetryFrame VideoFrame) (w : World Σ),
    awaiting_job (Running f) ->
    awaiting_job (fst (resume (videoBranch request) f w)).
Proof.
  intros Hpoll f w (f0 & Hf0 & Ha & Hfr). injection Hf0 as <-.
  change (resume (videoBranch request) f w)
    with (retry_resume (videoOperation request) 3 2000 f w).
  destruct f as [i le fr]. simpl in Ha, Hfr. subst i.
  unfold retry_resume. simpl attempt. simpl inner. simpl lastError.
  change (0 <? 3) with true. cbv iota.
  destruct fr as [|r|op|r]; simpl resume.
  - contradiction.
  - destruct Hfr as (op & -> & Hd). unfold after_response. rewrite Hd.
    eexists. repeat split.
  - rewrite call_world. destruct (Hpoll op (service w)) as (op' & Hop & Hd).
    eexists. split; [reflexivity|]. split; [reflexivity|]. simpl.
    exists op'. now split.
  - destruct Hfr as (op & -> & Hd). unfold after_response. rewrite Hd.
    eexists. repeat split.
Qed.

(** A branch started against a service that accepts the job without
    finishing it awaits the job. *)
Lemma spawned_branch request (w : World Σ) :
  (exists op,
      fst (svc_generateVideos request (service w)) = Fulfilled op /\ done op = false) ->
  awaiting_job (fst (resume (videoBranch request) (start (videoBranch request)) w)).
Proof.
  intros (op & Hop & Hd).
  change (resume (videoBranch request) (start (videoBranch request)) w)
    with (retry_resume (videoOperation request) 3 2000
            {| attempt := 0; lastError := Undefined; inner := Submit |} w).
  unfold retry_resume. simpl attempt. simpl inner. simpl lastError.
  change (0 <? 3) with true. cbv iota. simpl resume. rewrite call_world.
  eexists. split; [reflexivity|]. split; [reflexivity|]. simpl.
  exists op. now split.
Qed.

(** Polling has no time limit: as long as the service keeps answering
    that the job is not done, the call stays pending, whatever the
    schedule. *)
Theorem generateVideo_pending_while_not_done prompt model options img vid refs
    (w : World Σ) p w1 :
  (forall request σ, exists op,
      fst (svc_generateVideos request σ) = Fulfilled op /\ done op = false) ->
  (forall op σ, exists op',
      fst (svc_getVideosOperation op σ) = Fulfilled op' /\ done op' = false) ->
  prepare prompt model options img vid refs w = (Fulfilled p, w1) ->
  0 < requested options ->
  forall schedule,
    generateVideo prompt model options img vid refs schedule w = None.
Proof.
  intros Hsub Hpoll Hp Hreq schedule. unfold generateVideo. rewrite Hp.
  assert (Hinv : pool_inv (branches p) (fanOut p schedule w1)).
  { apply (pool_run_inv (videoBranch (inputs p))), pool_init_inv. }
  pose proof (pool_run_forall (videoBranch (inputs p)) awaiting_job
                (stalled_branch (inputs p) Hpoll) schedule
                (pool_init (videoBranch (inputs p)) (branches p) w1)) as Hall.
  assert (Hinit : Forall awaiting_job
                    (promises (pool_init (videoBranch (inputs p)) (branches p) w1))).
  { destruct (pool_init_promises (videoBranch (inputs p)) (branches p) w1) as [Hpr _].
    rewrite Hpr.
    apply (spawn_all_forall (videoBranch (inputs p)) awaiting_job).
    intros v. apply spawned_branch, Hsub. }
  specialize (Hall Hinit).
  destruct (allSettled (fanOut p schedule w1)) as [results|] eqn:Hs; [|reflexivity].
  exfalso.
  apply (allSettled_spec (videoBranch (inputs p)) _ _ _ Hinv) in Hs.
  destruct Hinv as (Hlen & _).
  assert (Hb : branches p <> 0%nat).
  { rewrite (prepare_requested _ _ _ _ _ _ _ _ _ Hp). lia. }
  assert (Hall' : Forall awaiting_job (map Finished results)).
  { exact (eq_ind _ (Forall awaiting_job) Hall _ Hs). }
  assert (Hlen' : length (map (@Finished (RetryFrame VideoFrame) Operation) results)
                  = branches p).
  { exact (eq_trans (f_equal length (eq_sym Hs)) Hlen). }
  destruct results as [|res results]; simpl in Hlen', Hall'.
  - congruence.
  - apply Forall_cons in Hall'. destruct Hall' as [(f & Hf & _) _]. discriminate.
Qed.

End StalledService.

Section PrimaryVideo.
Context {Σ : Type} `{Environment Σ}.

Lemma collect_metadata (results : list (Settled Operation)) :
  snd (collect results) = firstSuccess results.
Proof.
  unfold collect.
  enough (Hgen : forall acc meta,
    snd (fold_left
      (fun '(validUris, primaryMetadata) res =>
       match res with
       | Fulfilled value =>
           match generated_video value with
           | Some vid =>
               match nonempty (uri vid) with
               | Some u =>
                   (validUris ++ [u +:+ "&key=" +:+ api_key_text],
                    match primaryMetadata with
                    | None => Some vid
                    | Some _ => primaryMetadata
                    end)
               | None => (validUris, primaryMetadata)
               end
           | None => (validUris, primaryMetadata)
           end
       | Rejected _ => (validUris, primaryMetadata)
       end) results (acc, meta))
    = match meta with
      | Some _ => meta
      | None => firstSuccess results
      end).
  { apply (Hgen [] None). }
  induction results as [|res results IH]; intros acc meta; simpl.
  - now destruct meta.
  - unfold branch_uri.
    destruct res as [op|e]; [|apply IH].
    destruct (generated_video op) as [vid|]; [|apply IH].
    destruct (nonempty (uri vid)) as [u|]; [|apply IH].
    rewrite IH. now destruct meta.
Qed.

Lemma firstSuccess_head (results : list (Settled Operation)) :
  match firstSuccess results with
  | Some vid =>
      exists u, nonempty (uri vid) = Some u
                /\ head (omap keyed_uri results)
                   = Some (u +:+ "&key=" +:+ api_key_text)
  | None => omap keyed_uri results = []
  end.
Proof.
  induction results as [|res results IH]; [reflexivity|].
  change (omap keyed_uri (res :: results))
    with (match keyed_uri res with
          | Some y => y :: omap keyed_uri results
          | None => omap keyed_uri results
          end).
  simpl firstSuccess. unfold keyed_uri, branch_uri in *.
  destruct res as [op|e]; [|exact IH].
  destruct (generated_video op) as [vid|]; [|exact IH].
  destruct (nonempty (uri vid)) as [u|] eqn:Eu; [|exact IH].
  exists u. split; [exact Eu | reflexivity].
Qed.

(** The primary artifact and the metadata of a video result belong to the
    same branch: the first one, by index, that returned a video with a
    URI. *)
Theorem primary_video_is_first_success (results : list (Settled Operation))
    (r : VideoResult) :
  try_block results = Fulfilled r ->
  exists vid u,
    firstSuccess results = Some vid
    /\ uri vid = Some u /\ u <> ""
    /\ videoMetadata r = Some vid
    /\ result_uri r = Some (u +:+ "&key=" +:+ api_key_text).
Proof.
  intros Ht. pose proof (try_block_cases results) as Hc.
  pose proof (firstSuccess_head results) as Hh.
  rewrite collect_uris, collect_metadata in Hc.
  destruct (omap keyed_uri results) as [|u0 l] eqn:Eo.
  - destruct Hc as [e He]. congruence.
  - rewrite Ht in Hc. injection Hc as ->.
    destruct (firstSuccess results) as [vid|]; [|discriminate].
    destruct Hh as (u & Hu & Hhead). simpl in Hhead. injection Hhead as ->.
    exists vid, u. simpl.
    assert (uri vid = Some u /\ u <> "") as [Hv Hne].
    { unfold nonempty in Hu. destruct (uri vid) as [[|c s]|]; try discriminate.
      injection Hu as <-. split; [reflexivity | discriminate]. }
    auto.
Qed.

End PrimaryVideo.

(** * Images: what comes back, and what can be sent again *)

Section ImageProperties.
Context {Σ : Type} `{Environment Σ}.

Lemma nonempty_some o s : nonempty o = Some s -> o = Some s /\ s <> "".
Proof.
  unfold nonempty. destruct o as [[|c t]|]; try discriminate.
  intros Heq. injection Heq as <-. split; [reflexivity | discriminate].
Qed.

Lemma parse_images_uris response : Forall image_uri (parse_images response).
Proof.
  unfold parse_images. destruct (candidate_parts response) as [parts|];
    [|constructor].
  enough (Hgen : forall acc, Forall image_uri acc ->
    Forall image_uri
      (fold_left
        (fun images part =>
           match resp_inlineData part with
           | Some inline =>
               match nonempty (resp_data inline) with
               | Some d =>
                   let mime := default "image/png" (nonempty (resp_mimeType inline)) in
                   images ++ ["data:" +:+ mime +:+ ";base64," +:+ d]
               | None => images
               end
           | None => images
           end) parts acc)).
  { apply Hgen. constructor. }
  induction parts as [|part parts IH]; intros acc Hacc; [exact Hacc|].
  simpl. apply IH.
  destruct (resp_inlineData part) as [inline|]; [|exact Hacc].
  destruct (nonempty (resp_data inline)) as [d|] eqn:Ed; [|exact Hacc].
  apply Forall_app. split; [exact Hacc|]. constructor; [|constructor].
  apply nonempty_some in Ed. destruct Ed as [_ Hd].
  exists (default "image/png" (nonempty (resp_mimeType inline))), d.
  split; [reflexivity|]. split; [|exact Hd].
  destruct (nonempty (resp_mimeType inline)) as [m|] eqn:Em; simpl.
  - now apply nonempty_some in Em.
  - discriminate.
Qed.

Lemma generateImageFromText_uris prompt model inputImages options
    (w : World Σ) imgs w' :
  generateImageFromText prompt model inputImages options w = (Fulfilled imgs, w') ->
  Forall image_uri imgs.
Proof.
  unfold generateImageFromText. destruct getClient; [|discriminate].
  rewrite call_world.
  destruct (fst (svc_generateContent _ _)) as [response|e]; [|discriminate].
  pose proof (parse_images_uris response) as Hu.
  destruct (parse_images response) as [|img rest]; [discriminate|].
  intros Heq. injection Heq as <- _. exact Hu.
Qed.

(** Whatever [generateImageFromText] resolves with is a non-empty list of
    data URIs, each with a mime type and a payload. *)
Theorem generated_images_are_data_uris prompt model inputImages options
    (w : World Σ) imgs w' :
  generateImageFromText prompt model inputImages options w = (Fulfilled imgs, w') ->
  imgs <> [] /\ Forall image_uri imgs.
Proof.
  intros Hg. split.
  - exact (generateImageFromText_nonempty _ _ _ _ _ _ _ Hg).
  - exact (generateImageFromText_uris _ _ _ _ _ _ _ Hg).
Qed.

(** Whatever [generateImageFromText] rejects with is a fresh [Error] that
    only carries a message: the status and the code of a service error do
    not survive. *)
Theorem image_rejection_is_plain_error prompt model inputImages options
    (w : World Σ) e w' :
  generateImageFromText prompt model inputImages options w = (Rejected e, w') ->
  exists msg, e = newError msg.
Proof.
  unfold generateImageFromText. unfold getClient.
  destruct (nonempty API_KEY).
  - rewrite call_world.
    destruct (fst (svc_generateContent _ _)) as [response|e0].
    + destruct (parse_images response); [|discriminate].
      intros Heq. injection Heq as <- _. eexists. reflexivity.
    + intros Heq. injection Heq as <- _. eexists. reflexivity.
  - intros Heq. injection Heq as <- _. eexists. reflexivity.
Qed.

End ImageProperties.

Section NormaliserProperties.
Context {Σ : Type} `{Environment Σ}.

Lemma supported_envelope_split src :
  supported_envelope src = true ->
  exists fmt rest,
    In fmt supported_formats
    /\ src = "data:image/" +:+ fmt +:+ ";base64," +:+ rest.
Proof.
  unfold supported_envelope. intros Hs.
  apply orb_true_iff in Hs. destruct Hs as [Hs | Hs];
    [apply orb_true_iff in Hs; destruct Hs as [Hs | Hs]|];
    apply startsWith_split in Hs.
  - exists "png", (slice (String.length "data:image/png;base64,") src).
    split; [simpl; auto | exact Hs].
  - exists "jpeg", (slice (String.length "data:image/jpeg;base64,") src).
    split; [simpl; auto | exact Hs].
  - exists "jpg", (slice (String.length "data:image/jpg;base64,") src).
    split; [simpl; auto | exact Hs].
Qed.

(** Whatever the normaliser resolves with is labelled png, jpeg or jpg;
    its data URI starts with [data:]; and payload and mime type put
    together give that data URI again, unless the loader's result had no
    png envelope, in which case the payload is the whole of it. *)
Theorem normaliser_result_invariant src (w : World Σ) c w' :
  convertImageToCompatibleFormat src w = (Fulfilled c, w') ->
  In (compat_mimeType c) ["image/png"; "image/jpeg"; "image/jpg"]
  /\ startsWith (fullDataUri c) "data:" = true
  /\ (fullDataUri c = "data:" +:+ compat_mimeType c +:+ ";base64," +:+ compat_data c
      \/ compat_data c = fullDataUri c).
Proof.
  destruct (supported_envelope src) eqn:Hs.
  - destruct (supported_envelope_split src Hs) as (fmt & rest & Hin & ->).
    unfold supported_formats in Hin. simpl in Hin.
    destruct Hin as [<- | [<- | [<- | []]]];
      intros Heq; injection Heq as <- _; simpl; auto 10.
  - unfold convertImageToCompatibleFormat. rewrite Hs, call_world.
    destruct (fst (loadImage src (service w))) as [body|e]; [|discriminate].
    intros Heq. injection Heq as <- _. simpl compat_mimeType. simpl fullDataUri.
    simpl compat_data.
    split; [simpl; auto|]. split; [apply (startsWith_append "data:")|].
    destruct (strip_prefix "data:image/png;base64," ("data:" +:+ body)) as [d|] eqn:Ed.
    + left. now apply strip_prefix_split in Ed.
    + right. reflexivity.
Qed.

End NormaliserProperties.

(** * The other entry points of the service file *)

Section StudioProperties.
Context {Σ : Type} `{Studio Σ}.

Lemma getClient_missing : nonempty API_KEY = None -> getClient = Rejected keyError.
Proof. unfold getClient. now intros ->. Qed.

(** Without an API key (absent or empty) every entry point rejects with
    the error of [getClient] before anything is sent, loaded or logged. *)
Theorem missing_key_rejects_everything (w : World Σ) :
  nonempty API_KEY = None ->
  (forall prompt model inputImages options,
      generateImageFromText prompt model inputImages options w = (Rejected keyError, w))
  /\ (forall prompt model options img vid refs schedule,
      generateVideo prompt model options img vid refs schedule w
      = Some (Rejected keyError, w))
  /\ (forall video prompt model, analyzeVideo video prompt model w = (Rejected keyError, w))
  /\ (forall audio, transcribeAudio audio w = (Rejected keyError, w))
  /\ (forall history message options,
      sendChatMessage history message options w = (Rejected keyError, w))
  /\ (forall image prompt model,
      editImageWithText image prompt model w = (Rejected keyError, w))
  /\ (forall prompt context, planStoryboard prompt context w = (Rejected keyError, w))
  /\ (forall images userPrompt,
      orchestrateVideoPrompt images userPrompt w = (Rejected keyError, w))
  /\ (forall prompt reference options,
      generateAudio prompt reference options w = (Rejected keyError, w)).
Proof.
  intros Hk. apply getClient_missing in Hk.
  repeat split; intros;
    unfold generateVideo, prepare, editImageWithText, generateImageFromText,
      analyzeVideo, transcribeAudio, sendChatMessage, planStoryboard,
      orchestrateVideoPrompt, generateAudio;
    rewrite Hk; reflexivity.
Qed.

(** A fulfilled edit always carries an image, a data URI, and has cost one
    [generateContent] call whose parts are the input image and the
    prompt. *)
Theorem editImageWithText_result imageBase64 prompt model (w : World Σ) o w' :
  editImageWithText imageBase64 prompt model w = (Fulfilled o, w') ->
  exists img,
    o = Some img /\ image_uri img
    /\ log w' = log w ++ [EvGenerateContent
                            {| content_model := effectiveModel model;
                               content_parts := [input_part imageBase64;
                                                 TextPart prompt] |}].
Proof.
  unfold editImageWithText.
  destruct (generateImageFromText prompt model [imageBase64] _ w)
    as [[imgs|e] w1] eqn:Eg; [|discriminate].
  intros Heq. injection Heq as <- <-.
  pose proof (generateImageFromText_nonempty _ _ _ _ _ _ _ Eg) as Hne.
  pose proof (generateImageFromText_uris _ _ _ _ _ _ _ Eg) as Hall.
  destruct imgs as [|img rest]; [congruence|].
  exists img. split; [reflexivity|]. split; [now inversion Hall|].
  revert Eg. unfold generateImageFromText. destruct getClient; [|discriminate].
  rewrite call_world.
  destruct (fst (svc_generateContent _ _)) as [response|e]; [|discriminate].
  destruct (parse_images response); [discriminate|].
  intros Heq. apply (f_equal snd) in Heq. simpl in Heq. subst w1. reflexivity.
Qed.

Lemma strip_prefix_other a pat c s :
  Ascii.eqb a c = false -> strip_prefix (String a pat) (String c s) = None.
Proof.
  intros Hc. unfold strip_prefix.
  change (startsWith (String c s) (String a pat))
    with (Ascii.eqb a c && startsWith s pat).
  now rewrite Hc.
Qed.

Lemma after_last_marker_cons c s :
  after_last_marker (String c s)
  = match (if is_line_terminator c then None else after_last_marker s) with
    | Some rest => Some rest
    | None => strip_prefix ";base64," (String c s)
    end.
Proof. reflexivity. Qed.

Lemma after_last_marker_none s :
  all_chars not_semicolon s = true -> after_last_marker s = None.
Proof.
  induction s as [|c s IH]; [reflexivity|].
  intros Hs. simpl in Hs. apply andb_true_iff in Hs. destruct Hs as [Hc Hs].
  rewrite after_last_marker_cons, (IH Hs).
  assert (Hn : Ascii.eqb ";" c = false).
  { unfold not_semicolon in Hc. rewrite Ascii.eqb_sym.
    now destruct (Ascii.eqb c ";"). }
  rewrite (strip_prefix_other ";" "base64," c s Hn).
  now destruct (is_line_terminator c).
Qed.

Lemma after_last_marker_skip m rest r :
  all_chars not_line_terminator m = true ->
  after_last_marker rest = Some r ->
  after_last_marker (m +:+ rest) = Some r.
Proof.
  intros Hm Hr. induction m as [|c m IH]; [exact Hr|].
  simpl in Hm. apply andb_true_iff in Hm. destruct Hm as [Hc Hm].
  rewrite append_cons, after_last_marker_cons. unfold not_line_terminator in Hc.
  destruct (is_line_terminator c); [discriminate|]. now rewrite (IH Hm).
Qed.

Lemma after_last_marker_here payload :
  after_last_marker payload = None ->
  after_last_marker (";base64," +:+ payload) = Some payload.
Proof.
  intros Hp.
  change (";base64," +:+ payload)
    with (String ";" (String "b" (String "a" (String "s" (String "e"
           (String "6" (String "4" (String "," payload)))))))).
  rewrite !after_last_marker_cons, Hp.
  rewrite !strip_prefix_other by reflexivity.
  reflexivity.
Qed.

Lemma strip_any_envelope_plain envelope :
  plain_envelope envelope -> strip_any_envelope (dataUri envelope) = snd envelope.
Proof.
  intros [Hm Hp]. unfold strip_any_envelope, dataUri.
  rewrite strip_prefix_append.
  rewrite (after_last_marker_skip (fst envelope) _ (snd envelope) Hm
             (after_last_marker_here _ (after_last_marker_none _ Hp))).
  reflexivity.
Qed.

(** [orchestrateVideoPrompt] sends the payload of every image intact, and
    every image labelled image/png whatever its envelope says; it resolves
    with the text of the answer, or with the user's prompt when there is
    none. *)
Theorem orchestrateVideoPrompt_request (envelopes : list (string * string))
    userPrompt (w : World Σ) :
  getClient = Fulfilled tt ->
  Forall plain_envelope envelopes ->
  let request := orchestratorRequest (map snd envelopes) userPrompt in
  orchestrateVideoPrompt (map dataUri envelopes) userPrompt w
  = (match fst (svc_generateContentConfig orchestratorConfig request (service w)) with
     | Fulfilled response =>
         Fulfilled (default userPrompt (nonempty (response_text response)))
     | Rejected e => Rejected e
     end,
     {| service := snd (svc_generateContentConfig orchestratorConfig request (service w));
        log := log w ++ [EvGenerateContent request] |}).
Proof.
  intros Hc Hall request. unfold orchestrateVideoPrompt, generateContentWith.
  rewrite Hc, call_world. fold orchestratorConfig.
  assert (Hparts :
    map (fun img => InlinePart {| data := strip_any_envelope img;
                                  mimeType := "image/png" |}) (map dataUri envelopes)
    = map (fun payload => InlinePart {| data := payload; mimeType := "image/png" |})
        (map snd envelopes)).
  { induction Hall as [|envelope envelopes Hx _ IH]; [reflexivity|].
    simpl. now rewrite (strip_any_envelope_plain envelope Hx), IH. }
  rewrite Hparts. fold (orchestratorRequest (map snd envelopes) userPrompt).
  fold request.
  destruct (fst (svc_generateContentConfig _ _ _)); reflexivity.
Qed.

(** The chat never resolves with an empty text, and thinking mode changes
    nothing: only the storyboard and help-me-write flags reach the
    request. *)
Theorem sendChatMessage_options history message (options options' : ChatOptions)
    (w : World Σ) :
  isStoryboard options = isStoryboard options' ->
  isHelpMeWrite options = isHelpMeWrite options' ->
  sendChatMessage history message (Some options) w
  = sendChatMessage history message (Some options') w
  /\ forall s w', sendChatMessage history message (Some options) w = (Fulfilled s, w') ->
                  s <> "".
Proof.
  intros Hs Hh. split.
  - unfold sendChatMessage. simpl. rewrite Hs, Hh.
    destruct (isThinkingMode options), (isThinkingMode options'); reflexivity.
  - intros s w'. unfold sendChatMessage. destruct getClient; [|discriminate].
    destruct (ask svc_sendMessage _ w) as [[result|e] w1]; [|discriminate].
    intros Heq. injection Heq as <- _.
    destruct (nonempty (response_text result)) as [t|] eqn:Et; simpl.
    + now apply nonempty_some in Et.
    + discriminate.
Qed.

(** [urlToBase64] swallows a failed fetch and a failed body read, resolving
    with the empty string; it rejects only when the reader fails. *)
Theorem urlToBase64_rejects_only_on_reader url (w : World Σ) e w' :
  urlToBase64 url w = (Rejected e, w') ->
  exists response σ1 blob σ2,
    fetch url (service w) = (Fulfilled response, σ1)
    /\ response_blob response σ1 = (Fulfilled blob, σ2)
    /\ fst (readAsDataURL blob σ2) = Rejected e.
Proof.
  unfold urlToBase64, ask.
  destruct (fetch url (service w)) as [[response|e1] σ1] eqn:Ef; [|discriminate].
  simpl. destruct (response_blob response σ1) as [[blob|e2] σ2] eqn:Eb;
    [|discriminate].
  simpl. destruct (readAsDataURL blob σ2) as [[s|e3] σ3] eqn:Er; [discriminate|].
  intros Heq. injection Heq as <- _.
  exists response, σ1, blob, σ2. rewrite Er. auto.
Qed.

End StudioProperties.

(** * More on the audio container *)

Section ContainerProperties.
Variable atob : string -> Settled string.
Variable btoa : string -> string.

Lemma combineBase64Chunks_decoded chunks arrays sampleRate :
  decodeChunks atob chunks = Fulfilled arrays ->
  combineBase64Chunks atob btoa chunks sampleRate
  = Fulfilled ("data:audio/wav;base64,"
               +:+ btoa (string_of_list_byte
                           (wavHeader (Z.of_nat (length (concat arrays))) sampleRate
                            ++ concat arrays))).
Proof.
  intros Hd. unfold combineBase64Chunks. rewrite Hd.
  rewrite binaryString_all by lia. now rewrite wavFile_layout.
Qed.

(** The file depends on the decoded bytes only, not on how they were cut
    into chunks. *)
Theorem wav_independent_of_chunking chunks chunks' arrays arrays' sampleRate :
  decodeChunks atob chunks = Fulfilled arrays ->
  decodeChunks atob chunks' = Fulfilled arrays' ->
  concat arrays = concat arrays' ->
  combineBase64Chunks atob btoa chunks sampleRate
  = combineBase64Chunks atob btoa chunks' sampleRate.
Proof.
  intros Hd Hd' Hc.
  rewrite (combineBase64Chunks_decoded _ _ _ Hd),
    (combineBase64Chunks_decoded _ _ _ Hd').
  now rewrite Hc.
Qed.

(** The first chunk that is not base64 aborts the encoder with the error
    of [atob]; the chunks after it are not looked at. *)
Theorem wav_malformed_chunk before chunk after arrays e sampleRate :
  decodeChunks atob before = Fulfilled arrays ->
  atob chunk = Rejected e ->
  combineBase64Chunks atob btoa (before ++ chunk :: after) sampleRate = Rejected e.
Proof.
  intros Hd He. unfold combineBase64Chunks.
  assert (Hall : decodeChunks atob (before ++ chunk :: after) = Rejected e).
  { revert arrays Hd. induction before as [|c before IH]; intros arrays Hd.
    - simpl. unfold base64ToUint8Array. now rewrite He.
    - simpl in Hd |- *.
      destruct (base64ToUint8Array atob c) as [arr|e0]; [|discriminate].
      destruct (decodeChunks atob before) as [arrs|e0] eqn:Eb; [|discriminate].
      now rewrite (IH arrs eq_refl). }
  now rewrite Hall.
Qed.

End ContainerProperties.

Lemma le32_field v :
  Z_of_byte (byte_of_Z (v mod 2 ^ 32))
  + 2 ^ 8 * Z_of_byte (byte_of_Z (Z.shiftr (v mod 2 ^ 32) 8))
  + 2 ^ 16 * Z_of_byte (byte_of_Z (Z.shiftr (v mod 2 ^ 32) 16))
  + 2 ^ 24 * Z_of_byte (byte_of_Z (Z.shiftr (v mod 2 ^ 32) 24))
  = v mod 2 ^ 32.
Proof.
  rewrite !Z_of_byte_of_Z. apply le32_roundtrip. apply Z.mod_pos_bound. lia.
Qed.

(** The encoder never fails on sizes: a length or a sample rate that does
    not fit its 32-bit field is written modulo [2 ^ 32], and the data
    follows the 44 header bytes all the same. *)
Theorem wav_header_fields_wrap (arrays : list (list byte)) (sampleRate : Z) :
  let L := Z.of_nat (length (concat arrays)) in
  let file := wavFile arrays sampleRate in
  getUint32LE file 4 = (36 + L) mod 2 ^ 32
  /\ getUint32LE file 24 = sampleRate mod 2 ^ 32
  /\ getUint32LE file 28 = (sampleRate * 2) mod 2 ^ 32
  /\ getUint32LE file 40 = L mod 2 ^ 32
  /\ drop 44 file = concat arrays.
Proof.
  intros L file. unfold file. rewrite wavFile_layout. fold L.
  rewrite wavHeader_bytes. cbv zeta.
  change (sampleRate * 1 * (16 / 8)) with (sampleRate * 1 * 2).
  replace (sampleRate * 1 * 2) with (sampleRate * 2) by lia.
  pose proof (le32_field (36 + L)) as Hsize.
  pose proof (le32_field sampleRate) as Hrate.
  pose proof (le32_field (sampleRate * 2)) as Hbyte.
  pose proof (le32_field L) as Hlen.
  set (size := (36 + L) mod 2 ^ 32) in *.
  set (rate := sampleRate mod 2 ^ 32) in *.
  set (byteRate := (sampleRate * 2) mod 2 ^ 32) in *.
  set (len := L mod 2 ^ 32) in *.
  repeat split; assumption.
Qed.

Section AudioProperties.
Context {Σ : Type} `{Studio Σ}.

(** [generateAudio] makes one call for the speech model, with the voice
    Kore for the persona Deep Narrative and Puck otherwise, and wraps the
    raw PCM of the first part of the answer into a 24 kHz WAV data URI.
    It fails with "Audio generation failed" when that first part carries
    no data, and with the error of [atob] when the data is not base64. *)
Theorem generateAudio_outcome prompt referenceAudio options (w : World Σ) :
  getClient = Fulfilled tt ->
  let answer := svc_generateContentConfig (audioConfig options)
                  (audioRequest prompt referenceAudio) (service w) in
  generateAudio prompt referenceAudio options w
  = (match fst answer with
     | Rejected e => Rejected e
     | Fulfilled response =>
         match nonempty (firstInlineData response) with
         | None => Rejected (newError "Audio generation failed")
         | Some audioData =>
             match atob audioData with
             | Rejected e => Rejected e
             | Fulfilled pcm => Fulfilled (wavUri (list_byte_of_string pcm) 24000)
             end
         end
     end,
     {| service := snd answer;
        log := log w ++ [EvGenerateContent (audioRequest prompt referenceAudio)] |}).
Proof.
  intros Hc answer. unfold generateAudio, generateContentWith.
  rewrite Hc, call_world.
  fold (voiceOf options). fold (audioConfig options).
  change {| content_model := "gemini-2.5-flash-preview-tts";
            content_parts := _ |} with (audioRequest prompt referenceAudio).
  fold answer.
  destruct (fst answer) as [response|e]; [|reflexivity].
  destruct (nonempty (firstInlineData response)) as [audioData|]; [|reflexivity].
  unfold pcmToWav, combineBase64Chunks, wavUri. simpl decodeChunks.
  unfold base64ToUint8Array.
  destruct (atob audioData) as [pcm|e]; [|reflexivity].
  rewrite binaryString_all by lia. rewrite wavFile_layout.
  simpl concat. now rewrite app_nil_r.
Qed.

End AudioProperties.

(** * The multi-frame prompt *)

Lemma join_snoc sep (l : list string) x :
  l <> [] -> join sep (l ++ [x]) = join sep l +:+ sep +:+ x.
Proof.
  induction l as [|y l IH]; [congruence|]. intros _.
  destruct l as [|z l]; [reflexivity|].
  change (join sep ((y :: z :: l) ++ [x]))
    with (y +:+ sep +:+ join sep ((z :: l) ++ [x])).
  rewrite IH by discriminate.
  change (join sep (y :: z :: l)) with (y +:+ sep +:+ join sep (z :: l)).
  now rewrite !append_assoc3.
Qed.

(** One more frame adds " transitioning to " and its label to the prompt
    of the frames before it; the label is the transition's prompt, or
    "scene" when there is none or it is empty. *)
Theorem compileMultiFramePrompt_snoc (frames : list SequenceFrame) (f : SequenceFrame) :
  frames <> [] ->
  compileMultiFramePrompt (frames ++ [f])
  = compileMultiFramePrompt frames +:+ " transitioning to " +:+ frameLabel f
  /\ frameLabel f <> "".
Proof.
  intros Hne. split.
  - unfold compileMultiFramePrompt. rewrite map_app. simpl map.
    rewrite join_snoc by (destruct frames; [congruence | discriminate]).
    now rewrite !append_assoc3.
  - unfold frameLabel. destruct (transition f) as [t|]; [|discriminate].
    destruct (transition_prompt t); simpl; discriminate.
Qed.

(** * Reordering the thumbnails *)

Lemma findIndex_found id (assets : list InputAsset) :
  In id (map asset_id assets) ->
  0 <= findIndex id assets < Z.of_nat (length assets)
  /\ assetIds assets !! Z.to_nat (findIndex id assets) = Some (Some id).
Proof.
  induction assets as [|a assets IH]; [intros []|].
  intros Hin. simpl findIndex.
  destruct (String.eqb (asset_id a) id) eqn:Ea.
  - apply String.eqb_eq in Ea. simpl. split; [lia|]. now rewrite Ea.
  - destruct Hin as [Hin | Hin]; [apply String.eqb_neq in Ea; congruence|].
    destruct (IH Hin) as [Hr Hl].
    destruct (findIndex id assets <? 0) eqn:El; [apply Z.ltb_lt in El; lia|].
    split; [simpl length; lia|].
    replace (Z.to_nat (findIndex id assets + 1))
      with (S (Z.to_nat (findIndex id assets))) by lia.
    exact Hl.
Qed.

Lemma findIndex_first id (assets : list InputAsset) k a :
  assets !! k = Some a -> asset_id a = id ->
  findIndex id assets <= Z.of_nat k.
Proof.
  revert k. induction assets as [|b assets IH]; intros k Hk Ha; [discriminate|].
  simpl findIndex. destruct (String.eqb (asset_id b) id) eqn:Eb; [lia|].
  destruct k as [|k]; simpl in Hk.
  - injection Hk as ->. apply String.eqb_neq in Eb. congruence.
  - specialize (IH k Hk Ha).
    destruct (findIndex id assets <? 0); lia.
Qed.

Section Reorder.
Variable assets : list InputAsset.
Variable id : string.
Variable offset : Z.
Hypothesis id_nonempty : id <> "".
Hypothesis id_present : In id (map asset_id assets).

Let currentIndex := findIndex id assets.
Let newIndex := targetIndex assets currentIndex (moveSlots_of offset).
Let i := Z.to_nat currentIndex.
Let j := Z.to_nat newIndex.
Let ids := assetIds assets.
Let rest := take i ids ++ drop (S i) ids.

Lemma ids_length : length ids = length assets.
Proof. apply length_map. Qed.

Lemma current_range : 0 <= currentIndex < Z.of_nat (length assets).
Proof. exact (proj1 (findIndex_found id assets id_present)). Qed.

Lemma current_id : ids !! i = Some (Some id).
Proof. exact (proj2 (findIndex_found id assets id_present)). Qed.

Lemma new_range : 0 <= newIndex < Z.of_nat (length assets).
Proof.
  pose proof current_range. unfold newIndex, targetIndex. lia.
Qed.

Lemma rest_length : length rest = (length assets - 1)%nat.
Proof.
  clear j newIndex offset.
  pose proof current_range. pose proof ids_length.
  unfold rest. rewrite length_app, length_take, length_drop. lia.
Qed.

Lemma rest_lookup m :
  rest !! m = if (m <? i)%nat then ids !! m else ids !! S m.
Proof.
  clear j newIndex offset.
  pose proof current_range. pose proof ids_length. unfold rest.
  destruct (m <? i)%nat eqn:Em.
  - apply Nat.ltb_lt in Em.
    rewrite lookup_app_l by (rewrite length_take; lia).
    now rewrite lookup_take_lt by lia.
  - apply Nat.ltb_ge in Em.
    rewrite lookup_app_r by (rewrite length_take; lia).
    rewrite length_take, lookup_drop. f_equal. lia.
Qed.

Lemma dropOrder_moved :
  newIndex <> currentIndex ->
  dropOrder assets (Some id) offset = Some (take j rest ++ Some id :: drop j rest).
Proof.
  intros Hmove. pose proof current_range as Hc. pose proof new_range as Hn.
  pose proof ids_length as Hl. pose proof rest_length as Hr.
  unfold dropOrder.
  assert (Hid : nonempty (Some id) = Some id)
    by (destruct id; [congruence | reflexivity]).
  rewrite Hid. fold currentIndex. fold newIndex.
  destruct (newIndex =? currentIndex) eqn:E; [apply Z.eqb_eq in E; congruence|].
  fold (assetIds assets). fold ids.
  unfold spliceOut.
  assert (Hs : spliceStart ids currentIndex = i).
  { unfold spliceStart. rewrite Hl.
    destruct (currentIndex <? 0) eqn:E0; [apply Z.ltb_lt in E0; lia|].
    unfold i. f_equal. lia. }
  rewrite Hs, current_id. fold rest. unfold spliceIn.
  assert (Hs' : spliceStart rest newIndex = j).
  { unfold spliceStart. rewrite Hr.
    destruct (newIndex <? 0) eqn:E0; [apply Z.ltb_lt in E0; lia|].
    unfold j. f_equal. lia. }
  rewrite Hs'. reflexivity.
Qed.

Lemma order_lookup m :
  newIndex <> currentIndex ->
  (take j rest ++ Some id :: drop j rest) !! m
  = if (m <? j)%nat then rest !! m
    else if (m =? j)%nat then Some (Some id)
    else rest !! pred m.
Proof.
  intros Hmove. pose proof new_range as Hn. pose proof rest_length as Hr.
  assert (Hj : (j <= length rest)%nat) by (unfold j; lia).
  destruct (m <? j)%nat eqn:Em.
  - apply Nat.ltb_lt in Em.
    rewrite lookup_app_l by (rewrite length_take; lia).
    now rewrite lookup_take_lt by lia.
  - apply Nat.ltb_ge in Em.
    rewrite lookup_app_r by (rewrite length_take; lia).
    rewrite length_take. replace (j `min` length rest)%nat with j by lia.
    destruct (m =? j)%nat eqn:Ej.
    + apply Nat.eqb_eq in Ej. subst m. now rewrite Nat.sub_diag.
    + apply Nat.eqb_neq in Ej.
      replace (m - j)%nat with (S (m - j - 1)) by lia. simpl.
      rewrite lookup_drop. f_equal. lia.
Qed.

End Reorder.

(** A drop that moves the thumbnail hands [onReorder] the same ids in a
    new order: nothing is lost, added or undefined, and the dragged id
    sits at the slot it was dropped on (its old slot plus the drag
    distance rounded to whole slots, kept inside the strip). *)
Theorem dropOrder_is_reordering (assets : list InputAsset) (id : string)
    (offset : Z) (order : list (option string)) :
  id <> "" -> In id (map asset_id assets) ->
  dropOrder assets (Some id) offset = Some order ->
  order ≡ₚ assetIds assets
  /\ order !! Z.to_nat (targetIndex assets (findIndex id assets) (moveSlots_of offset))
     = Some (Some id)
  /\ targetIndex assets (findIndex id assets) (moveSlots_of offset)
     <> findIndex id assets.
Proof.
  intros Hne Hin Hd.
  assert (Hmove : targetIndex assets (findIndex id assets) (moveSlots_of offset)
                  <> findIndex id assets).
  { intros Heq. unfold dropOrder in Hd.
    assert (Hid : nonempty (Some id) = Some id)
      by (destruct id; [congruence | reflexivity]).
    rewrite Hid in Hd. apply Z.eqb_eq in Heq. rewrite Heq in Hd. discriminate. }
  rewrite (dropOrder_moved assets id offset Hne Hin Hmove) in Hd.
  injection Hd as <-. split; [|split; [|exact Hmove]].
  - rewrite <- Permutation_middle. rewrite take_drop.
    rewrite <- (take_drop_middle (assetIds assets) _ _
                  (current_id assets id Hin)) at 3.
    now rewrite <- Permutation_middle.
  - rewrite (order_lookup assets id offset Hin _ Hmove).
    now rewrite Nat.ltb_irrefl, Nat.eqb_refl.
Qed.

(** What is shown during the drag is what the drop gives: every other
    thumbnail ends in the slot where it was displayed, one slot towards
    the place the dragged one left when it is in between, its own slot
    otherwise. *)
Theorem preview_matches_drop (assets : list InputAsset) (id : string) (offset : Z)
    (k : nat) (a : InputAsset) :
  id <> "" -> In id (map asset_id assets) ->
  assets !! k = Some a -> asset_id a <> id ->
  orderAfterDrop assets id offset
    !! Z.to_nat (displayedSlot assets id offset k a)
  = Some (Some (asset_id a)).
Proof.
  intros Hne Hin Hk Ha.
  pose proof (current_range assets id Hin) as Hc.
  pose proof (new_range assets id offset Hin) as Hn.
  pose proof (ids_length assets) as Hl.
  assert (Hidk : assetIds assets !! k = Some (Some (asset_id a))).
  { unfold assetIds. now rewrite list_lookup_fmap, Hk. }
  assert (Hklen : (k < length assets)%nat) by (eapply lookup_lt_Some; eauto).
  assert (Hki : Z.of_nat k <> findIndex id assets).
  { intros Heq. pose proof (current_id assets id Hin) as Hcur.
    rewrite <- Heq, Nat2Z.id, Hidk in Hcur. congruence. }
  unfold displayedSlot, translateX.
  assert (Hid : nonempty (Some id) = Some id)
    by (destruct id; [congruence | reflexivity]).
  rewrite Hid.
  destruct (String.eqb (asset_id a) id) eqn:Ea;
    [apply String.eqb_eq in Ea; congruence|].
  unfold orderAfterDrop.
  set (ci := findIndex id assets) in *.
  set (ni := targetIndex assets ci (moveSlots_of offset)) in *.
  destruct (Z.eq_dec ni ci) as [Hsame | Hmove].
  - (* nothing moves *)
    assert (Hd : dropOrder assets (Some id) offset = None).
    { unfold dropOrder. rewrite Hid. fold ci. fold ni.
      apply Z.eqb_eq in Hsame. now rewrite Hsame. }
    rewrite Hd. simpl default. rewrite Hsame.
    assert (Hz : (if (ci <? Z.of_nat k) && (Z.of_nat k <=? ci)
                  then - ITEM_FULL_WIDTH
                  else if (Z.of_nat k <? ci) && (ci <=? Z.of_nat k)
                       then ITEM_FULL_WIDTH else 0) = 0).
    { destruct (ci <? Z.of_nat k) eqn:E1, (Z.of_nat k <=? ci) eqn:E2,
        (Z.of_nat k <? ci) eqn:E3, (ci <=? Z.of_nat k) eqn:E4; simpl;
        try reflexivity; exfalso;
        rewrite ?Z.ltb_lt, ?Z.leb_le, ?Z.ltb_ge, ?Z.leb_gt in *; lia. }
    rewrite Hz. change (0 / ITEM_FULL_WIDTH) with 0.
    rewrite Z.add_0_r, Nat2Z.id. exact Hidk.
  - rewrite (dropOrder_moved assets id offset Hne Hin Hmove). simpl default.
    rewrite (order_lookup assets id offset Hin _ Hmove).
    fold ci. fold ni.
    destruct ((ci <? Z.of_nat k) && (Z.of_nat k <=? ni)) eqn:Eleft.
    + apply andb_true_iff in Eleft. destruct Eleft as [E1 E2].
      apply Z.ltb_lt in E1. apply Z.leb_le in E2.
      change (- ITEM_FULL_WIDTH / ITEM_FULL_WIDTH) with (-1).
      replace (Z.to_nat (Z.of_nat k + -1)) with (pred k) by lia.
      assert (Hlt : (pred k <? Z.to_nat ni)%nat = true) by (apply Nat.ltb_lt; lia).
      rewrite Hlt, (rest_lookup assets id Hin).
      assert (Hge : (pred k <? Z.to_nat ci)%nat = false) by (apply Nat.ltb_ge; lia).
      fold ci. rewrite Hge.
      replace (S (pred k)) with k by lia. exact Hidk.
    + destruct ((Z.of_nat k <? ci) && (ni <=? Z.of_nat k)) eqn:Eright.
      * apply andb_true_iff in Eright. destruct Eright as [E1 E2].
        apply Z.ltb_lt in E1. apply Z.leb_le in E2.
        change (ITEM_FULL_WIDTH / ITEM_FULL_WIDTH) with 1.
        replace (Z.to_nat (Z.of_nat k + 1)) with (S k) by lia.
        assert (Hlt : (S k <? Z.to_nat ni)%nat = false) by (apply Nat.ltb_ge; lia).
        assert (Heq : (S k =? Z.to_nat ni)%nat = false) by (apply Nat.eqb_neq; lia).
        rewrite Hlt, Heq. simpl pred. rewrite (rest_lookup assets id Hin).
        assert (Hlt' : (k <? Z.to_nat ci)%nat = true) by (apply Nat.ltb_lt; lia).
        fold ci. rewrite Hlt'. exact Hidk.
      * change (0 / ITEM_FULL_WIDTH) with 0. rewrite Z.add_0_r, Nat2Z.id.
        apply andb_false_iff in Eleft. apply andb_false_iff in Eright.
        rewrite !Z.ltb_ge, !Z.leb_gt in Eleft, Eright.
        destruct (Z.lt_ge_cases (Z.of_nat k) ci) as [Hlow | Hhigh].
        -- (* left of both *)
           assert (Hlt : (k <? Z.to_nat ni)%nat = true) by (apply Nat.ltb_lt; lia).
           rewrite Hlt, (rest_lookup assets id Hin).
           assert (Hlt' : (k <? Z.to_nat ci)%nat = true) by (apply Nat.ltb_lt; lia).
           fold ci. rewrite Hlt'. exact Hidk.
        -- (* right of both *)
           assert (Hlt : (k <? Z.to_nat ni)%nat = false) by (apply Nat.ltb_ge; lia).
           assert (Heq : (k =? Z.to_nat ni)%nat = false) by (apply Nat.eqb_neq; lia).
           rewrite Hlt, Heq, (rest_lookup assets id Hin).
           assert (Hge : (pred k <? Z.to_nat ci)%nat = false)
             by (apply Nat.ltb_ge; lia).
           fold ci. rewrite Hge.
           replace (S (pred k)) with k by lia. exact Hidk.
Qed.

(** * Example runs of the further statements *)

Lemma analyzeVideo_embedded_witness :
  fst (@analyzeVideo Script demoEnv "data:video/mp4;base64,AAAA" "What happens?"
         "gemini-2.5-flash" (world0 transcript))
  = Fulfilled "hello".
Proof.
  exact (f_equal fst
           (@analyzeVideo_embedded Script demoEnv "mp4" "AAAA" "What happens?"
              "gemini-2.5-flash" (world0 transcript) eq_refl
              ltac:(discriminate) eq_refl)).
Defined.

Lemma analyzeVideo_other_data_uri_witness :
  log (snd (@analyzeVideo Script demoEnv "data:image/png;base64,AAAA" "What happens?"
              "gemini-2.5-flash" (world0 transcript)))
  = [EvGenerateContent
       {| content_model := "gemini-2.5-flash";
          content_parts :=
            [InlinePart {| data := "data:image/png;base64,AAAA";
                           mimeType := "video/mp4" |};
             TextPart "What happens?"] |}].
Proof.
  exact (@analyzeVideo_other_data_uri Script demoEnv "image/png;base64,AAAA"
           "What happens?" "gemini-2.5-flash" (world0 transcript) eq_refl eq_refl).
Defined.

Lemma transcribeAudio_embedded_witness :
  fst (@transcribeAudio Script demoEnv "data:audio/webm;base64,GkXf" (world0 transcript))
  = Fulfilled "hello".
Proof.
  exact (f_equal fst
           (@transcribeAudio_embedded Script demoEnv "webm" "GkXf"
              (world0 transcript) eq_refl ltac:(discriminate) eq_refl)).
Defined.

Lemma overloaded_text_retryable_witness :
  classify (Str "The model is Overloaded, try again") = Some RETRYABLE
  /\ classify (newError "upstream returned 503 (unavailable)") = Some RETRYABLE.
Proof.
  split.
  - apply (overloaded_text_retryable _ "The model is " "Overloaded" ", try again");
      [discriminate | discriminate | left; reflexivity | reflexivity].
  - apply (overloaded_text_retryable _ "upstream returned " "503" " (unavailable)");
      [discriminate | discriminate | right; reflexivity | reflexivity].
Defined.

Lemma submitOnly_never_waits request f (v : World Script) :
  waited (log (snd (resume (submitOnly request) f v))) = waited (log v).
Proof.
  destruct f as [r|]; [reflexivity|].
  change (resume (submitOnly request) None v)
    with (let (r, w') :=
            call EvGenerateVideos (svc_generateVideos (Environment := demoEnv))
              request v in
          (Running (Some r) : Step (option (Settled Operation)) Operation, w')).
  rewrite call_world. cbn [snd log]. rewrite waited_app.
  unfold waited. simpl. lia.
Qed.

(** Three 503 answers in a row, three attempts allowed from 2000 ms: the
    run waits 2000 and 4000 ms, the whole budget. *)
Lemma retry_total_delay_witness :
  exists w',
    Settles (retryWithBackoff (H := demoEnv) (submitOnly demoRequest) 3 2000)
      (start (retryWithBackoff (H := demoEnv) (submitOnly demoRequest) 3 2000))
      (world0 allOverloaded) (Rejected overloadError) w'
    /\ waited (log w') = 6000
    /\ waited (log w') - waited (log (world0 allOverloaded))
       <= 2000 * (2 ^ (3 - 1) - 1).
Proof.
  eexists.
  eassert (Hrun : Settles
            (retryWithBackoff (H := demoEnv) (submitOnly demoRequest) 3 2000)
            (start (retryWithBackoff (H := demoEnv) (submitOnly demoRequest) 3 2000))
            (world0 allOverloaded) (Rejected overloadError) _).
  { do 5 (eapply settles_later; [reflexivity|]). apply settles_now. reflexivity. }
  split; [exact Hrun|]. split; [reflexivity|].
  exact (@retry_total_delay Script demoEnv Operation (submitOnly demoRequest)
           3 2000 (world0 allOverloaded) _ (Rejected overloadError)
           ltac:(lia) ltac:(lia) (submitOnly_never_waits demoRequest) Hrun).
Defined.

Lemma generateVideo_submissions_bounded_witness :
  exists r w',
    demoVideo twoBranches 2 [0; 1]%nat = Some (r, w')
    /\ (videoCalls (log w') <= 0 + 3 * 2)%nat.
Proof.
  eexists _, _. split; [vm_compute; reflexivity|].
  refine (@generateVideo_submissions_bounded Script demoEnv "a cat" "veo-3"
            (withCount 2) (Some demoImage) None None [0; 1]%nat
            (world0 twoBranches) _ _ _).
  vm_compute. reflexivity.
Defined.

Lemma generateVideo_negative_count_witness :
  exists w',
    demoVideo oneImage (-1) [] 
    = Some (Fulfilled {| result_uri := Some "data:image/png;base64,QUJD";
                         isFallbackImage := Some true;
                         videoMetadata := None; uris := None |}, w')
    /\ videoCalls (log w') = 0%nat.
Proof.
  eexists. split.
  - refine (eq_trans
              (@generateVideo_negative_count Script demoEnv "a cat" "veo-3"
                 (withCount (-1)) (Some demoImage) None None [] (world0 oneImage)
                 (-1) (demoPrepared 0) (world0 oneImage) eq_refl ltac:(lia) eq_refl)
              _).
    vm_compute. reflexivity.
  - reflexivity.
Defined.

Lemma reference_failure_aborts_witness :
  exists w',
    @generateVideo Script demoEnv "a cat" "veo-3.1-generate-preview" noOptions
      None None (Some ["https://host/ref.webp"]) [] (world0 oneImage)
    = Some (Rejected loadFailure, w')
    /\ videoCalls (log w') = 0%nat
    /\ contentCalls (log w') = 0%nat.
Proof.
  eexists.
  refine (@reference_failure_aborts Script demoEnv "a cat" "veo-3.1-generate-preview"
            noOptions None None (Some ["https://host/ref.webp"]) []
            (world0 oneImage) loadFailure _ eq_refl _).
  vm_compute. reflexivity.
Defined.

Lemma input_image_failure_ignored_witness :
  exists w1,
    @generateVideo Script demoEnv "a cat" "veo-3" noOptions
      (Some "https://host/in.webp") None None [0]%nat (world0 threeVideos)
    = @generateVideo Script demoEnv "a cat" "veo-3" noOptions
        None None None [0]%nat w1
    /\ log w1 = [EvLoadImage "https://host/in.webp"].
Proof.
  eexists. split.
  - refine (@input_image_failure_ignored Script demoEnv "a cat" "veo-3" noOptions
              "https://host/in.webp" None None [0]%nat (world0 threeVideos)
              loadFailure _ eq_refl ltac:(discriminate) _).
    vm_compute. reflexivity.
  - reflexivity.
Defined.

Lemma generateVideo_pending_while_not_done_witness :
  @generateVideo unit (neverDone (Some "KEY")) "a cat" "veo-3" (withCount 2)
    None None None [0; 1; 1; 0; 0; 1; 0; 1]%nat {| service := tt; log := [] |}
  = None.
Proof.
  refine (@generateVideo_pending_while_not_done unit (neverDone (Some "KEY"))
            "a cat" "veo-3" (withCount 2) None None None
            {| service := tt; log := [] |} _ _ _ _ eq_refl _
            [0; 1; 1; 0; 0; 1; 0; 1]%nat).
  - intros request σ. eexists. split; reflexivity.
  - intros op σ. eexists. split; reflexivity.
  - vm_compute. reflexivity.
Defined.

Lemma primary_video_is_first_success_witness :
  exists vid,
    firstSuccess [Rejected serverError;
                  Fulfilled (finishedVideo "op1" "https://v/1?alt=media");
                  Fulfilled (finishedVideo "op2" "https://v/2?alt=media")]
    = Some vid
    /\ uri vid = Some "https://v/1?alt=media".
Proof.
  destruct (@primary_video_is_first_success Script demoEnv
              [Rejected serverError;
               Fulfilled (finishedVideo "op1" "https://v/1?alt=media");
               Fulfilled (finishedVideo "op2" "https://v/2?alt=media")]
              _ eq_refl) as (vid & u & Hf & Hu & _).
  exists vid. split; [exact Hf|].
  injection Hf as <-. reflexivity.
Defined.

Lemma generated_images_are_data_uris_witness :
  Forall image_uri ["data:image/png;base64,QUJD"].
Proof.
  exact (proj2 (@generated_images_are_data_uris Script demoEnv "a cat"
                  "gemini-2.5-flash-image" [] twoImagesWanted (world0 oneImage)
                  ["data:image/png;base64,QUJD"] _ eq_refl)).
Defined.

Lemma image_rejection_is_plain_error_witness :
  exists msg,
    fst (@generateImageFromText Script demoEnv "a cat" "gemini-2.5-flash-image" []
           twoImagesWanted (world0 allFail))
    = Rejected (newError msg).
Proof.
  destruct (@image_rejection_is_plain_error Script demoEnv "a cat"
              "gemini-2.5-flash-image" [] twoImagesWanted (world0 allFail)
              (newError "Internal error") _ eq_refl) as [msg Hm].
  exists msg. rewrite <- Hm. reflexivity.
Defined.

Lemma normaliser_result_invariant_witness :
  exists c w',
    @convertImageToCompatibleFormat Script demoEnv "https://host/in.webp"
      (world0 {| script_videos := []; script_polls := []; script_contents := [];
                 script_images := [Fulfilled "image/png;base64,iVBOR"] |})
    = (Fulfilled c, w')
    /\ In (compat_mimeType c) ["image/png"; "image/jpeg"; "image/jpg"]
    /\ startsWith (fullDataUri c) "data:" = true
    /\ (fullDataUri c = "data:" +:+ compat_mimeType c +:+ ";base64," +:+ compat_data c
        \/ compat_data c = fullDataUri c).
Proof.
  eexists _, _. split; [vm_compute; reflexivity|].
  exact (@normaliser_result_invariant Script demoEnv "https://host/in.webp"
           (world0 {| script_videos := []; script_polls := [];
                      script_contents := [];
                      script_images := [Fulfilled "image/png;base64,iVBOR"] |})
           _ _ eq_refl).
Defined.

Lemma missing_key_rejects_everything_witness :
  @sendChatMessage Script lockedStudio [] "hello" None (world0 transcript)
  = (Rejected keyError, world0 transcript)
  /\ @generateAudio Script lockedStudio "hello" None None (world0 oneImage)
     = (Rejected keyError, world0 oneImage).
Proof.
  pose proof (@missing_key_rejects_everything Script lockedStudio
                (world0 transcript) eq_refl) as (_ & _ & _ & _ & Hchat & _).
  pose proof (@missing_key_rejects_everything Script lockedStudio
                (world0 oneImage) eq_refl) as (_ & _ & _ & _ & _ & _ & _ & _ & Haudio).
  split; [apply Hchat | apply Haudio].
Defined.

Lemma editImageWithText_result_witness :
  exists img,
    Some "data:image/png;base64,QUJD" = Some img /\ image_uri img.
Proof.
  destruct (@editImageWithText_result Script demoStudio demoImage "make it blue"
              "gemini-2.5-flash-image" (world0 oneImage)
              (Some "data:image/png;base64,QUJD") _ eq_refl)
    as (img & Ho & Hu & _).
  exists img. split; assumption.
Defined.

Lemma orchestrateVideoPrompt_request_witness :
  log (snd (@orchestrateVideoPrompt Script demoStudio
              ["data:image/jpeg;base64,/9j/4AAQ"; "data:image/png;base64,iVBOR"]
              "a walk" (world0 transcript)))
  = [EvGenerateContent
       (orchestratorRequest ["/9j/4AAQ"; "iVBOR"] "a walk")].
Proof.
  exact (f_equal (fun r => log (snd r))
           (@orchestrateVideoPrompt_request Script demoStudio
              [("image/jpeg", "/9j/4AAQ"); ("image/png", "iVBOR")] "a walk"
              (world0 transcript) eq_refl
              ltac:(repeat constructor))).
Defined.

Lemma sendChatMessage_options_witness :
  @sendChatMessage Script demoStudio [] "hello"
    (Some {| isThinkingMode := true; isStoryboard := false; isHelpMeWrite := true |})
    (world0 transcript)
  = @sendChatMessage Script demoStudio [] "hello"
      (Some {| isThinkingMode := false; isStoryboard := false; isHelpMeWrite := true |})
      (world0 transcript).
Proof.
  exact (proj1 (@sendChatMessage_options Script demoStudio [] "hello"
                  {| isThinkingMode := true; isStoryboard := false;
                     isHelpMeWrite := true |}
                  {| isThinkingMode := false; isStoryboard := false;
                     isHelpMeWrite := true |}
                  (world0 transcript) eq_refl eq_refl)).
Defined.

Lemma urlToBase64_rejects_only_on_reader_witness :
  exists response σ1 blob σ2,
    @fetch Script brokenReader "https://host/a.png" emptyScript
    = (Fulfilled response, σ1)
    /\ @response_blob Script brokenReader response σ1 = (Fulfilled blob, σ2)
    /\ fst (@readAsDataURL Script brokenReader blob σ2)
       = Rejected (newError "NotReadableError").
Proof.
  exact (@urlToBase64_rejects_only_on_reader Script brokenReader
           "https://host/a.png" (world0 emptyScript)
           (newError "NotReadableError") _ eq_refl).
Defined.

Lemma generateAudio_outcome_witness :
  fst (@generateAudio Script demoStudio "Hello there" None None (world0 oneImage))
  = Fulfilled (@wavUri Script demoStudio (list_byte_of_string "QUJD") 24000).
Proof.
  exact (f_equal fst
           (@generateAudio_outcome Script demoStudio "Hello there" None None
              (world0 oneImage) eq_refl)).
Defined.

Lemma compileMultiFramePrompt_snoc_witness :
  compileMultiFramePrompt [stillFrame; cutFrame]
  = "A sequence showing: scene transitioning to a slow zoom".
Proof.
  exact (proj1 (compileMultiFramePrompt_snoc [stillFrame] cutFrame
                  ltac:(discriminate))).
Defined.

Lemma wav_independent_of_chunking_witness :
  combineBase64Chunks plainAtob plainBtoa ["AB"; "CD"] 24000
  = combineBase64Chunks plainAtob plainBtoa ["ABCD"] 24000.
Proof.
  apply (wav_independent_of_chunking plainAtob plainBtoa ["AB"; "CD"] ["ABCD"]
           [list_byte_of_string "AB"; list_byte_of_string "CD"]
           [list_byte_of_string "ABCD"] 24000); reflexivity.
Defined.

Lemma wav_malformed_chunk_witness :
  combineBase64Chunks pickyAtob plainBtoa ["AB"; "!"; "CD"] 24000
  = Rejected (newError "InvalidCharacterError").
Proof.
  apply (wav_malformed_chunk pickyAtob plainBtoa ["AB"] "!" ["CD"]
           [list_byte_of_string "AB"]); reflexivity.
Defined.

Lemma dropOrder_is_reordering_witness :
  [Some "b"; Some "c"; Some "a"] ≡ₚ assetIds threeAssets
  /\ [Some "b"; Some "c"; Some "a"] !! 2%nat = Some (Some "a").
Proof.
  destruct (dropOrder_is_reordering threeAssets "a" 120
              [Some "b"; Some "c"; Some "a"]
              ltac:(discriminate) ltac:(simpl; auto) eq_refl)
    as (Hp & Hl & _).
  split; [exact Hp | exact Hl].
Defined.

Lemma preview_matches_drop_witness :
  displayedSlot threeAssets "a" 120 1
    {| asset_id := "b"; asset_src := "b.png" |} = 0
  /\ orderAfterDrop threeAssets "a" 120 !! 0%nat = Some (Some "b").
Proof.
  split; [reflexivity|].
  exact (preview_matches_drop threeAssets "a" 120 1
           {| asset_id := "b"; asset_src := "b.png" |}
           ltac:(discriminate) ltac:(simpl; auto) eq_refl ltac:(discriminate)).
Defined.

(** * A sibling that never settles *)

Section Settling.
Context {Σ : Type} `{Environment Σ} {T : Type}.
Variable a : Async Σ T.

Lemma pool_run_finished schedule (p : Pool Σ (Frame a) T) b r :
  promises p !! b = Some (Finished r) ->
  promises (pool_run a schedule p) !! b = Some (Finished r).
Proof.
  revert p. induction schedule as [|b' schedule IH]; intros p Hb; [exact Hb|].
  change (pool_run a (b' :: schedule) p)
    with (pool_run a schedule (pool_step a b' p)).
  apply IH. now apply pool_step_settled.
Qed.

(** A branch that settles at its next resumption has settled once the
    schedule has given it a turn. *)
Lemma pool_run_turn schedule (p : Pool Σ (Frame a) T) b f r :
  promises p !! b = Some (Running f) ->
  (forall w, fst (resume a f w) = Finished r) ->
  In b schedule ->
  promises (pool_run a schedule p) !! b = Some (Finished r).
Proof.
  intros Hb Hf. revert p Hb.
  induction schedule as [|b' schedule IH]; intros p Hb Hin; [destruct Hin|].
  change (pool_run a (b' :: schedule) p)
    with (pool_run a schedule (pool_step a b' p)).
  destruct (decide (b' = b)) as [->|Hne].
  - apply pool_run_finished.
    rewrite (pool_step_self a b p f Hb). now rewrite Hf.
  - apply IH.
    + rewrite pool_step_other by congruence. exact Hb.
    + destruct Hin as [Heq|Hin]; [congruence | exact Hin].
Qed.

End Settling.

Lemma firstOnly_prepare :
  @prepare nat firstOnly "a cat" "veo-3" (withCount 2) None None None
    {| service := 0%nat; log := [] |}
  = (Fulfilled plainPrepared, {| service := 0%nat; log := [] |}).
Proof. reflexivity. Qed.

(** The second branch of the request awaits its job whatever the
    schedule. *)
Lemma firstOnly_sibling schedule :
  exists s, promises (firstOnlyPool schedule) !! 1%nat = Some s /\ awaiting_job s.
Proof.
  apply (pool_run_at (@videoBranch nat firstOnly (inputs plainPrepared))
           awaiting_job
           (@stalled_branch nat firstOnly (inputs plainPrepared)
              (fun op σ => ex_intro _ (pendingVideo (op_name op))
                             (conj eq_refl eq_refl)))
           schedule
           (pool_init (@videoBranch nat firstOnly (inputs plainPrepared)) 2
              {| service := 0%nat; log := [] |})
           1%nat
           (Running {| attempt := 0; lastError := Undefined;
                       inner := Submitted (Fulfilled (pendingVideo "later")) |})).
  - reflexivity.
  - eexists. split; [reflexivity|]. split; [reflexivity|].
    eexists. split; reflexivity.
Qed.

(** A request for two videos whose first job is done at once and
    whose second job is never done.  The first branch has succeeded as
    soon as it has had a turn, and yet the caller receives neither a
    result nor an error, under any schedule. *)
Lemma pending_sibling_counterexample :
  (forall schedule, In 0%nat schedule ->
     promises (firstOnlyPool schedule) !! 0%nat
     = Some (Finished (Fulfilled (finishedVideo "first" "https://v/first?alt=media"))))
  /\ branch_succeeded (Fulfilled (finishedVideo "first" "https://v/first?alt=media"))
  /\ (forall schedule, firstOnlyVideo schedule = None).
Proof.
  split; [|split].
  - intros schedule Hin.
    apply (pool_run_turn (@videoBranch nat firstOnly (inputs plainPrepared))
             schedule
             (pool_init (@videoBranch nat firstOnly (inputs plainPrepared)) 2
                {| service := 0%nat; log := [] |})
             0%nat
             {| attempt := 0; lastError := Undefined;
                inner := Submitted (Fulfilled
                           (finishedVideo "first" "https://v/first?alt=media")) |});
      [reflexivity | reflexivity | exact Hin].
  - eexists. reflexivity.
  - intros schedule. unfold firstOnlyVideo, generateVideo.
    rewrite firstOnly_prepare.
    destruct (allSettled (fanOut plainPrepared schedule _)) as [results|] eqn:Hs;
      [exfalso | reflexivity].
    apply fanOut_settled in Hs.
    destruct (firstOnly_sibling schedule) as (s & Hl & f & -> & _).
    unfold firstOnlyPool in Hl. rewrite Hs, list_lookup_fmap in Hl.
    destruct (results !! 1%nat); discriminate.
Qed.
